(** * Past Forward: the generation pipeline of [src/App.tsx]

    A shallow embedding of the stateful core of the [App] component: the
    React state cells the handlers write, the bounded worker pool of
    [handleGenerateClick], single-item regeneration, reset, and the
    readiness gate in front of the album compositor; then the download
    and share of single images, what each view offers the user, and the
    positions of the cards in the desktop layout.

    Asynchronous code is cut at its [await]s.  A handler runs atomically up
    to its first suspension, every pending call of the Generator Client is
    kept in the list [inflight] together with the continuation waiting on
    it, and an execution is a list of [event]s: handler invocations by the
    user and settlements of pending promises, in any order.

    State updates are applied in the order they are requested, and a
    handler reads the state left by the latest update (the handlers are
    re-created at each render). *)

From stdpp Require Import base list strings.
From Stdlib Require Import Lia.

Local Open Scope string_scope.
Local Open Scope list_scope.
Local Open Scope nat_scope.

(** ** JavaScript values used by the component *)

(** Truthiness of a string: only the empty string is falsy. *)
Definition truthy (s : string) : bool := negb (String.eqb s EmptyString).

(** Truthiness of [string | null] and of an optional string property. *)
Definition truthy_opt (o : option string) : bool :=
  match o with
  | Some s => truthy s
  | None => false
  end.

(** Plain objects used as records keyed by decade ([Record<string, V>]).
    Property order is observable through [Object.keys] and
    [Object.entries], so an object is the list of its own properties in
    enumeration order.  The keys of this program are decade labels such as
    ["1950s"]; none of them is a canonical array index, so enumeration
    order is insertion order. *)
Module JsObj.
Section Obj.
Context {V : Type}.

(** [o[k]] *)
Fixpoint get (k : string) (o : list (string * V)) : option V :=
  match o with
  | [] => None
  | (k', v) :: o' => if String.eqb k' k then Some v else get k o'
  end.

(** [{...o, [k]: v}], and [o[k] = v] on a fresh copy: an existing
    property keeps its position, a new one goes last. *)
Fixpoint set (k : string) (v : V) (o : list (string * V)) : list (string * V) :=
  match o with
  | [] => [(k, v)]
  | (k', v') :: o' =>
      if String.eqb k' k then (k, v) :: o' else (k', v') :: set k v o'
  end.

(** [Object.keys(o)] *)
Definition keys (o : list (string * V)) : list string := map fst o.

(** [Object.entries(o)] *)
Definition entries (o : list (string * V)) : list (string * V) := o.

End Obj.
End JsObj.

Abbreviation obj V := (list (string * V)) (only parsing).

(** ** Data model *)

Definition DECADES : list string :=
  ["1950s"; "1960s"; "1970s"; "1980s"; "1990s"; "2000s"].

Inductive ImageStatus := Pending | Done | Error.

Record GeneratedImage := {
  status : ImageStatus;
  url : option string;
  error : option string
}.

Inductive AppState := idle | image_uploaded | generating | results_shown.

(** The state cells of [App] that the handlers below read or write.
    ([orderedDecades], [canShare] and [isDownloading] only drive the
    display.) *)
Record AppData := {
  uploadedImage : option string;
  generatedImages : obj GeneratedImage;
  customCaptions : obj string;
  isLoading : bool;
  appState : AppState
}.

Definition ImageStatus_eqb (a b : ImageStatus) : bool :=
  match a, b with
  | Pending, Pending | Done, Done | Error, Error => true
  | _, _ => false
  end.

(** [generatedImages[decade]?.status] *)
Definition status_of (decade : string) (images : obj GeneratedImage) : option ImageStatus :=
  status <$> JsObj.get decade images.

Definition setGeneratedImages (f : obj GeneratedImage → obj GeneratedImage) (a : AppData) : AppData :=
  {| uploadedImage := uploadedImage a;
     generatedImages := f (generatedImages a);
     customCaptions := customCaptions a;
     isLoading := isLoading a;
     appState := appState a |}.

Definition setCustomCaptions (f : obj string → obj string) (a : AppData) : AppData :=
  {| uploadedImage := uploadedImage a;
     generatedImages := generatedImages a;
     customCaptions := f (customCaptions a);
     isLoading := isLoading a;
     appState := appState a |}.

(** The three shapes of entry the handlers write. *)
Definition entry_pending : GeneratedImage :=
  {| status := Pending; url := None; error := None |}.
Definition entry_done (resultUrl : string) : GeneratedImage :=
  {| status := Done; url := Some resultUrl; error := None |}.
Definition entry_error (errorMessage : string) : GeneratedImage :=
  {| status := Error; url := None; error := Some errorMessage |}.

(** ** The Generator Client boundary *)

(** What a rejected promise carries: an [Error] object with its
    [message], or any other thrown value. *)
Inductive thrown := ErrorObject (message : string) | NotAnError.

(** How a call of [generateDecadeImage] settles. *)
Inductive outcome := Resolved (resultUrl : string) | Rejected (err : thrown).

(** [err instanceof Error ? err.message : "An unknown error occurred."] *)
Definition errorMessage (err : thrown) : string :=
  match err with
  | ErrorObject message => message
  | NotAnError => "An unknown error occurred."
  end.

Definition prompt (decade : string) : string :=
  "Reimagine the person in this photo in the style of the " +:+ decade +:+
  ". This includes clothing, hairstyle, photo quality, and the overall aesthetic of that decade. The output must be a photorealistic image showing the person clearly.".

(** The update both [processDecade] and [handleRegenerateDecade] apply
    once their call has settled: the [try] branch or the [catch] branch. *)
Definition settled (decade : string) (r : outcome) (prev : obj GeneratedImage) : obj GeneratedImage :=
  match r with
  | Resolved resultUrl => JsObj.set decade (entry_done resultUrl) prev
  | Rejected err => JsObj.set decade (entry_error (errorMessage err)) prev
  end.

(** ** Suspended computations *)

(** Who awaits a pending call: [processDecade] run by worker [w] of batch
    [b], or [handleRegenerateDecade]. *)
Inductive cont := ProcessDecade (b w : nat) | Regenerate.

Record call := {
  call_id : nat;
  call_decade : string;
  call_image : string;
  call_prompt : string;
  call_cont : cont
}.

(** A worker of the pool: about to test the loop condition, suspended on
    [await processDecade(decade)] (whose call has the given id), or
    returned. *)
Inductive worker := Ready | Awaiting (id : nat) | Finished.

(** The closure of one invocation of [handleGenerateClick]. *)
Record batch := {
  decadesQueue : list string;
  workers : list worker;
  source : string;
  resolved : bool
}.

Record system := {
  app : AppData;
  batches : list batch;
  inflight : list call;
  issued : list call
}.

Definition concurrencyLimit : nat := 2.

Definition with_app (f : AppData → AppData) (s : system) : system :=
  {| app := f (app s); batches := batches s; inflight := inflight s; issued := issued s |}.

Definition with_batch (b : nat) (f : batch → batch) (s : system) : system :=
  {| app := app s; batches := alter f b (batches s); inflight := inflight s; issued := issued s |}.

(** [generateDecadeImage(image, prompt)] is called: the promise is pending
    from now on.  [issued] records every call ever made. *)
Definition generateDecadeImage (image decade : string) (k : cont) (s : system) : nat * system :=
  let id := length (issued s) in
  let c := {| call_id := id; call_decade := decade; call_image := image;
              call_prompt := prompt decade; call_cont := k |} in
  (id, {| app := app s; batches := batches s;
          inflight := inflight s ++ [c]; issued := issued s ++ [c] |}).

(** ** The batch: [handleGenerateClick] *)

Definition initialImages : obj GeneratedImage :=
  foldl (λ acc decade, JsObj.set decade entry_pending acc) [] DECADES.

(** One worker from the loop test to its next suspension:
    [while (queue.length > 0) { decade = queue.shift(); if (decade) ... }]. *)
Fixpoint shift_next (queue : list string) : option string * list string :=
  match queue with
  | [] => (None, [])
  | decade :: queue' =>
      if truthy decade then (Some decade, queue') else shift_next queue'
  end.

Definition set_queue (q : list string) (bt : batch) : batch :=
  {| decadesQueue := q; workers := workers bt; source := source bt; resolved := resolved bt |}.

Definition set_worker (w : nat) (st : worker) (bt : batch) : batch :=
  {| decadesQueue := decadesQueue bt; workers := <[w := st]> (workers bt);
     source := source bt; resolved := resolved bt |}.

Definition set_resolved (bt : batch) : batch :=
  {| decadesQueue := decadesQueue bt; workers := workers bt;
     source := source bt; resolved := true |}.

Definition worker_run (b w : nat) (s : system) : system :=
  match batches s !! b with
  | None => s
  | Some bt =>
      match shift_next (decadesQueue bt) with
      | (None, q) => with_batch b (λ bt, set_worker w Finished (set_queue q bt)) s
      | (Some decade, q) =>
          let '(id, s') :=
            generateDecadeImage (source bt) decade (ProcessDecade b w)
              (with_batch b (set_queue q) s) in
          with_batch b (set_worker w (Awaiting id)) s'
      end
  end.

Definition handleGenerateClick (s : system) : system :=
  match uploadedImage (app s) with
  | None => s
  | Some image =>
      if truthy image then
        let a := {| uploadedImage := uploadedImage (app s);
                    generatedImages := initialImages;
                    customCaptions := customCaptions (app s);
                    isLoading := true;
                    appState := generating |} in
        let b := length (batches s) in
        let bt := {| decadesQueue := DECADES;
                     workers := replicate concurrencyLimit Ready;
                     source := image;
                     resolved := false |} in
        foldl (λ s w, worker_run b w s)
          {| app := a; batches := batches s ++ [bt];
             inflight := inflight s; issued := issued s |}
          (seq 0 concurrencyLimit)
      else s
  end.

(** ** Regeneration, captions, reset, upload *)

Definition handleRegenerateDecade (decade : string) (s : system) : system :=
  match uploadedImage (app s) with
  | None => s
  | Some image =>
      if truthy image then
        match status_of decade (generatedImages (app s)) with
        | Some Pending => s
        | _ =>
            snd (generateDecadeImage image decade Regenerate
                   (with_app (setGeneratedImages (JsObj.set decade entry_pending)) s))
        end
      else s
  end.

Definition handleCaptionChange (decade newCaption : string) (s : system) : system :=
  with_app (setCustomCaptions (JsObj.set decade newCaption)) s.

Definition handleReset (s : system) : system :=
  with_app (λ a, {| uploadedImage := None;
                    generatedImages := [];
                    customCaptions := [];
                    isLoading := isLoading a;
                    appState := idle |}) s.

(** [reader.onloadend] of [handleImageUpload]. *)
Definition handleImageUpload_onloadend (result : string) (s : system) : system :=
  with_app (λ a, {| uploadedImage := Some result;
                    generatedImages := [];
                    customCaptions := customCaptions a;
                    isLoading := isLoading a;
                    appState := image_uploaded |}) s.

(** ** Executions *)

Inductive event :=
  | ImageLoaded (result : string)
  | GenerateClick
  | RegenerateDecade (decade : string)
  | CaptionChange (decade newCaption : string)
  | ResetClick
  | Settle (id : nat) (r : outcome)
  | Resume (b w : nat)
  | Join (b : nat).

Definition find_call (id : nat) (l : list call) : option call :=
  List.find (λ c, Nat.eqb (call_id c) id) l.

Definition remove_call (id : nat) (l : list call) : list call :=
  filter (λ c, call_id c ≠ id) l.

(** The code after the [await] on a call that has settled. *)
Definition resume_call (c : call) (r : outcome) (s : system) : system :=
  let s' := with_app (setGeneratedImages (settled (call_decade c) r)) s in
  match call_cont c with
  | ProcessDecade b w => with_batch b (set_worker w Ready) s'
  | Regenerate => s'
  end.

Definition is_finished (st : worker) : bool :=
  match st with Finished => true | _ => false end.

(** The code after [await Promise.all(workers)]. *)
Definition join (b : nat) (s : system) : system :=
  with_batch b set_resolved
    (with_app (λ a, {| uploadedImage := uploadedImage a;
                       generatedImages := generatedImages a;
                       customCaptions := customCaptions a;
                       isLoading := false;
                       appState := results_shown |}) s).

Definition step (ev : event) (s : system) : option system :=
  match ev with
  | ImageLoaded result => Some (handleImageUpload_onloadend result s)
  | GenerateClick => Some (handleGenerateClick s)
  | RegenerateDecade decade => Some (handleRegenerateDecade decade s)
  | CaptionChange decade newCaption => Some (handleCaptionChange decade newCaption s)
  | ResetClick => Some (handleReset s)
  | Settle id r =>
      match find_call id (inflight s) with
      | Some c =>
          Some (resume_call c r
                  {| app := app s; batches := batches s;
                     inflight := remove_call id (inflight s); issued := issued s |})
      | None => None
      end
  | Resume b w =>
      match batches s !! b ≫= (λ bt, workers bt !! w) with
      | Some Ready => Some (worker_run b w s)
      | _ => None
      end
  | Join b =>
      match batches s !! b with
      | Some bt =>
          if forallb is_finished (workers bt) && negb (resolved bt)
          then Some (join b s) else None
      | None => None
      end
  end.

Fixpoint run (tr : list event) (s : system) : option system :=
  match tr with
  | [] => Some s
  | ev :: tr' =>
      match step ev s with
      | Some s' => run tr' s'
      | None => None
      end
  end.

(** The component as first mounted. *)
Definition init : system :=
  {| app := {| uploadedImage := None; generatedImages := []; customCaptions := [];
               isLoading := false; appState := idle |};
     batches := []; inflight := []; issued := [] |}.

(** ** The album *)

(** What the album handlers do to the outside world, in order. *)
Inductive effect :=
  | Alert (message : string)
  | CreateAlbumPage (imageData captions : obj string)
  | Download (href fileName : string)
  | DataUrlToFile (dataUrl fileName : string)
  | Share (fileName title text : string)
  | ConsoleError (message : string).

(** How a call of the compositor settles: with the data URL of the album,
    or with a rejection, of which the handlers look at the [name]. *)
Inductive album_result := AlbumReady (albumDataUrl : string) | AlbumFailed (name : string).

(** The filter of [prepareAlbumData]:
    [image.status === 'done' && image.url]. *)
Definition usable (image : GeneratedImage) : bool :=
  ImageStatus_eqb (status image) Done && truthy_opt (url image).

Definition imageData_of (images : obj GeneratedImage) : obj string :=
  foldl (λ acc e, JsObj.set e.1 (default EmptyString (url e.2)) acc) []
    (List.filter (λ e, usable e.2) (JsObj.entries images)).

Definition prepareAlbumData (s : system) : list effect * option (obj string) :=
  let imageData := imageData_of (generatedImages (app s)) in
  if Nat.ltb (length (JsObj.keys imageData)) (length DECADES)
  then ([Alert "Please wait for all images to finish generating."], None)
  else ([], Some imageData).

(** [decadesInAlbum[0]] and [decadesInAlbum[decadesInAlbum.length - 1]]
    inside a template literal: a missing element prints as [undefined]. *)
Definition firstDecade (decadesInAlbum : list string) : string :=
  default "undefined" (head decadesInAlbum).
Definition lastDecade (decadesInAlbum : list string) : string :=
  default "undefined" (last decadesInAlbum).

Definition shareFileName (imageData : obj string) : string :=
  let decadesInAlbum := JsObj.keys imageData in
  "past-forward-album-" +:+ firstDecade decadesInAlbum +:+ "-" +:+
  lastDecade decadesInAlbum +:+ ".jpg".

Definition shareTitle (imageData : obj string) : string :=
  let decadesInAlbum := JsObj.keys imageData in
  "My Past Forward Album: " +:+ firstDecade decadesInAlbum +:+ " - " +:+
  lastDecade decadesInAlbum.

Section Album.

(** The compositor of [lib/albumUtils] is not part of this file: it is
    given the images and the captions and either resolves to the data URL
    of the album or rejects. *)
Variable createAlbumPage : obj string → obj string → album_result.

(** [navigator.canShare && navigator.canShare({ files: [file] })], for
    the file of the given name. *)
Variable canShareFile : string → bool.

Definition handleDownloadAlbum (s : system) : list effect :=
  match prepareAlbumData s with
  | (effs, None) => effs
  | (effs, Some imageData) =>
      effs ++
      CreateAlbumPage imageData (customCaptions (app s)) ::
      match createAlbumPage imageData (customCaptions (app s)) with
      | AlbumReady albumDataUrl => [Download albumDataUrl "past-forward-album.jpg"]
      | AlbumFailed _ =>
          [ConsoleError "Failed to create or download album:";
           Alert "Sorry, there was an error creating your album. Please try again."]
      end
  end.

(** The file is built by [dataUrlToFile] and handed to [navigator.share];
    what these two do with it is left to the platform. *)
Definition handleShareAlbum (s : system) : list effect :=
  match prepareAlbumData s with
  | (effs, None) => effs
  | (effs, Some imageData) =>
      effs ++
      CreateAlbumPage imageData (customCaptions (app s)) ::
      match createAlbumPage imageData (customCaptions (app s)) with
      | AlbumReady albumDataUrl =>
          let fileName := shareFileName imageData in
          DataUrlToFile albumDataUrl fileName ::
          if canShareFile fileName then
            [Share fileName (shareTitle imageData)
               "I traveled through time with Past Forward! Check out my album."]
          else [ConsoleError "This album file can't be shared by the browser."]
      | AlbumFailed name =>
          if String.eqb name "AbortError" then []
          else [ConsoleError "Error sharing album:";
                Alert "Sorry, there was an error preparing your album for sharing."]
      end
  end.

End Album.

(** ** Single images *)

(** The file name of one image: [past-forward-<decade>.jpg]. *)
Definition individualFileName (decade : string) : string :=
  "past-forward-" +:+ decade +:+ ".jpg".

(** [image?.status === 'done' && image.url] guards the download; the
    link is clicked at once. *)
Definition handleDownloadIndividualImage (decade : string) (s : system) : list effect :=
  match JsObj.get decade (generatedImages (app s)) with
  | Some image =>
      if usable image
      then [Download (default EmptyString (url image)) (individualFileName decade)]
      else []
  | None => []
  end.

(** How a call into the platform settles: it completes, or it rejects
    with an error of which the handler reads the [name]. *)
Inductive platform_result := Completed | Failed (name : string).

(** The [catch] block of [handleShareIndividualImage]. *)
Definition share_catch (r : platform_result) : list effect :=
  match r with
  | Completed => []
  | Failed name =>
      if String.eqb name "AbortError" then [] else [ConsoleError "Error sharing image:"]
  end.

Section SingleShare.

(** Whether [navigator.share] exists, and how [dataUrlToFile] (of
    [lib/albumUtils]), [navigator.canShare] and [navigator.share] answer
    for a file of a given name. *)
Variable navigator_share : bool.
Variable dataUrlToFile : string → string → platform_result.
Variable canShareFile : string → bool.
Variable share : string → string → string → platform_result.

Definition handleShareIndividualImage (decade : string) (s : system) : list effect :=
  match JsObj.get decade (generatedImages (app s)) with
  | Some image =>
      if usable image && navigator_share then
        let dataUrl := default EmptyString (url image) in
        let fileName := individualFileName decade in
        DataUrlToFile dataUrl fileName ::
        match dataUrlToFile dataUrl fileName with
        | Completed =>
            if canShareFile fileName then
              let title := "My " +:+ decade +:+ " Look!" in
              let text := "Check out my look from the " +:+ decade +:+
                          ", generated by Past Forward!" in
              Share fileName title text :: share_catch (share fileName title text)
            else [ConsoleError "This file can't be shared by the browser."]
        | Failed name => share_catch (Failed name)
        end
      else []
  | None => []
  end.

End SingleShare.

(** ** The desktop layout *)

Module Layout.

Record position := { top : string; left : string; rotate : Z }.

(** Pre-defined positions for a scattered look on desktop. *)
Definition POSITIONS : list position :=
  [ {| top := "5%";  left := "10%"; rotate := -8 |};
    {| top := "15%"; left := "60%"; rotate := 5 |};
    {| top := "45%"; left := "5%";  rotate := 3 |};
    {| top := "2%";  left := "35%"; rotate := 10 |};
    {| top := "40%"; left := "70%"; rotate := -12 |};
    {| top := "50%"; left := "38%"; rotate := -3 |} ]%Z.

(** [l.indexOf(x)]: the first index holding [x], or [-1]. *)
Fixpoint indexOf_from (i : Z) (x : string) (l : list string) : Z :=
  match l with
  | [] => (-1)%Z
  | y :: l' => if String.eqb y x then i else indexOf_from (i + 1)%Z x l'
  end.

Definition indexOf (x : string) (l : list string) : Z := indexOf_from 0%Z x l.

(** [l[i]] for a number [i]: [undefined] outside the array. *)
Definition at_index {A} (l : list A) (i : Z) : option A :=
  if (i <? 0)%Z then None else l !! Z.to_nat i.

(** [const { rotate } = POSITIONS[DECADES.indexOf(decade)]]: destructuring
    [undefined] throws, which is [None] here. *)
Definition cardRotate (decade : string) : option Z :=
  rotate <$> at_index POSITIONS (indexOf decade DECADES).

(** [orderedDecades.map(...)]: the cards of the desktop layout with their
    rotations, unless rendering one of them throws. *)
Definition desktopCards (orderedDecades : list string) : option (list (string * Z)) :=
  mapM (λ decade, (λ r, (decade, r)) <$> cardRotate decade) orderedDecades.

End Layout.

(** The status a card is given:
    [generatedImages[decade]?.status || 'pending']. *)
Definition cardStatus (decade : string) (s : system) : ImageStatus :=
  default Pending (status_of decade (generatedImages (app s))).

(** * Vocabulary of the statements *)

(** The Result Store and the caption overrides of a state. *)
Definition images (s : system) : obj GeneratedImage := generatedImages (app s).
Definition captions (s : system) : obj string := customCaptions (app s).

(** The shapes an entry can take: [url] exactly when [Done], [error]
    exactly when [Error], never both. *)
Definition entry_wf (e : GeneratedImage) : Prop :=
  (is_Some (url e) ↔ status e = Done) ∧
  (is_Some (error e) ↔ status e = Error) ∧
  ¬ (is_Some (url e) ∧ is_Some (error e)).

Definition fresh_entry (e : GeneratedImage) : Prop :=
  e = entry_pending ∨ (∃ resultUrl, e = entry_done resultUrl) ∨ (∃ message, e = entry_error message).

(** How one step can change the store: not at all, by clearing it, by
    replacing it with the all-pending object of a new batch, or by
    replacing one entry with a freshly built one. *)
Inductive store_write : obj GeneratedImage → obj GeneratedImage → Prop :=
  | write_none o : store_write o o
  | write_clear o : store_write o []
  | write_initial o : store_write o initialImages
  | write_entry o decade e : fresh_entry e → store_write o (JsObj.set decade e o).

Definition store_wf (o : obj GeneratedImage) : Prop := Forall (λ e, entry_wf e.2) o.

(** The batch whose worker awaits the call, if any. *)
Definition batch_of (c : call) : option nat :=
  match call_cont c with
  | ProcessDecade b _ => Some b
  | Regenerate => None
  end.

(** The calls a batch has made so far, oldest first, and those of them
    that are still pending. *)
Definition issued_by (b : nat) (s : system) : list call :=
  filter (λ c, batch_of c = Some b) (issued s).
Definition inflight_of (b : nat) (s : system) : list call :=
  filter (λ c, batch_of c = Some b) (inflight s).

(** What holds of every reachable state: pending calls have distinct ids
    below the number of calls made; a call made by [processDecade] is
    awaited by the worker it names, and a suspended worker awaits a
    pending call; every pool has [concurrencyLimit]
    workers; the decades a batch has called for, followed by its queue,
    are the catalog; a worker returns only when the queue is empty; a
    resolved batch has all its workers returned. *)
Record wf (s : system) : Prop := {
  wf_ids : NoDup (call_id <$> inflight s);
  wf_fresh : ∀ c, c ∈ inflight s → call_id c < length (issued s);
  wf_await : ∀ c b w, c ∈ inflight s → call_cont c = ProcessDecade b w →
    ∃ bt, batches s !! b = Some bt ∧ workers bt !! w = Some (Awaiting (call_id c));
  wf_pending : ∀ b bt w id, batches s !! b = Some bt → workers bt !! w = Some (Awaiting id) →
    ∃ c, c ∈ inflight s ∧ call_id c = id ∧ call_cont c = ProcessDecade b w;
  wf_pool : ∀ b bt, batches s !! b = Some bt → length (workers bt) = concurrencyLimit;
  wf_fifo : ∀ b bt, batches s !! b = Some bt →
    (call_decade <$> issued_by b s) ++ decadesQueue bt = DECADES;
  wf_drained : ∀ b bt w, batches s !! b = Some bt →
    workers bt !! w = Some Finished → decadesQueue bt = [];
  wf_resolved : ∀ b bt w, batches s !! b = Some bt → resolved bt = true →
    w < concurrencyLimit → workers bt !! w = Some Finished;
  wf_owner : ∀ c b w, c ∈ issued s → call_cont c = ProcessDecade b w →
    b < length (batches s) ∧ w < concurrencyLimit
}.

(** The call that [generateDecadeImage] adds in state [s]. *)
Definition new_call (s : system) (image decade : string) (k : cont) : call :=
  {| call_id := length (issued s); call_decade := decade; call_image := image;
     call_prompt := prompt decade; call_cont := k |}.

(** The state in which the workers of a new batch start. *)
Definition batch_started (image : string) (s : system) : system :=
  {| app := {| uploadedImage := uploadedImage (app s);
               generatedImages := initialImages;
               customCaptions := customCaptions (app s);
               isLoading := true;
               appState := generating |};
     batches := batches s ++ [{| decadesQueue := DECADES;
                                 workers := replicate concurrencyLimit Ready;
                                 source := image;
                                 resolved := false |}];
     inflight := inflight s; issued := issued s |}.

(** The index of the worker that awaits the call. *)
Definition worker_of (c : call) : nat :=
  match call_cont c with
  | ProcessDecade _ w => w
  | Regenerate => 0
  end.

(** What can happen while a batch runs without the user starting or
    discarding any work: calls settle, workers resume, a batch is joined,
    a caption is edited. *)
Definition undisturbed (ev : event) : Prop :=
  match ev with
  | Settle _ _ | Resume _ _ | Join _ | CaptionChange _ _ => True
  | ImageLoaded _ | GenerateClick | RegenerateDecade _ | ResetClick => False
  end.

(** Where a decade of the catalog stands with respect to batch [b]: still
    queued, being generated for a worker of [b], or settled. *)
Definition accounted (b : nat) (s : system) (decade : string) : Prop :=
  (∃ bt, batches s !! b = Some bt ∧ decade ∈ decadesQueue bt) ∨
  (∃ c, c ∈ inflight s ∧ batch_of c = Some b ∧ call_decade c = decade) ∨
  (status_of decade (images s) = Some Done ∨ status_of decade (images s) = Some Error).

(** The states of the component: those some execution leads to. *)
Definition reachable (s : system) : Prop := ∃ tr, run tr init = Some s.

(** Nothing but the batch [b] is active: every pending call belongs to a
    worker of [b], and the workers of all other batches have returned. *)
Definition only_batch (b : nat) (s : system) : Prop :=
  (∀ c, c ∈ inflight s → batch_of c = Some b) ∧
  (∀ b' bt w st, b' ≠ b → batches s !! b' = Some bt → workers bt !! w = Some st → st = Finished).

(** No call is pending and no worker of an earlier batch is still to
    run. *)
Definition quiescent (s : system) : Prop :=
  inflight s = [] ∧
  (∀ b bt w st, batches s !! b = Some bt → workers bt !! w = Some st → st = Finished).

(** The number of identifiers with status Done, and the number of those
    that pass the filter of [prepareAlbumData]. *)
Definition doneCount (o : obj GeneratedImage) : nat :=
  length (List.filter (λ e, ImageStatus_eqb (status e.2) Done) o).
Definition usableCount (o : obj GeneratedImage) : nat :=
  length (List.filter (λ e, usable e.2) o).

Definition wait_alert : effect := Alert "Please wait for all images to finish generating.".

(** The events that are neither a caption edit nor a reset. *)
Definition keeps_captions (ev : event) : Prop :=
  match ev with
  | CaptionChange _ _ | ResetClick => False
  | _ => True
  end.

(** The handlers are attached to the cards of the catalog: the decade
    they are called with is one of [DECADES]. *)
Definition catalog_event (ev : event) : Prop :=
  match ev with
  | RegenerateDecade decade | CaptionChange decade _ => decade ∈ DECADES
  | _ => True
  end.

(** The events that do not discard the store. *)
Definition keeps_store (ev : event) : Prop :=
  match ev with
  | ImageLoaded _ | ResetClick => False
  | _ => True
  end.

(** Every pending call is for a decade of the catalog. *)
Definition catalog_calls (s : system) : Prop :=
  ∀ c, c ∈ inflight s → call_decade c ∈ DECADES.

Definition album_file_name : string := "past-forward-album-1950s-2000s.jpg".

(** As [undisturbed], but the user may regenerate decades meanwhile. *)
Definition no_restart (ev : event) : Prop :=
  match ev with
  | ImageLoaded _ | GenerateClick | ResetClick => False
  | _ => True
  end.

(** A call made by [handleRegenerateDecade] for the decade is pending. *)
Definition regenerating (s : system) (decade : string) : Prop :=
  ∃ c, c ∈ inflight s ∧ call_cont c = Regenerate ∧ call_decade c = decade.

(** What is left for a batch to do: decades to claim, calls to settle,
    workers to resume, and the join. *)
Definition weight (st : worker) : nat :=
  match st with
  | Ready => 1
  | Awaiting _ => 2
  | Finished => 0
  end.

Definition remaining (bt : batch) : nat :=
  3 * length (decadesQueue bt) + sum_list (weight <$> workers bt) +
  (if resolved bt then 0 else 1).

(** The entry a settled call leaves. *)
Definition entry_of (r : outcome) : GeneratedImage :=
  match r with
  | Resolved resultUrl => entry_done resultUrl
  | Rejected err => entry_error (errorMessage err)
  end.

(** The calls settled along an execution, with their outcomes, oldest
    first. *)
Fixpoint settlements (tr : list event) (s : system) : list (call * outcome) :=
  match tr with
  | [] => []
  | ev :: tr' =>
      match step ev s with
      | Some s' =>
          match ev with
          | Settle id r =>
              match find_call id (inflight s) with
              | Some c => [(c, r)]
              | None => []
              end
          | _ => []
          end ++ settlements tr' s'
      | None => []
      end
  end.

(** The executions in which every call settles as [pick] says. *)
Definition settles_as (pick : nat → outcome) (ev : event) : Prop :=
  match ev with
  | Settle id r => r = pick id
  | _ => True
  end.

(** Only batch [b] still has workers to run, and every pending call is
    one of its own or a regeneration. *)
Definition single_batch (b : nat) (s : system) : Prop :=
  (∀ c, c ∈ inflight s → batch_of c = Some b ∨ call_cont c = Regenerate) ∧
  (∀ b' bt w st, b' ≠ b → batches s !! b' = Some bt → workers bt !! w = Some st → st = Finished).

(** One generation per decade at a time: the decades with a pending call
    are all different and Pending, and the decades still queued are
    Pending and have no pending call. *)
Definition exclusive (b : nat) (s : system) : Prop :=
  (∀ c, c ∈ inflight s → status_of (call_decade c) (images s) = Some Pending) ∧
  NoDup (call_decade <$> inflight s) ∧
  (∀ bt decade, batches s !! b = Some bt → decade ∈ decadesQueue bt →
     status_of decade (images s) = Some Pending ∧ decade ∉ (call_decade <$> inflight s)).

(** Nothing is being generated for the decade, and nothing is queued. *)
Definition at_rest (b : nat) (s : system) (decade : string) : Prop :=
  (decade ∉ (call_decade <$> inflight s)) ∧
  (∀ bt, batches s !! b = Some bt → decade ∉ decadesQueue bt).

(** Every call made so far was given a photo and the prompt of its
    decade, and a call made by a batch was given the photo the batch was
    started with. *)
Definition calls_well_formed (s : system) : Prop :=
  (∀ b bt, batches s !! b = Some bt → truthy (source bt) = true) ∧
  (∀ c, c ∈ issued s →
     truthy (call_image c) = true ∧ call_prompt c = prompt (call_decade c) ∧
     (∀ b w, call_cont c = ProcessDecade b w →
        ∃ bt, batches s !! b = Some bt ∧ call_image c = source bt)).

(** While the interface shows the generating view, a batch is unresolved. *)
Definition generating_has_batch (s : system) : Prop :=
  appState (app s) = generating →
  ∃ b bt, batches s !! b = Some bt ∧ resolved bt = false.

(** The pending calls made by [handleRegenerateDecade]: those no worker
    of a pool awaits. *)
Definition regenerations (s : system) : list call :=
  filter (λ c, batch_of c = None) (inflight s).

(** The photo a batch was started with stays that batch's. *)
Definition batch_source (b : nat) (s : system) : option string :=
  source <$> batches s !! b.

(** The calls of batch [b] all carry [image] and the prompt of their
    decade. *)
Definition batch_calls_carry (b : nat) (image : string) (s : system) : Prop :=
  batch_source b s = Some image ∧
  ∀ c, c ∈ issued s → batch_of c = Some b →
    call_image c = image ∧ call_prompt c = prompt (call_decade c).

(** What the current view offers the user.  The upload input is drawn in
    the idle view, Generate and Different Photo in the image-uploaded
    view (with a photo), the cards in the generating and results views,
    Start Over in the results view.  Callbacks of the platform and of the
    Generator Client are not the user's. *)
Definition offered (ev : event) (s : system) : Prop :=
  match ev with
  | GenerateClick =>
      appState (app s) = image_uploaded ∧ truthy_opt (uploadedImage (app s)) = true
  | ResetClick =>
      (appState (app s) = image_uploaded ∧ truthy_opt (uploadedImage (app s)) = true) ∨
      appState (app s) = results_shown
  | RegenerateDecade decade | CaptionChange decade _ =>
      (appState (app s) = generating ∨ appState (app s) = results_shown) ∧ decade ∈ DECADES
  | ImageLoaded _ | Settle _ _ | Resume _ _ | Join _ => True
  end.

(** A file chosen in the idle view has been read before Generate is
    clicked: [onloadend] fires in the idle or the image-uploaded view. *)
Definition read_in_time (ev : event) (s : system) : Prop :=
  match ev with
  | ImageLoaded _ => appState (app s) = idle ∨ appState (app s) = image_uploaded
  | _ => True
  end.

(** Every event of the execution satisfies [ok] in the state it occurs
    in. *)
Fixpoint along (ok : event → system → Prop) (tr : list event) (s : system) : Prop :=
  match tr with
  | [] => True
  | ev :: tr' =>
      ok ev s ∧
      match step ev s with
      | Some s' => along ok tr' s'
      | None => True
      end
  end.

(** All batches but those still shown as generating have resolved: only
    the newest batch can be unresolved, and only in the generating
    view. *)
Definition one_batch_at_a_time (s : system) : Prop :=
  ∀ b bt, batches s !! b = Some bt → resolved bt = false →
    appState (app s) = generating ∧ S b = length (batches s).

(** * Scenarios *)

Definition photo : string := "data:image/png;base64,AAAA".

(** A photo has been uploaded, nothing else has happened. *)
Definition uploaded : system := handleImageUpload_onloadend photo init.

(** A whole batch: the call for the 1960s fails, all others succeed. *)
Definition full_run : list event :=
  [Settle 0 (Resolved "img-1950s"); Resume 0 0;
   Settle 1 (Rejected (ErrorObject "quota exceeded")); Resume 0 1;
   Settle 3 (Resolved "img-1980s"); Resume 0 1;
   Settle 2 (Resolved "img-1970s"); Resume 0 0;
   Settle 5 (Resolved "img-2000s"); Resume 0 0;
   Settle 4 (Resolved "img-1990s"); Resume 0 1;
   Join 0].

Definition after_full_run : system :=
  default init (run full_run (handleGenerateClick uploaded)).

(** The batch as its workers first suspend, and three steps later. *)
Definition mid_run : list event :=
  [Settle 1 (Resolved "img-1960s"); Resume 0 1; Settle 0 (Rejected NotAnError)].

Definition after_mid_run : system :=
  default init (run mid_run (handleGenerateClick uploaded)).

(** A batch in which every call succeeds. *)
Definition all_done_run : list event :=
  [Settle 0 (Resolved "img-1950s"); Resume 0 0;
   Settle 1 (Resolved "img-1960s"); Resume 0 1;
   Settle 2 (Resolved "img-1970s"); Resume 0 0;
   Settle 3 (Resolved "img-1980s"); Resume 0 1;
   Settle 4 (Resolved "img-1990s"); Resume 0 0;
   Settle 5 (Resolved "img-2000s"); Resume 0 1;
   Join 0].

Definition after_all_done : system :=
  default init (run all_done_run (handleGenerateClick uploaded)).

(** The same batch, except that the call for the 1970s resolves to the
    empty string. *)
Definition blank_run : list event :=
  [Settle 0 (Resolved "img-1950s"); Resume 0 0;
   Settle 1 (Resolved "img-1960s"); Resume 0 1;
   Settle 2 (Resolved EmptyString); Resume 0 0;
   Settle 3 (Resolved "img-1980s"); Resume 0 1;
   Settle 4 (Resolved "img-1990s"); Resume 0 0;
   Settle 5 (Resolved "img-2000s"); Resume 0 1;
   Join 0].

Definition after_blank_run : system :=
  default init (run blank_run (handleGenerateClick uploaded)).

(** With a caption set for the 1970s: the failed decade is regenerated,
    and so is the image of the 1970s. *)
Definition groovy_run : list event :=
  [RegenerateDecade "1960s"; RegenerateDecade "1970s";
   Settle 7 (Resolved "img-1970s-again"); Settle 6 (Resolved "img-1960s")].

Definition after_groovy_run : system :=
  default init (run groovy_run (handleCaptionChange "1970s" "Groovy Me" after_full_run)).

(** A batch in which the 1950s complete last, after which they are
    regenerated. *)
Definition shuffled_run : list event :=
  [Settle 1 (Resolved "img-1960s"); Resume 0 1;
   Settle 2 (Resolved "img-1970s"); Resume 0 1;
   Settle 3 (Resolved "img-1980s"); Resume 0 1;
   Settle 4 (Resolved "img-1990s"); Resume 0 1;
   Settle 5 (Resolved "img-2000s"); Resume 0 1;
   Settle 0 (Resolved "img-1950s"); Resume 0 0;
   Join 0;
   RegenerateDecade "1950s"; Settle 6 (Resolved "img-1950s-again")].

Definition after_shuffled_run : system :=
  default init (run shuffled_run (handleGenerateClick uploaded)).

(** The 1950s are regenerated while the batch is still running, and
    their call is still pending when the batch resolves. *)
Definition regenerating_run : list event :=
  [Settle 0 (Resolved "img-1950s"); Resume 0 0;
   RegenerateDecade "1950s";
   Settle 1 (Resolved "img-1960s"); Resume 0 1;
   Settle 2 (Resolved "img-1970s"); Resume 0 0;
   Settle 4 (Resolved "img-1980s"); Resume 0 1;
   Settle 5 (Resolved "img-1990s"); Resume 0 0;
   Settle 6 (Resolved "img-2000s"); Resume 0 1;
   Join 0].

Definition after_regenerating_run : system :=
  default init (run regenerating_run (handleGenerateClick uploaded)).

(** While the first batch runs, the user starts over with another
    photo; the batch goes on. *)
Definition other_photo : string := "data:image/png;base64,BBBB".

Definition swapped_run : list event :=
  [ResetClick; ImageLoaded other_photo;
   Settle 0 (Resolved "img-1950s"); Resume 0 0].

Definition after_swapped_run : system :=
  default init (run swapped_run (handleGenerateClick uploaded)).

(** A session through the interface: upload, generate, wait, regenerate
    one decade, start over, upload again. *)
Definition session_run : list event :=
  ImageLoaded photo :: GenerateClick :: full_run ++
  [RegenerateDecade "1960s"; ResetClick; ImageLoaded other_photo; GenerateClick].

Definition after_session_run : system := default init (run session_run init).

(** The call for the 1950s settles, its worker takes the 1970s, and the
    user regenerates the 1950s at once. *)
Definition crowded_run : list event :=
  [Settle 0 (Resolved "img-1950s"); Resume 0 0; RegenerateDecade "1950s"].

Definition after_crowded_run : system :=
  default init (run crowded_run (handleGenerateClick uploaded)).



(** As above, but the call for the 1950s has settled before the second
    file is read. *)
Definition interrupted_run : list event :=
  [Settle 0 (Resolved "img-1950s");
   ImageLoaded other_photo;
   Resume 0 0;
   Settle 1 (Resolved "img-1960s"); Resume 0 1;
   Settle 2 (Resolved "img-1970s"); Resume 0 0;
   Settle 3 (Resolved "img-1980s"); Resume 0 1;
   Settle 4 (Resolved "img-1990s"); Resume 0 0;
   Settle 5 (Resolved "img-2000s"); Resume 0 1;
   Join 0].

Definition after_interrupted_run : system :=
  default init (run interrupted_run (handleGenerateClick uploaded)).

(** * Properties *)

(** ** Objects *)

Section JsObjFacts.
Context {V : Type}.
Implicit Types (o : list (string * V)) (k : string) (v : V).

Lemma get_set_eq k v o : JsObj.get k (JsObj.set k v o) = Some v.
Proof.
  induction o as [|[k' v'] o IH]; simpl.
  - by rewrite String.eqb_refl.
  - destruct (String.eqb_spec k' k) as [->|Hne]; simpl.
    + by rewrite String.eqb_refl.
    + by destruct (String.eqb_spec k' k).
Qed.

Lemma get_set_ne k k' v o : k ≠ k' → JsObj.get k' (JsObj.set k v o) = JsObj.get k' o.
Proof.
  intros Hne. induction o as [|[k0 v0] o IH]; simpl.
  - by destruct (String.eqb_spec k k').
  - destruct (String.eqb_spec k0 k) as [->|Hk]; simpl.
    + by destruct (String.eqb_spec k k').
    + by rewrite IH.
Qed.

Lemma get_is_Some k o : is_Some (JsObj.get k o) ↔ k ∈ JsObj.keys o.
Proof.
  unfold JsObj.keys. induction o as [|[k' v'] o IH]; simpl.
  - split; [intros [? ?]; discriminate | intros ?%elem_of_nil; done].
  - rewrite elem_of_cons. destruct (String.eqb_spec k' k) as [->|Hne].
    + split; eauto.
    + rewrite IH. split; [by right | intros [?|?]; congruence].
Qed.

Lemma get_elem_of k v o : JsObj.get k o = Some v → (k, v) ∈ o.
Proof.
  induction o as [|[k' v'] o IH]; simpl; [done|].
  destruct (String.eqb_spec k' k) as [->|Hne].
  - intros [= ->]. left.
  - intros ?. right. auto.
Qed.

Lemma set_in k v o : k ∈ JsObj.keys o → JsObj.keys (JsObj.set k v o) = JsObj.keys o.
Proof.
  unfold JsObj.keys. induction o as [|[k' v'] o IH]; simpl.
  - intros ?%elem_of_nil. done.
  - rewrite elem_of_cons. destruct (String.eqb_spec k' k) as [->|Hne]; simpl; [done|].
    intros [?|Hin]; [congruence|]. by rewrite IH.
Qed.

Lemma set_notin k v o : k ∉ JsObj.keys o → JsObj.set k v o = o ++ [(k, v)].
Proof.
  unfold JsObj.keys. induction o as [|[k' v'] o IH]; simpl; [done|].
  rewrite not_elem_of_cons. intros [Hne Hnin].
  destruct (String.eqb_spec k' k) as [->|_]; [done|]. by rewrite IH.
Qed.

Lemma set_Forall (P : string * V → Prop) k v o :
  P (k, v) → Forall P o → Forall P (JsObj.set k v o).
Proof.
  intros Hv. induction 1 as [|[k' v'] o Hx Ho IH]; simpl.
  - by constructor.
  - destruct (String.eqb_spec k' k); constructor; auto.
Qed.

Lemma keys_set_NoDup k v o : NoDup (JsObj.keys o) → NoDup (JsObj.keys (JsObj.set k v o)).
Proof.
  intros Hnd. destruct (decide (k ∈ JsObj.keys o)) as [Hin|Hnin].
  - by rewrite set_in.
  - rewrite set_notin by done. unfold JsObj.keys in *. rewrite map_app. simpl.
    apply NoDup_app. split_and!; [done| |apply NoDup_singleton].
    intros x Hx ->%list_elem_of_singleton. done.
Qed.

End JsObjFacts.

(** ** Writes to the Result Store *)

Lemma fresh_entry_wf e : fresh_entry e → entry_wf e.
Proof.
  intros [->|[[u ->]|[m ->]]]; unfold entry_wf; simpl; split_and!;
    try split; try (intros [[? ?] [? ?]]); try (intros [? ?]); intros;
    try discriminate; eauto.
Qed.

Lemma worker_run_app b w s : app (worker_run b w s) = app s.
Proof.
  unfold worker_run. destruct (batches s !! b) as [bt|]; [|done].
  destruct (shift_next (decadesQueue bt)) as [[decade|] q]; done.
Qed.

Lemma workers_run_app b ws s : app (foldl (λ s w, worker_run b w s) s ws) = app s.
Proof.
  revert s. induction ws as [|w ws IH]; intros s; simpl; [done|].
  by rewrite IH, worker_run_app.
Qed.

Lemma handleGenerateClick_images s :
  truthy_opt (uploadedImage (app s)) = true →
  images (handleGenerateClick s) = initialImages.
Proof.
  unfold images, handleGenerateClick, truthy_opt.
  destruct (uploadedImage (app s)) as [image|]; [|done].
  intros ->. by rewrite workers_run_app.
Qed.

Lemma handleGenerateClick_idle s :
  truthy_opt (uploadedImage (app s)) = false → handleGenerateClick s = s.
Proof.
  unfold handleGenerateClick, truthy_opt.
  destruct (uploadedImage (app s)) as [image|]; [|done]. by intros ->.
Qed.

Lemma settled_fresh decade r o : ∃ e, fresh_entry e ∧ settled decade r o = JsObj.set decade e o.
Proof.
  destruct r as [u|err]; simpl; eexists; (split; [|done]); unfold fresh_entry; eauto.
Qed.

Lemma step_store_write ev s s' : step ev s = Some s' → store_write (images s) (images s').
Proof.
  unfold images. destruct ev as [result| |decade|decade c| |id r|b w|b]; simpl.
  - intros [= <-]. apply write_clear.
  - intros [= <-]. destruct (truthy_opt (uploadedImage (app s))) eqn:Hup.
    + fold (images (handleGenerateClick s)). rewrite handleGenerateClick_images by done.
      apply write_initial.
    + rewrite handleGenerateClick_idle by done. apply write_none.
  - intros [= <-]. unfold handleRegenerateDecade.
    destruct (uploadedImage (app s)) as [image|]; [|apply write_none].
    destruct (truthy image); [|apply write_none].
    destruct (status_of decade (generatedImages (app s))) as [[]|]; simpl;
      first [apply write_none | apply write_entry; by left].
  - intros [= <-]. apply write_none.
  - intros [= <-]. apply write_clear.
  - destruct (find_call id (inflight s)) as [c|]; [|done]. intros [= <-].
    unfold resume_call. destruct (settled_fresh (call_decade c) r (generatedImages (app s))) as (e & He & Heq).
    destruct (call_cont c); simpl; rewrite Heq; by apply write_entry.
  - destruct (batches s !! b ≫= _) as [[]|]; try done. intros [= <-].
    rewrite worker_run_app. apply write_none.
  - destruct (batches s !! b) as [bt|]; [|done].
    destruct (forallb _ _ && _); [|done]. intros [= <-]. apply write_none.
Qed.

Lemma initialImages_wf : store_wf initialImages.
Proof.
  unfold store_wf, initialImages. simpl.
  repeat (constructor; [apply fresh_entry_wf; by left|]). constructor.
Qed.

Lemma store_write_wf o o' : store_write o o' → store_wf o → store_wf o'.
Proof.
  destruct 1; intros Hwf; [done | constructor | apply initialImages_wf |].
  apply set_Forall; [by apply fresh_entry_wf | done].
Qed.

(** An invariant of [step] that holds at first holds after every run. *)
Lemma run_ind (P : system → Prop) (ok : event → Prop) :
  (∀ ev s s', ok ev → P s → step ev s = Some s' → P s') →
  ∀ tr s s', Forall ok tr → P s → run tr s = Some s' → P s'.
Proof.
  intros Hstep tr. induction tr as [|ev tr IH]; simpl; intros s s' Hok Hs.
  - by intros [= <-].
  - destruct (step ev s) as [s1|] eqn:Hev; [|done].
    apply Forall_cons in Hok as [Hev_ok Hok]. eauto.
Qed.

Lemma run_ind_all (P : system → Prop) :
  (∀ ev s s', P s → step ev s = Some s' → P s') →
  ∀ tr s s', P s → run tr s = Some s' → P s'.
Proof.
  intros Hstep tr s s' Hs Hrun.
  apply (run_ind P (λ _, True) (λ ev s0 s1 _, Hstep ev s0 s1) tr s s');
    [by apply Forall_true | done | done].
Qed.

Lemma run_app tr1 tr2 s :
  run (tr1 ++ tr2) s = run tr1 s ≫= run tr2.
Proof.
  revert s. induction tr1 as [|ev tr1 IH]; intros s; simpl; [done|].
  destruct (step ev s); simpl; auto.
Qed.

(** ** Well-formed systems *)

Lemma alter_insert {A} (f : A → A) (l : list A) i x :
  l !! i = Some x → alter f i l = <[i := f x]> l.
Proof.
  revert i. induction l as [|y l IH]; intros [|i] Hi; simplify_eq/=; [done|].
  f_equal. by apply IH.
Qed.

Lemma DECADES_truthy : Forall (λ decade, truthy decade = true) DECADES.
Proof. repeat constructor. Qed.

Lemma DECADES_NoDup : NoDup DECADES.
Proof. apply NoDup_ListNoDup. unfold DECADES. repeat constructor; simpl; intuition discriminate. Qed.

Lemma shift_next_truthy q :
  Forall (λ decade, truthy decade = true) q →
  shift_next q = match q with [] => (None, []) | decade :: q' => (Some decade, q') end.
Proof. destruct 1 as [|d q Hd Hq]; simpl; [done|]. by rewrite Hd. Qed.

Lemma wf_queue_truthy s b bt :
  wf s → batches s !! b = Some bt → Forall (λ decade, truthy decade = true) (decadesQueue bt).
Proof.
  intros Hwf Hb. pose proof DECADES_truthy as H.
  rewrite <- (wf_fifo s Hwf b bt Hb) in H. by apply Forall_app in H as [_ H].
Qed.

(** [worker_run] on a well-formed system: the worker returns when the
    queue is empty, and otherwise takes its head and calls the generator. *)
Lemma worker_run_eq s b w bt :
  batches s !! b = Some bt →
  Forall (λ decade, truthy decade = true) (decadesQueue bt) →
  worker_run b w s =
    match decadesQueue bt with
    | [] =>
        {| app := app s;
           batches := <[b := {| decadesQueue := []; workers := <[w := Finished]> (workers bt);
                                source := source bt; resolved := resolved bt |}]> (batches s);
           inflight := inflight s; issued := issued s |}
    | decade :: q =>
        let c := new_call s (source bt) decade (ProcessDecade b w) in
        {| app := app s;
           batches := <[b := {| decadesQueue := q;
                                workers := <[w := Awaiting (length (issued s))]> (workers bt);
                                source := source bt; resolved := resolved bt |}]> (batches s);
           inflight := inflight s ++ [c]; issued := issued s ++ [c] |}
    end.
Proof.
  intros Hb Hq. unfold worker_run. rewrite Hb, (shift_next_truthy _ Hq).
  destruct (decadesQueue bt) as [|decade q]; unfold with_batch; simpl.
  - by rewrite (alter_insert _ _ _ _ Hb).
  - rewrite (alter_insert _ _ _ _ Hb).
    erewrite alter_insert by (apply list_lookup_insert_eq; by eapply lookup_lt_Some).
    by rewrite list_insert_insert_eq.
Qed.

Lemma wf_with_app f s : wf s → wf (with_app f s).
Proof. intros [? ? ? ? ? ? ? ? ?]. by constructor. Qed.

Ltac batch_lookup H b' b Hb :=
  destruct (decide (b' = b)) as [->|?];
  [ rewrite list_lookup_insert_eq in H by (by eapply lookup_lt_Some); simplify_eq/=
  | rewrite list_lookup_insert_ne in H by done ].

(** A ready worker of a well-formed system takes the head of the queue. *)
Lemma wf_worker_calls s b w bt decade q :
  wf s → batches s !! b = Some bt → workers bt !! w = Some Ready →
  decadesQueue bt = decade :: q →
  wf {| app := app s;
        batches := <[b := {| decadesQueue := q;
                             workers := <[w := Awaiting (length (issued s))]> (workers bt);
                             source := source bt; resolved := resolved bt |}]> (batches s);
        inflight := inflight s ++ [new_call s (source bt) decade (ProcessDecade b w)];
        issued := issued s ++ [new_call s (source bt) decade (ProcessDecade b w)] |}.
Proof.
  intros Hwf Hb Hw Hq.
  assert (Hwlt : w < length (workers bt)) by (by eapply lookup_lt_Some).
  constructor; simpl.
  - rewrite fmap_app. apply NoDup_app. split_and!; [by apply wf_ids | | apply NoDup_singleton].
    intros x (c & -> & Hc)%list_elem_of_fmap ?%list_elem_of_singleton. simpl in *.
    apply (wf_fresh s Hwf) in Hc. lia.
  - intros c [Hc| ->%list_elem_of_singleton]%elem_of_app; rewrite length_app; simpl; [|lia].
    apply (wf_fresh s Hwf) in Hc. lia.
  - intros c b' w' [Hc| ->%list_elem_of_singleton]%elem_of_app Hk.
    + destruct (wf_await s Hwf c b' w' Hc Hk) as (bt0 & Hb0 & Hw0).
      destruct (decide (b' = b)) as [->|?].
      * simplify_eq. eexists. split; [by apply list_lookup_insert_eq; eapply lookup_lt_Some|].
        simpl. destruct (decide (w' = w)) as [->|?]; [by rewrite Hw in Hw0|].
        by rewrite list_lookup_insert_ne.
      * exists bt0. by rewrite list_lookup_insert_ne.
    + simpl in Hk. simplify_eq. eexists. split; [by apply list_lookup_insert_eq; eapply lookup_lt_Some|].
      simpl. by apply list_lookup_insert_eq.
  - intros b' bt' w' id H Hw'. batch_lookup H b' b Hb.
    + destruct (decide (w' = w)) as [->|?].
      * rewrite list_lookup_insert_eq in Hw' by done. injection Hw' as <-.
        eexists. split; [apply elem_of_app; right; by left|done].
      * rewrite list_lookup_insert_ne in Hw' by done.
        destruct (wf_pending s Hwf b bt w' id Hb Hw') as (c & Hc & Hid & Hk).
        exists c. split; [apply elem_of_app; by left|done].
    + destruct (wf_pending s Hwf b' bt' w' id H Hw') as (c & Hc & Hid & Hk).
      exists c. split; [apply elem_of_app; by left|done].
  - intros b' bt' H. batch_lookup H b' b Hb; [|by eapply wf_pool].
    rewrite length_insert. by eapply wf_pool.
  - intros b' bt' H. unfold issued_by. simpl. rewrite filter_app, fmap_app.
    batch_lookup H b' b Hb.
    + rewrite filter_cons_True by done. simpl. rewrite <- app_assoc. simpl.
      rewrite <- Hq. by apply (wf_fifo s Hwf).
    + rewrite filter_cons_False by (unfold batch_of; simpl; naive_solver). rewrite filter_nil, app_nil_r.
      by apply (wf_fifo s Hwf).
  - intros b' bt' w' H Hw'. batch_lookup H b' b Hb; [|by eapply wf_drained].
    destruct (decide (w' = w)) as [->|?].
    + rewrite list_lookup_insert_eq in Hw' by done. discriminate.
    + rewrite list_lookup_insert_ne in Hw' by done.
      pose proof (wf_drained s Hwf b bt w' Hb Hw'). congruence.
  - intros b' bt' w' H Hres Hlt. batch_lookup H b' b Hb; [|by eapply wf_resolved].
    assert (w < concurrencyLimit) by (by rewrite <- (wf_pool s Hwf b bt Hb)).
    pose proof (wf_resolved s Hwf b bt w Hb Hres). naive_solver.
  - intros c b' w' [Hc| ->%list_elem_of_singleton]%elem_of_app Hk; rewrite length_insert.
    + by eapply wf_owner.
    + simpl in Hk. injection Hk as <- <-. split; [by eapply lookup_lt_Some|].
      by rewrite <- (wf_pool s Hwf b bt Hb).
Qed.

(** A ready worker of a well-formed system returns when the queue is
    empty. *)
Lemma wf_worker_returns s b w bt :
  wf s → batches s !! b = Some bt → workers bt !! w = Some Ready →
  decadesQueue bt = [] →
  wf {| app := app s;
        batches := <[b := {| decadesQueue := []; workers := <[w := Finished]> (workers bt);
                             source := source bt; resolved := resolved bt |}]> (batches s);
        inflight := inflight s; issued := issued s |}.
Proof.
  intros Hwf Hb Hw Hq.
  assert (Hwlt : w < length (workers bt)) by (by eapply lookup_lt_Some).
  constructor; simpl.
  - by apply wf_ids.
  - by apply wf_fresh.
  - intros c b' w' Hc Hk.
    destruct (wf_await s Hwf c b' w' Hc Hk) as (bt0 & Hb0 & Hw0).
    destruct (decide (b' = b)) as [->|?].
    + simplify_eq. eexists. split; [by apply list_lookup_insert_eq; eapply lookup_lt_Some|].
      simpl. destruct (decide (w' = w)) as [->|?]; [by rewrite Hw in Hw0|].
      by rewrite list_lookup_insert_ne.
    + exists bt0. by rewrite list_lookup_insert_ne.
  - intros b' bt' w' id H Hw'. batch_lookup H b' b Hb; [|by eapply wf_pending].
    destruct (decide (w' = w)) as [->|?].
    + rewrite list_lookup_insert_eq in Hw' by done. discriminate.
    + rewrite list_lookup_insert_ne in Hw' by done. by eapply wf_pending.
  - intros b' bt' H. batch_lookup H b' b Hb; [|by eapply wf_pool].
    rewrite length_insert. by eapply wf_pool.
  - intros b' bt' H. batch_lookup H b' b Hb; [|by apply (wf_fifo s Hwf)].
    rewrite <- Hq. by apply (wf_fifo s Hwf).
  - intros b' bt' w' H Hw'. batch_lookup H b' b Hb; [done|by eapply wf_drained].
  - intros b' bt' w' H Hres Hlt. batch_lookup H b' b Hb; [|by eapply wf_resolved].
    assert (w < concurrencyLimit) by (by rewrite <- (wf_pool s Hwf b bt Hb)).
    pose proof (wf_resolved s Hwf b bt w Hb Hres). naive_solver.
  - intros c b' w' Hc Hk. rewrite length_insert. by eapply wf_owner.
Qed.

Lemma wf_worker_run s b w bt :
  wf s → batches s !! b = Some bt → workers bt !! w = Some Ready →
  wf (worker_run b w s).
Proof.
  intros Hwf Hb Hw.
  rewrite (worker_run_eq s b w bt Hb) by (by eapply wf_queue_truthy).
  destruct (decadesQueue bt) as [|decade q] eqn:Hq.
  - by apply wf_worker_returns.
  - by apply wf_worker_calls.
Qed.

Lemma wf_init : wf init.
Proof.
  constructor; simpl; try done.
  - constructor.
  - intros c ?%elem_of_nil. done.
  - intros c b w ?%elem_of_nil. done.
  - intros c b w ?%elem_of_nil. done.
Qed.

Lemma find_call_Some id l c : find_call id l = Some c → c ∈ l ∧ call_id c = id.
Proof.
  unfold find_call. intros [Hin Heq]%find_some. split.
  - by apply list_elem_of_In.
  - by apply Nat.eqb_eq.
Qed.

Lemma find_call_None id l c : find_call id l = None → c ∈ l → call_id c ≠ id.
Proof.
  unfold find_call. intros Hnone Hin%list_elem_of_In Heq.
  pose proof (find_none _ _ Hnone c Hin) as H. simpl in H.
  apply Nat.eqb_neq in H. done.
Qed.

Lemma wf_regenerate_call a s image decade :
  wf s →
  wf {| app := a; batches := batches s;
        inflight := inflight s ++ [new_call s image decade Regenerate];
        issued := issued s ++ [new_call s image decade Regenerate] |}.
Proof.
  intros Hwf. constructor; simpl.
  - rewrite fmap_app. apply NoDup_app. split_and!; [by apply wf_ids | | apply NoDup_singleton].
    intros x (c & -> & Hc)%list_elem_of_fmap ?%list_elem_of_singleton. simpl in *.
    apply (wf_fresh s Hwf) in Hc. lia.
  - intros c [Hc| ->%list_elem_of_singleton]%elem_of_app; rewrite length_app; simpl; [|lia].
    apply (wf_fresh s Hwf) in Hc. lia.
  - intros c b w [Hc| ->%list_elem_of_singleton]%elem_of_app Hk; [|done].
    by apply (wf_await s Hwf).
  - intros b bt w id Hb Hw. destruct (wf_pending s Hwf b bt w id Hb Hw) as (c & Hc & Hid & Hk).
    exists c. split; [apply elem_of_app; by left|done].
  - by apply wf_pool.
  - intros b bt Hb. unfold issued_by. simpl. rewrite filter_app.
    rewrite filter_cons_False by (unfold batch_of; simpl; naive_solver).
    rewrite filter_nil, app_nil_r. by apply (wf_fifo s Hwf).
  - by apply wf_drained.
  - by apply wf_resolved.
  - intros c b w [Hc| ->%list_elem_of_singleton]%elem_of_app Hk; [|done].
    by eapply wf_owner.
Qed.

Lemma wf_handleRegenerateDecade decade s : wf s → wf (handleRegenerateDecade decade s).
Proof.
  intros Hwf. unfold handleRegenerateDecade.
  destruct (uploadedImage (app s)) as [image|]; [|done].
  destruct (truthy image); [|done].
  destruct (status_of decade (generatedImages (app s))) as [[]|]; try done;
    apply (wf_regenerate_call _ s image decade Hwf).
Qed.

Lemma inflight_id_inj s c1 c2 :
  wf s → c1 ∈ inflight s → c2 ∈ inflight s → call_id c1 = call_id c2 → c1 = c2.
Proof.
  intros Hwf [i1 Hi1]%list_elem_of_lookup [i2 Hi2]%list_elem_of_lookup Hid.
  assert (i1 = i2); [|congruence].
  eapply (NoDup_lookup _ _ _ _ (wf_ids s Hwf)); rewrite list_lookup_fmap.
  - by rewrite Hi1.
  - rewrite Hi2. simpl. by rewrite Hid.
Qed.

Lemma remove_call_ids id l :
  NoDup (call_id <$> l) → NoDup (call_id <$> remove_call id l).
Proof.
  intros Hnd. eapply sublist_NoDup; [done|].
  apply fmap_sublist. apply sublist_filter.
Qed.

Lemma wf_settle s id c r :
  wf s → find_call id (inflight s) = Some c →
  wf (resume_call c r {| app := app s; batches := batches s;
                         inflight := remove_call id (inflight s); issued := issued s |}).
Proof.
  intros Hwf [Hc Hid]%find_call_Some. unfold resume_call.
  destruct (call_cont c) as [b w|] eqn:Hk.
  - destruct (wf_await s Hwf c b w Hc Hk) as (bt & Hb & Hw).
    unfold with_batch. simpl. rewrite (alter_insert _ _ _ _ Hb).
    assert (Hwlt : w < length (workers bt)) by (by eapply lookup_lt_Some).
    constructor; simpl.
    + apply remove_call_ids, Hwf.
    + intros c' [_ Hc']%list_elem_of_filter. by apply (wf_fresh s Hwf).
    + intros c' b' w' [Hne Hc']%list_elem_of_filter Hk'.
      destruct (wf_await s Hwf c' b' w' Hc' Hk') as (bt0 & Hb0 & Hw0).
      destruct (decide (b' = b)) as [->|?].
      * simplify_eq. eexists. split; [by apply list_lookup_insert_eq; eapply lookup_lt_Some|].
        simpl. destruct (decide (w' = w)) as [->|?].
        -- rewrite Hw in Hw0. injection Hw0 as Heq. congruence.
        -- by rewrite list_lookup_insert_ne.
      * exists bt0. by rewrite list_lookup_insert_ne.
    + intros b' bt' w' id' H Hw'.
      assert (Hold : ∃ bt0, batches s !! b' = Some bt0 ∧ workers bt0 !! w' = Some (Awaiting id')
                            ∧ (b', w') ≠ (b, w)).
      { batch_lookup H b' b Hb.
        - destruct (decide (w' = w)) as [->|?].
          + rewrite list_lookup_insert_eq in Hw' by done. discriminate.
          + rewrite list_lookup_insert_ne in Hw' by done. exists bt. split_and!; [done..|congruence].
        - exists bt'. split_and!; [done..|congruence]. }
      destruct Hold as (bt0 & Hb0 & Hw0 & Hne).
      destruct (wf_pending s Hwf b' bt0 w' id' Hb0 Hw0) as (c' & Hc' & Hid' & Hk').
      exists c'. split_and!; [|done..]. apply list_elem_of_filter. split; [|done].
      intros Heq. apply Hne. assert (c' = c) as ->; [|congruence].
      apply (inflight_id_inj s); [done..|congruence].
    + intros b' bt' H. batch_lookup H b' b Hb; [|by eapply wf_pool].
      rewrite length_insert. by eapply wf_pool.
    + intros b' bt' H. batch_lookup H b' b Hb; by apply (wf_fifo s Hwf).
    + intros b' bt' w' H Hw'. batch_lookup H b' b Hb; [|by eapply wf_drained].
      destruct (decide (w' = w)) as [->|?].
      * rewrite list_lookup_insert_eq in Hw' by done. discriminate.
      * rewrite list_lookup_insert_ne in Hw' by done. by eapply wf_drained.
    + intros b' bt' w' H Hres Hlt. batch_lookup H b' b Hb; [|by eapply wf_resolved].
      assert (w < concurrencyLimit) by (by rewrite <- (wf_pool s Hwf b bt Hb)).
      pose proof (wf_resolved s Hwf b bt w Hb Hres). naive_solver.
    + intros c' b' w' Hc' Hk'. rewrite length_insert. by eapply wf_owner.
  - apply wf_with_app. constructor; simpl.
    + apply remove_call_ids, Hwf.
    + intros c' [_ Hc']%list_elem_of_filter. by apply (wf_fresh s Hwf).
    + intros c' b' w' [Hne Hc']%list_elem_of_filter Hk'. by apply (wf_await s Hwf).
    + intros b' bt' w' id' Hb' Hw'.
      destruct (wf_pending s Hwf b' bt' w' id' Hb' Hw') as (c' & Hc' & Hid' & Hk').
      exists c'. split_and!; [|done..]. apply list_elem_of_filter. split; [|done].
      intros Heq. assert (c' = c) as ->; [|congruence].
      apply (inflight_id_inj s); [done..|congruence].
    + by apply wf_pool.
    + by apply (wf_fifo s Hwf).
    + by apply wf_drained.
    + by apply wf_resolved.
    + by apply wf_owner.
Qed.

Lemma wf_join s b bt :
  wf s → batches s !! b = Some bt → forallb is_finished (workers bt) = true →
  wf (join b s).
Proof.
  intros Hwf Hb Hfin. unfold join, with_batch. simpl.
  rewrite (alter_insert _ _ _ _ Hb).
  constructor; simpl.
  - by apply wf_ids.
  - by apply wf_fresh.
  - intros c b' w' Hc Hk.
    destruct (wf_await s Hwf c b' w' Hc Hk) as (bt0 & Hb0 & Hw0).
    destruct (decide (b' = b)) as [->|?].
    + simplify_eq. eexists. split; [by apply list_lookup_insert_eq; eapply lookup_lt_Some|]. done.
    + exists bt0. by rewrite list_lookup_insert_ne.
  - intros b' bt' w' id H Hw'. batch_lookup H b' b Hb; by eapply wf_pending.
  - intros b' bt' H. batch_lookup H b' b Hb; by eapply wf_pool.
  - intros b' bt' H. batch_lookup H b' b Hb; by apply (wf_fifo s Hwf).
  - intros b' bt' w' H Hw'. batch_lookup H b' b Hb; by eapply wf_drained.
  - intros b' bt' w' H Hres Hlt. batch_lookup H b' b Hb; [|by eapply wf_resolved].
    rewrite <- (wf_pool s Hwf b bt Hb) in Hlt.
    apply lookup_lt_is_Some in Hlt as [st Hst]. rewrite Hst. f_equal.
    apply Is_true_true, forallb_True in Hfin.
    rewrite Forall_lookup in Hfin. specialize (Hfin _ _ Hst). by destruct st.
  - intros c b' w' Hc Hk. rewrite length_insert. by eapply wf_owner.
Qed.

Lemma handleGenerateClick_eq s image :
  uploadedImage (app s) = Some image → truthy image = true →
  handleGenerateClick s =
    worker_run (length (batches s)) 1
      (worker_run (length (batches s)) 0 (batch_started image s)).
Proof.
  intros Hup Ht. unfold handleGenerateClick, batch_started.
  destruct (uploadedImage (app s)) as [image'|]; [|done].
  injection Hup as ->. rewrite Ht. reflexivity.
Qed.

Lemma wf_batch_started image s : wf s → wf (batch_started image s).
Proof.
  intros Hwf. constructor; simpl.
  - by apply wf_ids.
  - by apply wf_fresh.
  - intros c b w Hc Hk. destruct (wf_await s Hwf c b w Hc Hk) as (bt & Hb & Hw).
    exists bt. split; [|done]. rewrite lookup_app_l; [done|by eapply lookup_lt_Some].
  - intros b bt w id [Hb|[_ Hb]]%lookup_app_Some Hw; [by eapply wf_pending|].
    apply list_lookup_singleton_Some in Hb as [_ <-]. simpl in Hw. by destruct w as [|[|w]].
  - intros b bt [Hb|[_ Hb]]%lookup_app_Some; [by eapply wf_pool|].
    apply list_lookup_singleton_Some in Hb as [_ <-]. done.
  - intros b bt [Hb|[Hlen Hb]]%lookup_app_Some; [by apply (wf_fifo s Hwf)|].
    apply list_lookup_singleton_Some in Hb as [Hb0 <-]. simpl.
    assert (issued_by b (batch_started image s) = []) as ->; [|done].
    unfold issued_by. apply elem_of_nil_inv. intros c [Hc' Hc]%list_elem_of_filter.
    unfold batch_of in Hc'. destruct (call_cont c) as [b' w'|] eqn:Hk; [|done].
    injection Hc' as ->. destruct (wf_owner s Hwf c b w' Hc Hk). lia.
  - intros b bt w [Hb|[Hlen Hb]]%lookup_app_Some Hw; [by eapply wf_drained|].
    apply list_lookup_singleton_Some in Hb as [Hb0 <-]. simpl in Hw.
    by destruct w as [|[|w]].
  - intros b bt w [Hb|[Hlen Hb]]%lookup_app_Some Hres; [by eapply wf_resolved|].
    apply list_lookup_singleton_Some in Hb as [Hb0 <-]. done.
  - intros c b w Hc Hk. rewrite length_app. simpl.
    destruct (wf_owner s Hwf c b w Hc Hk). lia.
Qed.

Lemma batch_started_lookup image s :
  batches (batch_started image s) !! length (batches s) =
    Some {| decadesQueue := DECADES; workers := replicate concurrencyLimit Ready;
            source := image; resolved := false |}.
Proof. simpl. by rewrite list_lookup_middle. Qed.

(** After its synchronous part, a batch has both workers suspended on
    the first two decades. *)
Lemma handleGenerateClick_started s image :
  uploadedImage (app s) = Some image → truthy image = true →
  let b := length (batches s) in
  let c0 := {| call_id := length (issued s); call_decade := "1950s"; call_image := image;
               call_prompt := prompt "1950s"; call_cont := ProcessDecade b 0 |} in
  let c1 := {| call_id := S (length (issued s)); call_decade := "1960s"; call_image := image;
               call_prompt := prompt "1960s"; call_cont := ProcessDecade b 1 |} in
  handleGenerateClick s =
    {| app := {| uploadedImage := Some image;
                 generatedImages := initialImages;
                 customCaptions := customCaptions (app s);
                 isLoading := true;
                 appState := generating |};
       batches := batches s ++
         [{| decadesQueue := ["1970s"; "1980s"; "1990s"; "2000s"];
             workers := [Awaiting (length (issued s)); Awaiting (S (length (issued s)))];
             source := image; resolved := false |}];
       inflight := inflight s ++ [c0; c1];
       issued := issued s ++ [c0; c1] |}.
Proof.
  intros Hup Ht b c0 c1. rewrite (handleGenerateClick_eq s image Hup Ht).
  fold b. pose proof (batch_started_lookup image s) as Hb. fold b in Hb.
  rewrite (worker_run_eq _ b 0 _ Hb DECADES_truthy). simpl. rewrite <- Hup.
  set (s1 := {| app := _; batches := _; inflight := _; issued := _ |}).
  assert (Hb1 : batches s1 !! b =
    Some {| decadesQueue := ["1960s"; "1970s"; "1980s"; "1990s"; "2000s"];
            workers := [Awaiting (length (issued s)); Ready];
            source := image; resolved := false |}).
  { subst s1. simpl. apply list_lookup_insert_eq. rewrite length_app. simpl. subst b. lia. }
  rewrite (worker_run_eq _ b 1 _ Hb1) by (simpl; repeat constructor).
  subst s1. simpl. rewrite list_insert_insert_eq.
  unfold new_call. simpl. rewrite length_app. simpl.
  replace (length (issued s) + 1) with (S (length (issued s))) by lia.
  rewrite <- !app_assoc. simpl. f_equal.
  subst b. rewrite insert_app_r_alt by done. by rewrite Nat.sub_diag.
Qed.

Lemma first_worker_lookup s image :
  batches (worker_run (length (batches s)) 0 (batch_started image s)) !! length (batches s) =
    Some {| decadesQueue := ["1960s"; "1970s"; "1980s"; "1990s"; "2000s"];
            workers := [Awaiting (length (issued s)); Ready];
            source := image; resolved := false |}.
Proof.
  rewrite (worker_run_eq _ _ 0 _ (batch_started_lookup image s) DECADES_truthy). simpl.
  apply list_lookup_insert_eq. rewrite length_app. simpl. lia.
Qed.

Lemma wf_handleGenerateClick s : wf s → wf (handleGenerateClick s).
Proof.
  intros Hwf. destruct (truthy_opt (uploadedImage (app s))) eqn:Hup.
  - unfold truthy_opt in Hup. destruct (uploadedImage (app s)) as [image|] eqn:Himg; [|done].
    rewrite (handleGenerateClick_eq s image Himg Hup).
    eapply wf_worker_run; [|apply first_worker_lookup|done].
    eapply wf_worker_run; [by apply wf_batch_started|apply batch_started_lookup|done].
  - by rewrite handleGenerateClick_idle.
Qed.

Lemma wf_step ev s s' : wf s → step ev s = Some s' → wf s'.
Proof.
  intros Hwf. destruct ev as [result| |decade|decade c| |id r|b w|b]; simpl.
  - intros [= <-]. by apply wf_with_app.
  - intros [= <-]. by apply wf_handleGenerateClick.
  - intros [= <-]. by apply wf_handleRegenerateDecade.
  - intros [= <-]. by apply wf_with_app.
  - intros [= <-]. by apply wf_with_app.
  - destruct (find_call id (inflight s)) as [c|] eqn:Hc; [|done]. intros [= <-].
    by apply wf_settle.
  - destruct (batches s !! b) as [bt|] eqn:Hb; simpl; [|done].
    destruct (workers bt !! w) as [[]|] eqn:Hw; try done. intros [= <-].
    by eapply wf_worker_run.
  - destruct (batches s !! b) as [bt|] eqn:Hb; [|done].
    destruct (forallb is_finished (workers bt)) eqn:Hfin; simpl; [|done].
    destruct (negb (resolved bt)); [|done]. intros [= <-]. by eapply wf_join.
Qed.

Lemma wf_run tr s s' : wf s → run tr s = Some s' → wf s'.
Proof. apply (run_ind_all wf). intros ev s1 s2 H1 H2. by eapply wf_step. Qed.

(** ** Worker pool: the bound on pending calls *)

Lemma inflight_of_bound s b : wf s → length (inflight_of b s) ≤ concurrencyLimit.
Proof.
  intros Hwf.
  assert (Hnd : NoDup (worker_of <$> inflight_of b s)).
  { apply NoDup_fmap_2_strong.
    - intros c1 c2 [Hb1 Hc1]%list_elem_of_filter [Hb2 Hc2]%list_elem_of_filter Hw.
      unfold batch_of, worker_of in *.
      destruct (call_cont c1) as [b1 w1|] eqn:Hk1; [|done].
      destruct (call_cont c2) as [b2 w2|] eqn:Hk2; [|done].
      simplify_eq.
      destruct (wf_await s Hwf c1 b w2 Hc1 Hk1) as (bt1 & Hbt1 & Hw1).
      destruct (wf_await s Hwf c2 b w2 Hc2 Hk2) as (bt2 & Hbt2 & Hw2).
      simplify_eq.
      assert (Hid : call_id c1 = call_id c2) by congruence.
      apply list_elem_of_lookup in Hc1 as [i1 Hi1]. apply list_elem_of_lookup in Hc2 as [i2 Hi2].
      assert (i1 = i2).
      { eapply (NoDup_lookup _ _ _ _ (wf_ids s Hwf)); rewrite list_lookup_fmap.
        - by rewrite Hi1.
        - rewrite Hi2. simpl. by rewrite Hid. }
      congruence.
    - apply NoDup_filter. eapply NoDup_fmap_1, (wf_ids s Hwf). }
  rewrite <- (length_fmap worker_of).
  transitivity (length (seq 0 concurrencyLimit)); [|by rewrite length_seq].
  apply submseteq_length, NoDup_submseteq; [done|].
  intros w (c & -> & [Hb Hc]%list_elem_of_filter)%list_elem_of_fmap.
  unfold batch_of, worker_of in *.
  destruct (call_cont c) as [b1 w1|] eqn:Hk1; [|done]. simplify_eq.
  destruct (wf_await s Hwf c b w1 Hc Hk1) as (bt1 & Hbt1 & Hw1).
  apply elem_of_seq. rewrite <- (wf_pool s Hwf b bt1 Hbt1).
  apply lookup_lt_Some in Hw1. lia.
Qed.

(** ** A batch run *)

Lemma status_of_settled decade decade' r o :
  status_of decade (settled decade' r o) =
    if decide (decade' = decade)
    then Some (match r with Resolved _ => Done | Rejected _ => Error end)
    else status_of decade o.
Proof.
  unfold status_of. case_decide as Hd.
  - subst. destruct r; simpl; by rewrite get_set_eq.
  - destruct r; simpl; by rewrite get_set_ne.
Qed.

Lemma resume_call_batches c r s b :
  decadesQueue <$> batches (resume_call c r s) !! b = decadesQueue <$> batches s !! b.
Proof.
  unfold resume_call. destruct (call_cont c) as [b' w'|]; simpl; [|done].
  rewrite list_lookup_alter. case_decide; [subst|done].
  by destruct (batches s !! b).
Qed.

Lemma accounted_step b ev s s' decade :
  wf s → undisturbed ev → step ev s = Some s' →
  accounted b s decade → accounted b s' decade.
Proof.
  intros Hwf Hev. destruct ev as [result| |d|d c| |id r|b' w|b']; simpl in *; try done.
  - intros [= <-]. done.
  - destruct (find_call id (inflight s)) as [c|] eqn:Hfind; [|done]. intros [= <-].
    apply find_call_Some in Hfind as [Hc Hid].
    set (s0 := {| app := app s; batches := batches s;
                  inflight := remove_call id (inflight s); issued := issued s |}).
    assert (Himg : images (resume_call c r s0) = settled (call_decade c) r (images s)).
    { unfold resume_call, images. by destruct (call_cont c). }
    assert (Hinf : inflight (resume_call c r s0) = remove_call id (inflight s)).
    { unfold resume_call. by destruct (call_cont c). }
    intros [(bt & Hb & Hin)|[(c' & Hc' & Hown & Hdec)|Hst]].
    + left. pose proof (resume_call_batches c r s0 b) as Hq. simpl in Hq.
      rewrite Hb in Hq. simpl in Hq.
      destruct (batches (resume_call c r s0) !! b) as [bt'|]; [|done].
      exists bt'. split; [done|]. simpl in Hq. by injection Hq as ->.
    + destruct (decide (call_id c' = id)) as [Heq|Hne].
      * right. right. rewrite <- Hid in Heq.
        rewrite (inflight_id_inj s c' c Hwf Hc' Hc Heq) in Hdec.
        rewrite Himg, status_of_settled, Hdec, decide_True by done.
        destruct r; auto.
      * right. left. exists c'. rewrite Hinf. split_and!; [|done..].
        apply list_elem_of_filter. done.
    + right. right. rewrite Himg, status_of_settled. case_decide; [|done].
      destruct r; auto.
  - destruct (batches s !! b') as [bt'|] eqn:Hb'; simpl; [|done].
    destruct (workers bt' !! w) as [[]|] eqn:Hw; try done. intros [= <-].
    rewrite (worker_run_eq s b' w bt' Hb') by (by eapply wf_queue_truthy).
    assert (b' < length (batches s)) by (by eapply lookup_lt_Some).
    intros [(bt & Hb & Hin)|[(c' & Hc' & Hown & Hdec)|Hst]].
    + destruct (decide (b' = b)) as [->|Hne].
      * rewrite Hb in Hb'. injection Hb' as <-. destruct (decadesQueue bt) as [|d0 q] eqn:Hq.
        { by apply elem_of_nil in Hin. }
        apply elem_of_cons in Hin as [->|Hin].
        -- right. left. eexists. simpl. split; [apply elem_of_app; right; by left|done].
        -- left. eexists. simpl. split; [by apply list_lookup_insert_eq|done].
      * left. exists bt. split; [|done].
        destruct (decadesQueue bt'); simpl; by rewrite list_lookup_insert_ne.
    + right. left. exists c'. split; [|done].
      destruct (decadesQueue bt'); simpl; [done|]. apply elem_of_app. by left.
    + right. right. by destruct (decadesQueue bt').
  - destruct (batches s !! b') as [bt'|] eqn:Hb'; [|done].
    destruct (forallb is_finished (workers bt') && negb (resolved bt')); [|done].
    intros [= <-].
    intros [(bt & Hb & Hin)|[(c' & Hc' & Hown & Hdec)|Hst]].
    + left. unfold join, with_batch. simpl. rewrite list_lookup_alter.
      case_decide; [subst|by eauto]. rewrite Hb. simpl. eexists. split; [done|]. simpl.
      by simplify_eq.
    + right. left. by exists c'.
    + by right; right.
Qed.

Lemma accounted_started s image decade :
  uploadedImage (app s) = Some image → truthy image = true →
  decade ∈ DECADES → accounted (length (batches s)) (handleGenerateClick s) decade.
Proof.
  intros Hup Ht Hd. rewrite (handleGenerateClick_started s image Hup Ht).
  unfold DECADES in Hd. apply elem_of_cons in Hd as [->|Hd].
  { right. left. eexists. simpl. split; [apply elem_of_app; right; by left|done]. }
  apply elem_of_cons in Hd as [->|Hd].
  { right. left. eexists. simpl. split; [apply elem_of_app; right; right; by left|done]. }
  left. eexists. simpl. split; [by apply list_lookup_middle|done].
Qed.

Lemma accounted_resolved b s bt decade :
  wf s → batches s !! b = Some bt → resolved bt = true →
  accounted b s decade →
  status_of decade (images s) = Some Done ∨ status_of decade (images s) = Some Error.
Proof.
  intros Hwf Hb Hres.
  assert (Hfin : ∀ w, w < concurrencyLimit → workers bt !! w = Some Finished).
  { intros w Hw. by eapply wf_resolved. }
  intros [(bt' & Hb' & Hin)|[(c & Hc & Hown & Hdec)|Hst]]; [| |done].
  - simplify_eq. rewrite (wf_drained s Hwf b bt 0 Hb) in Hin.
    + by apply elem_of_nil in Hin.
    + apply Hfin. unfold concurrencyLimit. lia.
  - unfold batch_of in Hown. destruct (call_cont c) as [b' w|] eqn:Hk; [|done].
    injection Hown as ->.
    destruct (wf_await s Hwf c b w Hc Hk) as (bt' & Hb' & Hw). simplify_eq.
    rewrite Hfin in Hw; [done|].
    rewrite <- (wf_pool s Hwf b bt Hb). by eapply lookup_lt_Some.
Qed.

Lemma reachable_wf s : reachable s → wf s.
Proof. intros [tr Htr]. by eapply wf_run; [apply wf_init|]. Qed.

Lemma worker_run_length b w s : length (batches (worker_run b w s)) = length (batches s).
Proof.
  unfold worker_run. destruct (batches s !! b) as [bt|]; [|done].
  destruct (shift_next (decadesQueue bt)) as [[decade|] q]; simpl; by rewrite !length_alter.
Qed.

Lemma step_batches_length ev s s' :
  step ev s = Some s' → length (batches s) ≤ length (batches s').
Proof.
  destruct ev as [result| |d|d c| |id r|b w|b]; simpl.
  - by intros [= <-].
  - intros [= <-]. unfold handleGenerateClick.
    destruct (uploadedImage (app s)) as [image|]; [|done].
    destruct (truthy image); [|done]. simpl.
    rewrite !worker_run_length. simpl. rewrite length_app. lia.
  - intros [= <-]. unfold handleRegenerateDecade.
    destruct (uploadedImage (app s)) as [image|]; [|done].
    destruct (truthy image); [|done].
    by destruct (status_of d (generatedImages (app s))) as [[]|].
  - by intros [= <-].
  - by intros [= <-].
  - destruct (find_call id (inflight s)) as [c|]; [|done]. intros [= <-].
    unfold resume_call. destruct (call_cont c); simpl; by rewrite ?length_alter.
  - destruct (batches s !! b ≫= _) as [[]|]; try done. intros [= <-].
    by rewrite worker_run_length.
  - destruct (batches s !! b) as [bt|]; [|done].
    destruct (forallb _ _ && _); [|done]. intros [= <-]. simpl. by rewrite length_alter.
Qed.

Lemma run_batches_length tr s s' :
  run tr s = Some s' → length (batches s) ≤ length (batches s').
Proof.
  revert s. induction tr as [|ev tr IH]; intros s; simpl.
  - by intros [= <-].
  - destruct (step ev s) as [s1|] eqn:Hev; [|done]. intros Hrun.
    apply step_batches_length in Hev. apply IH in Hrun. lia.
Qed.

Lemma handleGenerateClick_batches_length s :
  truthy_opt (uploadedImage (app s)) = true →
  length (batches (handleGenerateClick s)) = S (length (batches s)).
Proof.
  unfold truthy_opt. destruct (uploadedImage (app s)) as [image|] eqn:Hup; [|done].
  intros Ht. rewrite (handleGenerateClick_started s image Hup Ht). simpl.
  rewrite length_app. simpl. lia.
Qed.

(** The batch started from [s0] is still there after any run. *)
Lemma started_batch_lookup s0 tr s :
  truthy_opt (uploadedImage (app s0)) = true →
  run tr (handleGenerateClick s0) = Some s →
  is_Some (batches s !! length (batches s0)).
Proof.
  intros Hup Hrun. apply lookup_lt_is_Some.
  apply run_batches_length in Hrun.
  rewrite handleGenerateClick_batches_length in Hrun by done. lia.
Qed.

(** *** Calls of other origin *)

Lemma only_batch_started s image :
  uploadedImage (app s) = Some image → truthy image = true →
  quiescent s → only_batch (length (batches s)) (handleGenerateClick s).
Proof.
  intros Hup Ht [Hinf Hfin]. rewrite (handleGenerateClick_started s image Hup Ht).
  split; simpl.
  - rewrite Hinf. simpl. intros c [->|[->|?%elem_of_nil]%elem_of_cons]%elem_of_cons; done.
  - intros b' bt w st Hne [Hb|[Hlen Hb]]%lookup_app_Some Hw; [by eapply Hfin|].
    apply list_lookup_singleton_Some in Hb as [Hb _]. lia.
Qed.

Lemma only_batch_step b ev s s' :
  undisturbed ev → step ev s = Some s' → only_batch b s → only_batch b s'.
Proof.
  intros Hev Hstep [Hown Hfin].
  destruct ev as [result| |d|d c| |id r|b' w|b']; simpl in *; try done.
  - by injection Hstep as <-.
  - destruct (find_call id (inflight s)) as [c|] eqn:Hfind; [|done]. injection Hstep as <-.
    apply find_call_Some in Hfind as [Hc Hid]. pose proof (Hown c Hc) as Hcb.
    unfold resume_call, batch_of in *. destruct (call_cont c) as [b0 w0|]; [|done].
    injection Hcb as ->. split; simpl.
    + intros c' [_ Hc']%list_elem_of_filter. by apply Hown.
    + intros b' bt w st Hne Hb Hw. rewrite list_lookup_alter_ne in Hb by done. by eapply Hfin.
  - destruct (batches s !! b') as [bt'|] eqn:Hb'; simpl in Hstep; [|done].
    destruct (workers bt' !! w) as [[]|] eqn:Hw; try done. injection Hstep as <-.
    destruct (decide (b' = b)) as [->|Hne].
    2:{ by pose proof (Hfin b' bt' w Ready Hne Hb' Hw). }
    unfold worker_run. rewrite Hb'.
    destruct (shift_next (decadesQueue bt')) as [[decade|] q]; split; simpl.
    + intros c [Hc| ->%list_elem_of_singleton]%elem_of_app; [by apply Hown|done].
    + intros b' bt w' st Hne Hb Hw'. rewrite !list_lookup_alter_ne in Hb by done. by eapply Hfin.
    + done.
    + intros b' bt w' st Hne Hb Hw'. rewrite !list_lookup_alter_ne in Hb by done. by eapply Hfin.
  - destruct (batches s !! b') as [bt'|] eqn:Hb'; [|done].
    destruct (forallb is_finished (workers bt') && negb (resolved bt')); [|done].
    injection Hstep as <-. split; simpl; [done|].
    intros b0 bt w st Hne Hb Hw. rewrite list_lookup_alter in Hb.
    case_decide; [subst|by eapply Hfin].
    rewrite Hb' in Hb. simpl in Hb. injection Hb as <-. simpl in Hw. by eapply Hfin.
Qed.

Lemma only_batch_inflight b s : only_batch b s → inflight_of b s = inflight s.
Proof.
  intros [Hown _]. unfold inflight_of.
  induction (inflight s) as [|c l IH]; [done|].
  rewrite filter_cons_True by (apply Hown; left).
  f_equal. apply IH. intros c' Hc'. apply Hown. by right.
Qed.

(** *** Regenerations during a batch *)

Lemma worker_run_inflight b w s c : c ∈ inflight s → c ∈ inflight (worker_run b w s).
Proof.
  intros Hc. unfold worker_run. destruct (batches s !! b) as [bt|]; [|done].
  destruct (shift_next (decadesQueue bt)) as [[decade|] q]; simpl; [|done].
  apply elem_of_app. by left.
Qed.

Lemma regenerating_step b ev s s' decade :
  wf s → no_restart ev → step ev s = Some s' →
  accounted b s decade ∨ regenerating s decade →
  accounted b s' decade ∨ regenerating s' decade.
Proof.
  intros Hwf Hev Hstep.
  destruct ev as [result| |d|d cap| |id r|b' w|b']; simpl in Hev; try done.
  - simpl in Hstep. injection Hstep as <-. unfold handleRegenerateDecade.
    destruct (uploadedImage (app s)) as [image|]; [|done].
    destruct (truthy image); [|done].
    assert (Hcall : accounted b s decade ∨ regenerating s decade →
      let s1 := snd (generateDecadeImage image d Regenerate
                       (with_app (setGeneratedImages (JsObj.set d entry_pending)) s)) in
      accounted b s1 decade ∨ regenerating s1 decade).
    { intros Hold s1. destruct (decide (d = decade)) as [->|Hne].
      { right. eexists. split; [apply elem_of_app; right; by left|done]. }
      destruct Hold as [[(bt & Hb & Hin)|[(c & Hc & Hown & Hdec)|Hst]]|(c & Hc & Hk & Hdec)].
      - left. left. by exists bt.
      - left. right. left. exists c. split; [apply elem_of_app; by left|done].
      - left. right. right. unfold status_of, images in *. simpl.
        by rewrite get_set_ne.
      - right. exists c. split; [apply elem_of_app; by left|done]. }
    by destruct (status_of d (generatedImages (app s))) as [[]|].
  - intros [Hacc|(c & Hc & Hk & Hdec)];
      [left; by apply (accounted_step b (CaptionChange d cap) s)|].
    simpl in Hstep. injection Hstep as <-. right. by exists c.
  - intros [Hacc|(c & Hc & Hk & Hdec)];
      [left; by apply (accounted_step b (Settle id r) s)|].
    simpl in Hstep.
    destruct (find_call id (inflight s)) as [c0|] eqn:Hfind; [|done]. injection Hstep as <-.
    apply find_call_Some in Hfind as [Hc0 Hid].
    set (s0 := {| app := app s; batches := batches s;
                  inflight := remove_call id (inflight s); issued := issued s |}).
    assert (Himg : images (resume_call c0 r s0) = settled (call_decade c0) r (images s)).
    { unfold resume_call, images. by destruct (call_cont c0). }
    assert (Hinf : inflight (resume_call c0 r s0) = remove_call id (inflight s)).
    { unfold resume_call. by destruct (call_cont c0). }
    destruct (decide (call_id c = id)) as [Heq|Hne].
    + left. right. right. rewrite <- Hid in Heq.
      rewrite (inflight_id_inj s c c0 Hwf Hc Hc0 Heq) in Hdec.
      rewrite Himg, status_of_settled, Hdec, decide_True by done.
      destruct r; auto.
    + right. exists c. rewrite Hinf. split_and!; [|done..].
      by apply list_elem_of_filter.
  - intros [Hacc|(c & Hc & Hk & Hdec)];
      [left; by apply (accounted_step b (Resume b' w) s)|].
    simpl in Hstep.
    destruct (batches s !! b' ≫= _) as [[]|]; try done. injection Hstep as <-.
    right. exists c. split_and!; [|done..]. by apply worker_run_inflight.
  - intros [Hacc|(c & Hc & Hk & Hdec)];
      [left; by apply (accounted_step b (Join b') s)|].
    simpl in Hstep.
    destruct (batches s !! b') as [bt'|]; [|done].
    destruct (forallb _ _ && _); [|done]. injection Hstep as <-.
    right. by exists c.
Qed.

(** When decades are regenerated while the batch runs, the resolved batch
    leaves every decade Done or Error except those whose regeneration is
    still pending. *)
Theorem batch_with_regenerations s0 tr s :
  reachable s0 →
  truthy_opt (uploadedImage (app s0)) = true →
  Forall no_restart tr →
  run tr (handleGenerateClick s0) = Some s →
  resolved <$> batches s !! length (batches s0) = Some true →
  ∀ decade, decade ∈ DECADES →
    status_of decade (images s) = Some Done ∨ status_of decade (images s) = Some Error ∨
    regenerating s decade.
Proof.
  intros Hreach Hup Hok Hrun Hres decade Hd.
  set (b := length (batches s0)) in *.
  assert (Hinv : wf s ∧ ∀ d, d ∈ DECADES → accounted b s d ∨ regenerating s d).
  { apply (run_ind (λ s, wf s ∧ ∀ d, d ∈ DECADES → accounted b s d ∨ regenerating s d) no_restart)
      with (tr := tr) (s := handleGenerateClick s0); [|done| |done].
    - intros ev s1 s2 Hev [Hwf Hacc] Hstep. split; [by eapply wf_step|].
      intros d Hin. by eapply regenerating_step; [| | |apply Hacc].
    - split; [by apply wf_handleGenerateClick, reachable_wf|].
      unfold truthy_opt in Hup.
      destruct (uploadedImage (app s0)) as [image|] eqn:Himg; [|done].
      intros d Hin. left. by eapply accounted_started. }
  destruct Hinv as [Hwf Hacc].
  destruct (batches s !! b) as [bt|] eqn:Hb; [|done]. injection Hres as Hres.
  destruct (Hacc decade Hd) as [Ha|Hr]; [|by right; right].
  apply (accounted_resolved b s bt decade Hwf Hb Hres) in Ha. tauto.
Qed.

(** *** Progress *)

Lemma worker_cases (ws : list worker) :
  Forall (λ st, st = Finished) ws ∨
  ∃ w, ws !! w = Some Ready ∨ ∃ id, ws !! w = Some (Awaiting id).
Proof.
  induction ws as [|st ws IH]; [by left|].
  destruct st as [|id|].
  - right. exists 0. by left.
  - right. exists 0. right. by exists id.
  - destruct IH as [Hall|(w & Hw)].
    + left. by constructor.
    + right. by exists (S w).
Qed.

Lemma weight_insert (ws : list worker) w st st' :
  ws !! w = Some st →
  sum_list (weight <$> <[w := st']> ws) + weight st = sum_list (weight <$> ws) + weight st'.
Proof.
  revert w. induction ws as [|x ws IH]; intros [|w] Hw; simplify_eq/=; [lia|].
  specialize (IH w Hw). lia.
Qed.

Lemma find_call_elem_of id l c :
  c ∈ l → call_id c = id → is_Some (find_call id l).
Proof.
  intros Hin Hid. destruct (find_call id l) as [c'|] eqn:Hfind; [by eexists|].
  by destruct (find_call_None id l c Hfind Hin).
Qed.

(** An unresolved batch can always take a step, and every such step
    leaves it less to do. *)
Lemma batch_progress s b bt :
  wf s → batches s !! b = Some bt → resolved bt = false →
  ∃ ev s' bt', undisturbed ev ∧ step ev s = Some s' ∧
    batches s' !! b = Some bt' ∧ remaining bt' < remaining bt.
Proof.
  intros Hwf Hb Hres.
  assert (Hblt : b < length (batches s)) by (by eapply lookup_lt_Some).
  destruct (worker_cases (workers bt)) as [Hall|(w & [Hw|(id & Hw)])].
  - exists (Join b), (join b s), (set_resolved bt). split_and!; [done| | |].
    + simpl. rewrite Hb, Hres.
      assert (forallb is_finished (workers bt) = true) as ->; [|done].
      apply forallb_forall. intros st Hst%list_elem_of_In.
      rewrite Forall_forall in Hall. by rewrite (Hall st Hst).
    + unfold join, with_batch. simpl. rewrite list_lookup_alter_eq, Hb. done.
    + unfold remaining. simpl. rewrite Hres. lia.
  - exists (Resume b w), (worker_run b w s).
    assert (Hwlt : w < length (workers bt)) by (by eapply lookup_lt_Some).
    rewrite (worker_run_eq s b w bt Hb) by (by eapply wf_queue_truthy).
    destruct (decadesQueue bt) as [|decade q] eqn:Hq.
    + eexists. split_and!; [done| | |].
      * simpl. rewrite Hb. simpl. rewrite Hw.
        rewrite (worker_run_eq s b w bt Hb) by (by eapply wf_queue_truthy). by rewrite Hq.
      * simpl. by apply list_lookup_insert_eq.
      * unfold remaining. simpl. rewrite Hq. simpl.
        pose proof (weight_insert (workers bt) w Ready Finished Hw). simpl in *. lia.
    + eexists. split_and!; [done| | |].
      * simpl. rewrite Hb. simpl. rewrite Hw.
        rewrite (worker_run_eq s b w bt Hb) by (by eapply wf_queue_truthy). by rewrite Hq.
      * simpl. by apply list_lookup_insert_eq.
      * unfold remaining. simpl. rewrite Hq. simpl.
        pose proof (weight_insert (workers bt) w Ready (Awaiting (length (issued s))) Hw).
        simpl in *. lia.
  - destruct (wf_pending s Hwf b bt w id Hb Hw) as (c & Hc & Hid & Hk).
    destruct (find_call_elem_of id (inflight s) c Hc Hid) as [c' Hfind].
    pose proof (find_call_Some _ _ _ Hfind) as [Hc' Hid'].
    assert (c' = c) as -> by (apply (inflight_id_inj s); [done..|congruence]).
    exists (Settle id (Resolved "data:image/png;base64,BBBB")). eexists. eexists.
    split_and!; [done| | |].
    + simpl. by rewrite Hfind.
    + unfold resume_call. rewrite Hk. unfold with_batch. simpl.
      rewrite list_lookup_alter_eq, Hb. done.
    + unfold remaining. simpl.
      pose proof (weight_insert (workers bt) w (Awaiting id) Ready Hw). simpl in *. lia.
Qed.

(** From any well-formed state a batch can be brought to resolution by
    settling its calls and resuming its workers. *)
Lemma batch_can_resolve s b bt :
  wf s → batches s !! b = Some bt →
  ∃ tr s', Forall undisturbed tr ∧ run tr s = Some s' ∧
    resolved <$> batches s' !! b = Some true.
Proof.
  remember (remaining bt) as n eqn:Hn.
  revert s bt Hn. induction (lt_wf n) as [n _ IH]. intros s bt -> Hwf Hb.
  destruct (resolved bt) eqn:Hres.
  - exists [], s. split_and!; [constructor|done|]. by rewrite Hb; simpl; rewrite Hres.
  - destruct (batch_progress s b bt Hwf Hb Hres) as (ev & s1 & bt1 & Hev & Hstep & Hb1 & Hlt).
    destruct (IH (remaining bt1) Hlt s1 bt1 eq_refl) as (tr & s' & Htr & Hrun & Hdone);
      [by eapply wf_step|done|].
    exists (ev :: tr), s'. split_and!; [by constructor| |done].
    simpl. by rewrite Hstep.
Qed.

(** Every run of a batch can be continued until the join resolves. *)
Theorem batch_run_can_complete s0 tr s :
  reachable s0 →
  truthy_opt (uploadedImage (app s0)) = true →
  run tr (handleGenerateClick s0) = Some s →
  ∃ tr' s', Forall undisturbed tr' ∧
    run (tr ++ tr') (handleGenerateClick s0) = Some s' ∧
    resolved <$> batches s' !! length (batches s0) = Some true.
Proof.
  intros Hreach Hup Hrun.
  assert (Hwf : wf s).
  { eapply wf_run; [|done]. by apply wf_handleGenerateClick, reachable_wf. }
  destruct (started_batch_lookup s0 tr s Hup Hrun) as [bt Hb].
  destruct (batch_can_resolve s _ bt Hwf Hb) as (tr' & s' & Htr' & Hrun' & Hres).
  exists tr', s'. split_and!; [done| |done].
  rewrite run_app, Hrun. done.
Qed.

(** ** The batch run: completion, concurrency bound, exclusive claiming *)

(** Start a batch in any reachable state with a photo uploaded, and let
    its calls settle, with any outcomes, and its workers resume, in any
    order, while the user starts no generation and discards nothing.
    Once the join over the workers has resolved, the queue is empty, no
    call of the batch is pending, and every decade of the catalog has an
    entry whose status is Done or Error. *)
Lemma undisturbed_batch_leaves_none_pending s0 tr s :
  reachable s0 →
  truthy_opt (uploadedImage (app s0)) = true →
  Forall undisturbed tr →
  run tr (handleGenerateClick s0) = Some s →
  resolved <$> batches s !! length (batches s0) = Some true →
  decadesQueue <$> batches s !! length (batches s0) = Some [] ∧
  inflight_of (length (batches s0)) s = [] ∧
  ∀ decade, decade ∈ DECADES →
    ∃ e, JsObj.get decade (images s) = Some e ∧ (status e = Done ∨ status e = Error).
Proof.
  intros Hreach Hup Hok Hrun Hres.
  set (b := length (batches s0)) in *.
  assert (Hinv : wf s ∧ ∀ d, d ∈ DECADES → accounted b s d).
  { apply (run_ind (λ s, wf s ∧ ∀ d, d ∈ DECADES → accounted b s d) undisturbed)
      with (tr := tr) (s := handleGenerateClick s0); [|done| |done].
    - intros ev s1 s2 Hev [Hwf Hacc] Hstep. split; [by eapply wf_step|].
      intros d Hin. by eapply accounted_step; [| | |apply Hacc].
    - split; [by apply wf_handleGenerateClick, reachable_wf|].
      unfold truthy_opt in Hup.
      destruct (uploadedImage (app s0)) as [image|] eqn:Himg; [|done].
      intros d Hin. by eapply accounted_started. }
  destruct Hinv as [Hwf Hacc].
  destruct (batches s !! b) as [bt|] eqn:Hb; [|done]. injection Hres as Hres.
  assert (Hfin : ∀ w, w < concurrencyLimit → workers bt !! w = Some Finished).
  { intros w Hw. by eapply wf_resolved. }
  split_and!.
  - simpl. f_equal. apply (wf_drained s Hwf b bt 0 Hb). apply Hfin. unfold concurrencyLimit. lia.
  - apply elem_of_nil_inv. intros c [Hown Hc]%list_elem_of_filter.
    unfold batch_of in Hown. destruct (call_cont c) as [b' w|] eqn:Hk; [|done].
    injection Hown as ->.
    destruct (wf_await s Hwf c b w Hc Hk) as (bt' & Hb' & Hw).
    rewrite Hb in Hb'. injection Hb' as <-.
    rewrite Hfin in Hw; [done|].
    rewrite <- (wf_pool s Hwf b bt Hb). by eapply lookup_lt_Some.
  - intros decade Hd. specialize (Hacc decade Hd).
    apply (accounted_resolved b s bt decade Hwf Hb Hres) in Hacc.
    unfold status_of in Hacc.
    destruct (JsObj.get decade (images s)) as [e|]; simpl in Hacc.
    + exists e. split; [done|]. destruct Hacc as [[= ->]|[= ->]]; auto.
    + by destruct Hacc.
Qed.

(** With the pool of [concurrencyLimit] = 2 workers, a batch never has
    more than 2 of its own calls of the Generator Client pending, at any
    point of any execution.  When the batch starts from a state where
    nothing else is active and the user starts no generation while it
    runs, these are all the pending calls there are. *)
Lemma pool_bounds_pending_calls s0 tr s :
  reachable s0 →
  truthy_opt (uploadedImage (app s0)) = true →
  run tr (handleGenerateClick s0) = Some s →
  concurrencyLimit = 2 ∧
  length (inflight_of (length (batches s0)) s) ≤ concurrencyLimit ∧
  (quiescent s0 → Forall undisturbed tr → length (inflight s) ≤ concurrencyLimit).
Proof.
  intros Hreach Hup Hrun.
  assert (Hwf : wf s).
  { eapply wf_run; [|done]. by apply wf_handleGenerateClick, reachable_wf. }
  split; [done|]. split; [by apply inflight_of_bound|].
  intros Hq Hok.
  assert (Honly : only_batch (length (batches s0)) s).
  { apply (run_ind (only_batch (length (batches s0))) undisturbed)
      with (tr := tr) (s := handleGenerateClick s0); [|done| |done].
    - intros ev s1 s2 Hev Hinv Hstep. by eapply only_batch_step.
    - unfold truthy_opt in Hup.
      destruct (uploadedImage (app s0)) as [image|] eqn:Himg; [|done].
      by eapply only_batch_started. }
  rewrite <- (only_batch_inflight _ _ Honly). by apply inflight_of_bound.
Qed.

(** C3.  At every point of every execution, the decades for which the
    batch has called the Generator Client so far, in the order of the
    calls, followed by the decades still in its queue, are exactly the
    catalog: decades are claimed in catalog order, none is skipped and
    none is claimed twice.  Each of these calls is awaited by one worker
    of the pool, and once the batch has resolved the calls it made are
    one per decade of the catalog. *)
Theorem C3_each_decade_claimed_once_in_order s0 tr s :
  reachable s0 →
  truthy_opt (uploadedImage (app s0)) = true →
  run tr (handleGenerateClick s0) = Some s →
  let b := length (batches s0) in
  ∃ bt, batches s !! b = Some bt ∧
    (call_decade <$> issued_by b s) ++ decadesQueue bt = DECADES ∧
    NoDup (call_decade <$> issued_by b s) ∧
    (∀ c, c ∈ issued_by b s → ∃ w, w < concurrencyLimit ∧ call_cont c = ProcessDecade b w) ∧
    (resolved bt = true → call_decade <$> issued_by b s = DECADES).
Proof.
  intros Hreach Hup Hrun b.
  assert (Hwf : wf s).
  { eapply wf_run; [|done]. by apply wf_handleGenerateClick, reachable_wf. }
  destruct (started_batch_lookup s0 tr s Hup Hrun) as [bt Hb]. fold b in Hb.
  exists bt. pose proof (wf_fifo s Hwf b bt Hb) as Hfifo.
  split_and!; [done|done| | |].
  - pose proof DECADES_NoDup as Hnd. rewrite <- Hfifo in Hnd.
    by apply NoDup_app in Hnd as [? _].
  - intros c [Hown Hc]%list_elem_of_filter. unfold batch_of in Hown.
    destruct (call_cont c) as [b' w|] eqn:Hk; [|done]. injection Hown as ->.
    exists w. split; [|done]. by destruct (wf_owner s Hwf c b w Hc Hk).
  - intros Hres. rewrite (wf_drained s Hwf b bt 0 Hb), app_nil_r in Hfifo; [done|].
    apply (wf_resolved s Hwf b bt 0 Hb Hres). unfold concurrencyLimit. lia.
Qed.

Lemma C3_each_decade_claimed_once_in_order_witness :
  ∃ bt, batches after_mid_run !! 0 = Some bt ∧
    (call_decade <$> issued_by 0 after_mid_run) ++ decadesQueue bt = DECADES ∧
    NoDup (call_decade <$> issued_by 0 after_mid_run) ∧
    (∀ c, c ∈ issued_by 0 after_mid_run →
       ∃ w, w < concurrencyLimit ∧ call_cont c = ProcessDecade 0 w) ∧
    (resolved bt = true → call_decade <$> issued_by 0 after_mid_run = DECADES).
Proof.
  apply (C3_each_decade_claimed_once_in_order uploaded mid_run after_mid_run).
  - exists [ImageLoaded photo]. reflexivity.
  - reflexivity.
  - vm_compute. reflexivity.
Defined.

(** ** Regeneration guards *)

(** C4.  Regenerating a decade whose entry is Pending changes nothing:
    the entry and the rest of the state are as before, and no call of the
    Generator Client is added to the pending calls or to the calls ever
    made. *)
Theorem C4_regenerate_pending_is_noop decade s :
  status_of decade (images s) = Some Pending →
  handleRegenerateDecade decade s = s.
Proof.
  unfold images. intros Hst. unfold handleRegenerateDecade.
  destruct (uploadedImage (app s)) as [image|]; [|done].
  destruct (truthy image); [|done]. by rewrite Hst.
Qed.

Lemma C4_regenerate_pending_is_noop_witness :
  handleRegenerateDecade "1970s" (handleGenerateClick uploaded) = handleGenerateClick uploaded.
Proof.
  apply (C4_regenerate_pending_is_noop "1970s" (handleGenerateClick uploaded)).
  vm_compute. reflexivity.
Defined.

(** C10.  Regenerating a decade when no photo is uploaded changes
    nothing: no entry becomes Pending, no call is made, the whole state
    is as before. *)
Theorem C10_regenerate_without_photo_is_noop decade s :
  uploadedImage (app s) = None →
  handleRegenerateDecade decade s = s.
Proof. intros Hup. unfold handleRegenerateDecade. by rewrite Hup. Qed.

Lemma C10_regenerate_without_photo_is_noop_witness :
  handleRegenerateDecade "1970s" (handleReset after_full_run) = handleReset after_full_run.
Proof.
  apply (C10_regenerate_without_photo_is_noop "1970s" (handleReset after_full_run)).
  reflexivity.
Defined.

(** ** Reset *)



(** ** Shape of the entries *)

(** C8.  In every reachable state, every entry of the store has a [url]
    exactly when its status is Done and an [error] exactly when its
    status is Error, never both.  Every step leaves an entry as it was,
    removes it together with all the others, or puts in its place one of
    the three complete records (pending; done with a url; error with a
    message): no entry is ever updated field by field. *)
Theorem C8_entries_consistent_and_replaced_whole tr s :
  run tr init = Some s →
  (∀ decade e, JsObj.get decade (images s) = Some e → entry_wf e) ∧
  (∀ ev s' decade, step ev s = Some s' →
     JsObj.get decade (images s') = JsObj.get decade (images s) ∨
     JsObj.get decade (images s') = None ∨
     ∃ e, fresh_entry e ∧ JsObj.get decade (images s') = Some e).
Proof.
  intros Hrun. split.
  - assert (Hpres : ∀ ev s1 s2, store_wf (images s1) → step ev s1 = Some s2 → store_wf (images s2)).
    { intros ev s1 s2 H1 Hstep. eapply store_write_wf; [|done]. by apply (step_store_write ev). }
    assert (Hwf : store_wf (images s)).
    { apply (run_ind_all (λ s, store_wf (images s)) Hpres tr init s); [constructor|done]. }
    intros decade e Hget%get_elem_of. unfold store_wf in Hwf.
    rewrite Forall_forall in Hwf. apply (Hwf _ Hget).
  - intros ev s' decade Hstep. apply step_store_write in Hstep.
    destruct Hstep as [o|o|o|o d e He]; [by left|by right; left| |].
    + destruct (JsObj.get decade initialImages) as [e|] eqn:Hget; [|by right; left].
      right. right. exists e. split; [|done]. left.
      unfold initialImages in Hget. simpl in Hget.
      repeat (case_match; [by injection Hget as <-|]). done.
    + destruct (decide (d = decade)) as [->|Hne].
      * right. right. exists e. by rewrite get_set_eq.
      * left. by rewrite get_set_ne.
Qed.

Lemma C8_entries_consistent_and_replaced_whole_witness :
  (∀ decade e, JsObj.get decade (images after_full_run) = Some e → entry_wf e) ∧
  (∀ ev s' decade, step ev after_full_run = Some s' →
     JsObj.get decade (images s') = JsObj.get decade (images after_full_run) ∨
     JsObj.get decade (images s') = None ∨
     ∃ e, fresh_entry e ∧ JsObj.get decade (images s') = Some e).
Proof.
  apply (C8_entries_consistent_and_replaced_whole
           (ImageLoaded photo :: GenerateClick :: full_run) after_full_run).
  vm_compute. reflexivity.
Defined.

(** ** The album gate *)

Lemma set_length_le {V} k (v : V) o : length (JsObj.set k v o) ≤ S (length o).
Proof.
  induction o as [|[k' v'] o IH]; simpl; [lia|].
  destruct (String.eqb k' k); simpl; lia.
Qed.

Lemma foldl_set_length {V W} (f : W → V) (l : list (string * W)) acc :
  length (foldl (λ acc e, JsObj.set e.1 (f e.2) acc) acc l) ≤ length acc + length l.
Proof.
  revert acc. induction l as [|e l IH]; intros acc; simpl; [lia|].
  etransitivity; [apply IH|]. pose proof (set_length_le e.1 (f e.2) acc). lia.
Qed.

Lemma foldl_set_fresh {V W} (f : W → V) (l : list (string * W)) acc :
  NoDup (JsObj.keys acc ++ JsObj.keys l) →
  foldl (λ acc e, JsObj.set e.1 (f e.2) acc) acc l = acc ++ map (λ e, (e.1, f e.2)) l.
Proof.
  revert acc. induction l as [|[k w] l IH]; intros acc Hnd; simpl.
  - by rewrite app_nil_r.
  - unfold JsObj.keys in Hnd. simpl in Hnd.
    assert (Hk : k ∉ JsObj.keys acc).
    { apply NoDup_app in Hnd as (_ & Hdis & _). intros Hin. apply (Hdis k Hin). left. }
    rewrite (set_notin k (f w) acc Hk). rewrite IH.
    + by rewrite <- app_assoc.
    + unfold JsObj.keys. rewrite map_app. simpl. rewrite <- app_assoc. done.
Qed.

Lemma filter_keys_NoDup {V} (f : string * V → bool) (o : list (string * V)) :
  NoDup (JsObj.keys o) → NoDup (JsObj.keys (List.filter f o)).
Proof.
  unfold JsObj.keys. induction o as [|e o IH]; simpl; [done|].
  intros [Hnin Hnd]%NoDup_cons. destruct (f e); simpl; [|by apply IH].
  apply NoDup_cons. split; [|by apply IH].
  intros (e' & He' & Hin)%list_elem_of_fmap. apply Hnin.
  apply list_elem_of_fmap. exists e'. split; [done|].
  apply list_elem_of_In in Hin. apply filter_In in Hin as [Hin _]. by apply list_elem_of_In.
Qed.

(** On an object (a list without repeated keys) the image data are the
    usable entries, in order, each with its url. *)
Lemma imageData_of_eq o :
  NoDup (JsObj.keys o) →
  imageData_of o = map (λ e, (e.1, default EmptyString (url e.2))) (List.filter (λ e, usable e.2) o).
Proof.
  intros Hnd. unfold imageData_of, JsObj.entries.
  apply (foldl_set_fresh (λ image, default EmptyString (url image))). simpl.
  by apply filter_keys_NoDup.
Qed.

Lemma imageData_of_keys o :
  NoDup (JsObj.keys o) →
  JsObj.keys (imageData_of o) = JsObj.keys (List.filter (λ e, usable e.2) o).
Proof.
  intros Hnd. rewrite imageData_of_eq by done. unfold JsObj.keys.
  rewrite map_map. done.
Qed.

Lemma imageData_of_length o : length (JsObj.keys (imageData_of o)) ≤ usableCount o.
Proof.
  unfold imageData_of, usableCount, JsObj.keys, JsObj.entries. rewrite length_map.
  etransitivity; [apply (foldl_set_length (λ image, default EmptyString (url image)))|]. simpl. lia.
Qed.

Lemma usableCount_le_doneCount o : usableCount o ≤ doneCount o.
Proof.
  unfold usableCount, doneCount. induction o as [|e o IH]; simpl; [lia|].
  unfold usable at 1. destruct (ImageStatus_eqb (status e.2) Done); simpl.
  - destruct (truthy_opt (url e.2)); simpl; lia.
  - done.
Qed.

Lemma filter_all {A} (f : A → bool) (l : list A) :
  length l ≤ length (List.filter f l) → List.filter f l = l.
Proof.
  induction l as [|x l IH]; simpl; [done|].
  destruct (f x); simpl; intros Hlen.
  - f_equal. apply IH. lia.
  - pose proof (filter_length_le f l). lia.
Qed.

Lemma store_write_NoDup o o' :
  store_write o o' → NoDup (JsObj.keys o) → NoDup (JsObj.keys o').
Proof.
  destruct 1; intros Hnd; [done|constructor|apply DECADES_NoDup|].
  by apply keys_set_NoDup.
Qed.

Lemma reachable_keys_NoDup s : reachable s → NoDup (JsObj.keys (images s)).
Proof.
  intros [tr Hrun].
  assert (Hpres : ∀ ev s1 s2, NoDup (JsObj.keys (images s1)) → step ev s1 = Some s2 →
                              NoDup (JsObj.keys (images s2))).
  { intros ev s1 s2 H1 Hstep. eapply store_write_NoDup; [|done]. by apply (step_store_write ev). }
  apply (run_ind_all (λ s, NoDup (JsObj.keys (images s))) Hpres tr init s); [constructor|done].
Qed.

Lemma prepareAlbumData_refuses s :
  usableCount (images s) < length DECADES →
  prepareAlbumData s = ([wait_alert], None).
Proof.
  intros Hlt. unfold prepareAlbumData. fold (images s).
  pose proof (imageData_of_length (images s)).
  destruct (Nat.ltb_spec (length (JsObj.keys (imageData_of (images s)))) (length DECADES)); [done|lia].
Qed.

Lemma prepareAlbumData_accepts s :
  NoDup (JsObj.keys (images s)) →
  length DECADES ≤ usableCount (images s) →
  prepareAlbumData s = ([], Some (imageData_of (images s))).
Proof.
  intros Hnd Hle. unfold prepareAlbumData. fold (images s).
  assert (Hlen : length (JsObj.keys (imageData_of (images s))) = usableCount (images s)).
  { rewrite imageData_of_keys by done. unfold JsObj.keys, usableCount. by rewrite length_map. }
  rewrite Hlen.
  destruct (Nat.ltb_spec (usableCount (images s)) (length DECADES)); [lia|done].
Qed.

(** C6, as stated, fails.  After a batch in which the call for the 1970s
    resolved to the empty string all six identifiers are Done, yet the
    album is refused, even with a compositor that always succeeds.  And
    after a batch in which every call returned an image the request is
    accepted and the compositor is invoked, but when it rejects no blob
    is produced. *)
Lemma C6_done_count_equal_yet_no_album :
  (run (ImageLoaded photo :: GenerateClick :: blank_run) init = Some after_blank_run ∧
   doneCount (images after_blank_run) = length DECADES ∧
   handleDownloadAlbum (λ _ _, AlbumReady "data:image/jpeg;base64,ALBUM") after_blank_run
     = [wait_alert]) ∧
  (run (ImageLoaded photo :: GenerateClick :: all_done_run) init = Some after_all_done ∧
   doneCount (images after_all_done) = length DECADES ∧
   handleDownloadAlbum (λ _ _, AlbumFailed "Error") after_all_done
     = [CreateAlbumPage
          [("1950s", "img-1950s"); ("1960s", "img-1960s"); ("1970s", "img-1970s");
           ("1980s", "img-1980s"); ("1990s", "img-1990s"); ("2000s", "img-2000s")] [];
        ConsoleError "Failed to create or download album:";
        Alert "Sorry, there was an error creating your album. Please try again."]).
Proof. vm_compute. repeat split. Qed.

(** C6, amended.  In every reachable state the album is refused, with the
    alert asking to wait and without the compositor being invoked,
    whenever fewer identifiers than the catalog has are Done with a
    non-empty url, so in particular whenever the Done-count is less than
    the catalog size.  Otherwise the request is accepted: the compositor
    is invoked exactly once, with the urls of those entries in store
    order and with the caption overrides, and its result is downloaded
    as one file when it resolves, while nothing is downloaded when it
    rejects. *)
Theorem C6_album_gate (createAlbumPage : obj string → obj string → album_result) s :
  reachable s →
  (doneCount (images s) < length DECADES →
     handleDownloadAlbum createAlbumPage s = [wait_alert]) ∧
  (usableCount (images s) < length DECADES →
     handleDownloadAlbum createAlbumPage s = [wait_alert]) ∧
  (length DECADES ≤ usableCount (images s) →
     let imageData :=
       map (λ e, (e.1, default EmptyString (url e.2))) (List.filter (λ e, usable e.2) (images s)) in
     handleDownloadAlbum createAlbumPage s =
       CreateAlbumPage imageData (captions s) ::
       match createAlbumPage imageData (captions s) with
       | AlbumReady albumDataUrl => [Download albumDataUrl "past-forward-album.jpg"]
       | AlbumFailed _ =>
           [ConsoleError "Failed to create or download album:";
            Alert "Sorry, there was an error creating your album. Please try again."]
       end).
Proof.
  intros Hreach.
  assert (Hrefuse : usableCount (images s) < length DECADES →
                    handleDownloadAlbum createAlbumPage s = [wait_alert]).
  { intros Hlt. unfold handleDownloadAlbum. by rewrite prepareAlbumData_refuses. }
  split_and!; [|done|].
  - intros Hlt. apply Hrefuse. pose proof (usableCount_le_doneCount (images s)). lia.
  - intros Hle imageData. unfold handleDownloadAlbum.
    pose proof (reachable_keys_NoDup s Hreach) as Hnd.
    rewrite (prepareAlbumData_accepts s Hnd Hle), (imageData_of_eq _ Hnd). done.
Qed.

Lemma C6_album_gate_witness :
  handleDownloadAlbum (λ _ _, AlbumReady "data:image/jpeg;base64,ALBUM") after_full_run = [wait_alert].
Proof.
  apply (C6_album_gate (λ _ _, AlbumReady "data:image/jpeg;base64,ALBUM") after_full_run).
  - exists (ImageLoaded photo :: GenerateClick :: full_run). vm_compute. reflexivity.
  - vm_compute. lia.
Defined.

(** ** Captions *)

Lemma step_captions ev s s' :
  keeps_captions ev → step ev s = Some s' → captions s' = captions s.
Proof.
  unfold captions.
  destruct ev as [result| |decade|decade c| |id r|b w|b]; simpl; try done; intros _.
  - by intros [= <-].
  - intros [= <-]. unfold handleGenerateClick.
    destruct (uploadedImage (app s)) as [image|]; [|done].
    destruct (truthy image); [|done]. by rewrite workers_run_app.
  - intros [= <-]. unfold handleRegenerateDecade.
    destruct (uploadedImage (app s)) as [image|]; [|done].
    destruct (truthy image); [|done].
    by destruct (status_of decade (generatedImages (app s))) as [[]|].
  - destruct (find_call id (inflight s)) as [c|]; [|done]. intros [= <-].
    unfold resume_call. by destruct (call_cont c).
  - destruct (batches s !! b ≫= _) as [[]|]; try done. intros [= <-].
    by rewrite worker_run_app.
  - destruct (batches s !! b) as [bt|]; [|done].
    destruct (forallb _ _ && _); [|done]. by intros [= <-].
Qed.





(** The album composed in that state carries the override. *)
Example groovy_album_download :
  handleDownloadAlbum (λ _ _, AlbumReady "data:image/jpeg;base64,ALBUM") after_groovy_run =
    [CreateAlbumPage
       [("1950s", "img-1950s"); ("1960s", "img-1960s"); ("1970s", "img-1970s-again");
        ("1980s", "img-1980s"); ("1990s", "img-1990s"); ("2000s", "img-2000s")]
       [("1970s", "Groovy Me")];
     Download "data:image/jpeg;base64,ALBUM" "past-forward-album.jpg"].
Proof. vm_compute. reflexivity. Qed.

(** ** The name of the shared album *)

Lemma wf_queue_catalog s b bt decade :
  wf s → batches s !! b = Some bt → decade ∈ decadesQueue bt → decade ∈ DECADES.
Proof.
  intros Hwf Hb Hin. rewrite <- (wf_fifo s Hwf b bt Hb). apply elem_of_app. by right.
Qed.

Lemma catalog_calls_step ev s s' :
  wf s → catalog_event ev → step ev s = Some s' → catalog_calls s → catalog_calls s'.
Proof.
  intros Hwf Hev Hstep Hcat.
  destruct ev as [result| |d|d c| |id r|b w|b]; simpl in *.
  - by injection Hstep as <-.
  - injection Hstep as <-. destruct (truthy_opt (uploadedImage (app s))) eqn:Hup.
    + unfold truthy_opt in Hup. destruct (uploadedImage (app s)) as [image|] eqn:Himg; [|done].
      rewrite (handleGenerateClick_started s image Himg Hup). intros c. simpl.
      intros [Hc|[->|[->|[]%elem_of_nil]%elem_of_cons]%elem_of_cons]%elem_of_app;
        [by apply Hcat|simpl; unfold DECADES..].
      * left.
      * right. left.
    + by rewrite handleGenerateClick_idle.
  - injection Hstep as <-. unfold handleRegenerateDecade.
    destruct (uploadedImage (app s)) as [image|]; [|done].
    destruct (truthy image); [|done].
    destruct (status_of d (generatedImages (app s))) as [[]|]; try done; simpl;
      intros c [Hc| ->%list_elem_of_singleton]%elem_of_app; by auto.
  - by injection Hstep as <-.
  - by injection Hstep as <-.
  - destruct (find_call id (inflight s)) as [c|]; [|done]. injection Hstep as <-.
    intros c'. unfold resume_call. destruct (call_cont c); simpl;
      intros [_ Hc']%list_elem_of_filter; by apply Hcat.
  - destruct (batches s !! b) as [bt|] eqn:Hb; simpl in Hstep; [|done].
    destruct (workers bt !! w) as [[]|] eqn:Hw; try done. injection Hstep as <-.
    rewrite (worker_run_eq s b w bt Hb) by (by eapply wf_queue_truthy).
    destruct (decadesQueue bt) as [|d0 q] eqn:Hq; [done|]. simpl.
    intros c [Hc| ->%list_elem_of_singleton]%elem_of_app; [by apply Hcat|]. simpl.
    apply (wf_queue_catalog s b bt d0 Hwf Hb). rewrite Hq. left.
  - destruct (batches s !! b) as [bt|]; [|done].
    destruct (forallb _ _ && _); [|done]. by injection Hstep as <-.
Qed.

Lemma catalog_keys_step ev s s' :
  catalog_calls s → catalog_event ev → keeps_store ev → step ev s = Some s' →
  JsObj.keys (images s) = DECADES → JsObj.keys (images s') = DECADES.
Proof.
  intros Hcat Hev Hkeep Hstep Hkeys. unfold images in *.
  destruct ev as [result| |d|d c| |id r|b w|b]; simpl in *; try done.
  - injection Hstep as <-. destruct (truthy_opt (uploadedImage (app s))) eqn:Hup.
    + fold (images (handleGenerateClick s)). by rewrite handleGenerateClick_images.
    + by rewrite handleGenerateClick_idle.
  - injection Hstep as <-. unfold handleRegenerateDecade.
    destruct (uploadedImage (app s)) as [image|]; [|done].
    destruct (truthy image); [|done].
    destruct (status_of d (generatedImages (app s))) as [[]|]; try done; simpl;
      rewrite set_in; by rewrite ?Hkeys.
  - by injection Hstep as <-.
  - destruct (find_call id (inflight s)) as [c|] eqn:Hfind; [|done]. injection Hstep as <-.
    apply find_call_Some in Hfind as [Hc _]. apply Hcat in Hc.
    assert (Hset : JsObj.keys (settled (call_decade c) r (generatedImages (app s))) = DECADES).
    { destruct r; simpl; rewrite set_in; by rewrite ?Hkeys. }
    unfold resume_call. by destruct (call_cont c).
  - destruct (batches s !! b ≫= _) as [[]|]; try done. injection Hstep as <-.
    by rewrite worker_run_app.
  - destruct (batches s !! b) as [bt|]; [|done].
    destruct (forallb _ _ && _); [|done]. by injection Hstep as <-.
Qed.


(** The album shared after a batch in which the 1950s complete last and
    are then regenerated. *)
Example shuffled_album_share :
  handleShareAlbum (λ _ _, AlbumReady "data:image/jpeg;base64,ALBUM") (λ _, true) after_shuffled_run =
    [CreateAlbumPage
       [("1950s", "img-1950s-again"); ("1960s", "img-1960s"); ("1970s", "img-1970s");
        ("1980s", "img-1980s"); ("1990s", "img-1990s"); ("2000s", "img-2000s")] [];
     DataUrlToFile "data:image/jpeg;base64,ALBUM" "past-forward-album-1950s-2000s.jpg";
     Share "past-forward-album-1950s-2000s.jpg" "My Past Forward Album: 1950s - 2000s"
       "I traveled through time with Past Forward! Check out my album."].
Proof. vm_compute. reflexivity. Qed.




(** * Further properties *)

(** ** Completion whatever the outcomes *)

(** Only the join marks a batch resolved, and it ends the loading state. *)
Lemma resolved_by_join ev s s' b bt bt' :
  step ev s = Some s' → batches s !! b = Some bt → batches s' !! b = Some bt' →
  resolved bt = false → resolved bt' = true →
  appState (app s') = results_shown ∧ isLoading (app s') = false.
Proof.
  intros Hstep Hb Hb' Hres Hres'.
  assert (Hblt : b < length (batches s)) by (by eapply lookup_lt_Some).
  destruct ev as [result| |d|d cap| |id r|b0 w|b0]; simpl in Hstep.
  - injection Hstep as <-. simpl in Hb'. congruence.
  - injection Hstep as <-. exfalso. unfold handleGenerateClick in Hb'.
    destruct (uploadedImage (app s)) as [image|]; [|congruence].
    destruct (truthy image); [|congruence]. simpl in Hb'.
    unfold worker_run in Hb'. simpl in Hb'.
    repeat match type of Hb' with
    | context [match ?x with _ => _ end] => destruct x; simpl in Hb'
    end;
    repeat (rewrite list_lookup_alter in Hb'; case_decide; [lia|]);
    rewrite ?lookup_app_l in Hb' by done; congruence.
  - injection Hstep as <-. exfalso. unfold handleRegenerateDecade in Hb'.
    destruct (uploadedImage (app s)) as [image|]; [|congruence].
    destruct (truthy image); [|congruence].
    destruct (status_of d (generatedImages (app s))) as [[]|]; simpl in Hb'; congruence.
  - injection Hstep as <-. simpl in Hb'. congruence.
  - injection Hstep as <-. simpl in Hb'. congruence.
  - destruct (find_call id (inflight s)) as [c|]; [|done]. injection Hstep as <-.
    exfalso. unfold resume_call in Hb'. destruct (call_cont c) as [b1 w1|]; simpl in Hb'.
    + rewrite list_lookup_alter in Hb'. case_decide; [subst|congruence].
      rewrite Hb in Hb'. simpl in Hb'. injection Hb' as <-. simpl in Hres'. congruence.
    + congruence.
  - destruct (batches s !! b0 ≫= _) as [[]|]; try done. injection Hstep as <-.
    exfalso. unfold worker_run in Hb'. destruct (batches s !! b0) as [bt0|] eqn:Hb0; [|congruence].
    destruct (shift_next (decadesQueue bt0)) as [[decade|] q]; simpl in Hb'.
    + rewrite !list_lookup_alter in Hb'. case_decide; [subst|congruence].
      rewrite Hb in Hb'. simpl in Hb'. repeat case_decide; try done.
      injection Hb' as <-. simpl in Hres'. congruence.
    + rewrite list_lookup_alter in Hb'. case_decide; [subst|congruence].
      rewrite Hb in Hb'. simpl in Hb'. injection Hb' as <-. simpl in Hres'. congruence.
  - destruct (batches s !! b0) as [bt0|]; [|done].
    destruct (forallb _ _ && _); [|done]. by injection Hstep as <-.
Qed.

(** An unresolved batch can take a step in which a call settles as
    [pick] says, and every such step leaves it less to do. *)
Lemma batch_progress_as pick s b bt :
  wf s → batches s !! b = Some bt → resolved bt = false →
  ∃ ev s' bt', undisturbed ev ∧ settles_as pick ev ∧ step ev s = Some s' ∧
    batches s' !! b = Some bt' ∧ remaining bt' < remaining bt.
Proof.
  intros Hwf Hb Hres.
  destruct (worker_cases (workers bt)) as [Hall|(w & [Hw|(id & Hw)])].
  - exists (Join b), (join b s), (set_resolved bt). split_and!; [done|done| | |].
    + simpl. rewrite Hb, Hres.
      assert (forallb is_finished (workers bt) = true) as ->; [|done].
      apply forallb_forall. intros st Hst%list_elem_of_In.
      rewrite Forall_forall in Hall. by rewrite (Hall st Hst).
    + unfold join, with_batch. simpl. rewrite list_lookup_alter_eq, Hb. done.
    + unfold remaining. simpl. rewrite Hres. lia.
  - exists (Resume b w), (worker_run b w s).
    assert (Hwlt : w < length (workers bt)) by (by eapply lookup_lt_Some).
    assert (Hstep : step (Resume b w) s = Some (worker_run b w s)).
    { simpl. rewrite Hb. simpl. by rewrite Hw. }
    rewrite (worker_run_eq s b w bt Hb) in * by (by eapply wf_queue_truthy).
    destruct (decadesQueue bt) as [|decade q] eqn:Hq.
    + eexists. split_and!; [done|done|done| |].
      * simpl. apply list_lookup_insert_eq. by eapply lookup_lt_Some.
      * unfold remaining. simpl. rewrite Hq. simpl.
        pose proof (weight_insert (workers bt) w Ready Finished Hw). simpl in *. lia.
    + eexists. split_and!; [done|done|done| |].
      * simpl. apply list_lookup_insert_eq. by eapply lookup_lt_Some.
      * unfold remaining. simpl. rewrite Hq. simpl.
        pose proof (weight_insert (workers bt) w Ready (Awaiting (length (issued s))) Hw).
        simpl in *. lia.
  - destruct (wf_pending s Hwf b bt w id Hb Hw) as (c & Hc & Hid & Hk).
    destruct (find_call_elem_of id (inflight s) c Hc Hid) as [c' Hfind].
    pose proof (find_call_Some _ _ _ Hfind) as [Hc' Hid'].
    assert (c' = c) as -> by (apply (inflight_id_inj s); [done..|congruence]).
    exists (Settle id (pick id)). eexists. eexists.
    split_and!; [done|done| | |].
    + simpl. by rewrite Hfind.
    + unfold resume_call. rewrite Hk. unfold with_batch. simpl.
      rewrite list_lookup_alter_eq, Hb. done.
    + unfold remaining. simpl.
      pose proof (weight_insert (workers bt) w (Awaiting id) Ready Hw). simpl in *. lia.
Qed.

Lemma batch_resolves_as pick s b bt :
  wf s → batches s !! b = Some bt → resolved bt = false →
  ∃ tr s', Forall undisturbed tr ∧ Forall (settles_as pick) tr ∧ run tr s = Some s' ∧
    resolved <$> batches s' !! b = Some true ∧
    appState (app s') = results_shown ∧ isLoading (app s') = false.
Proof.
  remember (remaining bt) as n eqn:Hn.
  revert s bt Hn. induction (lt_wf n) as [n _ IH]. intros s bt -> Hwf Hb Hres.
  destruct (batch_progress_as pick s b bt Hwf Hb Hres)
    as (ev & s1 & bt1 & Hev & Hpick & Hstep & Hb1 & Hlt).
  destruct (resolved bt1) eqn:Hres1.
  - exists [ev], s1. split_and!; [by repeat constructor|by repeat constructor| | |..].
    + simpl. by rewrite Hstep.
    + rewrite Hb1. simpl. by rewrite Hres1.
    + by eapply resolved_by_join.
    + by eapply resolved_by_join.
  - destruct (IH (remaining bt1) Hlt s1 bt1 eq_refl) as (tr & s' & Htr & Hpk & Hrun & Hdone);
      [by eapply wf_step|done|done|].
    exists (ev :: tr), s'. split_and!; [by constructor|by constructor| |apply Hdone..].
    simpl. by rewrite Hstep.
Qed.

(** X1.  Whatever the outcome of each call, success or failure, every
    run of a batch can be continued, by settling its pending calls as
    given and resuming its workers, until the join resolves: a failed
    decade never stops the others. *)
Theorem X1_batch_completes_whatever_the_outcomes (pick : nat → outcome) s0 tr s :
  reachable s0 →
  truthy_opt (uploadedImage (app s0)) = true →
  run tr (handleGenerateClick s0) = Some s →
  ∃ tr' s', Forall undisturbed tr' ∧ Forall (settles_as pick) tr' ∧
    run (tr ++ tr') (handleGenerateClick s0) = Some s' ∧
    resolved <$> batches s' !! length (batches s0) = Some true.
Proof.
  intros Hreach Hup Hrun.
  assert (Hwf : wf s).
  { eapply wf_run; [|done]. by apply wf_handleGenerateClick, reachable_wf. }
  destruct (started_batch_lookup s0 tr s Hup Hrun) as [bt Hb].
  destruct (resolved bt) eqn:Hres.
  - exists [], s. split_and!; [constructor|constructor| |].
    + by rewrite app_nil_r.
    + rewrite Hb. simpl. by rewrite Hres.
  - destruct (batch_resolves_as pick s _ bt Hwf Hb Hres) as (tr' & s' & Htr' & Hpk & Hrun' & Hdone & _).
    exists tr', s'. split_and!; [done|done| |done].
    rewrite run_app, Hrun. done.
Qed.

Lemma X1_batch_completes_whatever_the_outcomes_witness :
  ∃ tr' s', Forall undisturbed tr' ∧
    Forall (settles_as (λ _, Rejected NotAnError)) tr' ∧
    run (mid_run ++ tr') (handleGenerateClick uploaded) = Some s' ∧
    resolved <$> batches s' !! 0 = Some true.
Proof.
  apply (X1_batch_completes_whatever_the_outcomes
           (λ _, Rejected NotAnError) uploaded mid_run after_mid_run).
  - exists [ImageLoaded photo]. reflexivity.
  - reflexivity.
  - vm_compute. reflexivity.
Defined.

Lemma set_keeps_key {V} k (v : V) o decade :
  decade ∈ JsObj.keys o → decade ∈ JsObj.keys (JsObj.set k v o).
Proof.
  intros Hin. destruct (decide (k ∈ JsObj.keys o)); [by rewrite set_in|].
  rewrite set_notin by done. unfold JsObj.keys. rewrite map_app.
  apply elem_of_app. by left.
Qed.

(** Without a reset, an upload or a new batch, no entry is ever removed. *)
Lemma step_keeps_key ev s s' decade :
  no_restart ev → step ev s = Some s' →
  decade ∈ JsObj.keys (images s) → decade ∈ JsObj.keys (images s').
Proof.
  intros Hev Hstep Hin. unfold images in *.
  destruct ev as [result| |d|d cap| |id r|b w|b]; simpl in *; try done.
  - injection Hstep as <-. unfold handleRegenerateDecade.
    destruct (uploadedImage (app s)) as [image|]; [|done].
    destruct (truthy image); [|done].
    destruct (status_of d (generatedImages (app s))) as [[]|]; simpl;
      first [done | by apply set_keeps_key].
  - by injection Hstep as <-.
  - destruct (find_call id (inflight s)) as [c|]; [|done]. injection Hstep as <-.
    assert (decade ∈ JsObj.keys (settled (call_decade c) r (generatedImages (app s)))).
    { destruct r; simpl; by apply set_keeps_key. }
    unfold resume_call. by destruct (call_cont c).
  - destruct (batches s !! b ≫= _) as [[]|]; try done. injection Hstep as <-.
    by rewrite worker_run_app.
  - destruct (batches s !! b) as [bt|]; [|done].
    destruct (forallb _ _ && _); [|done]. by injection Hstep as <-.
Qed.

(** X2.  When decades are regenerated while the batch runs, the resolved
    batch leaves every decade Done or Error except those whose
    regeneration is still pending. *)
Theorem X2_resolved_batch_with_regenerations s0 tr s :
  reachable s0 →
  truthy_opt (uploadedImage (app s0)) = true →
  Forall no_restart tr →
  run tr (handleGenerateClick s0) = Some s →
  resolved <$> batches s !! length (batches s0) = Some true →
  ∀ decade, decade ∈ DECADES →
    status_of decade (images s) = Some Done ∨ status_of decade (images s) = Some Error ∨
    (status_of decade (images s) = Some Pending ∧ regenerating s decade).
Proof.
  intros Hreach Hup Hok Hrun Hres decade Hd.
  set (b := length (batches s0)) in *.
  assert (Hinv : wf s ∧ ∀ d, d ∈ DECADES → accounted b s d ∨ regenerating s d).
  { apply (run_ind (λ s, wf s ∧ ∀ d, d ∈ DECADES → accounted b s d ∨ regenerating s d) no_restart)
      with (tr := tr) (s := handleGenerateClick s0); [|done| |done].
    - intros ev s1 s2 Hev [Hwf Hacc] Hstep. split; [by eapply wf_step|].
      intros d Hin. by eapply regenerating_step; [| | |apply Hacc].
    - split; [by apply wf_handleGenerateClick, reachable_wf|].
      unfold truthy_opt in Hup.
      destruct (uploadedImage (app s0)) as [image|] eqn:Himg; [|done].
      intros d Hin. left. by eapply accounted_started. }
  destruct Hinv as [Hwf Hacc].
  assert (Hkeys : JsObj.keys initialImages = DECADES) by done.
  assert (Hentry : is_Some (status_of decade (images s))).
  { assert (Hin : decade ∈ JsObj.keys (images s)); [|apply get_is_Some in Hin as [e He];
      unfold status_of; rewrite He; by eexists].
    apply (run_ind (λ s, decade ∈ JsObj.keys (images s)) no_restart)
      with (tr := tr) (s := handleGenerateClick s0); [|done| |done].
    - intros ev s1 s2 Hev Hin Hstep. by eapply step_keeps_key.
    - rewrite handleGenerateClick_images by done. by rewrite Hkeys. }
  destruct (batches s !! b) as [bt|] eqn:Hb; [|done]. injection Hres as Hres.
  destruct (Hacc decade Hd) as [Ha|Hr].
  - apply (accounted_resolved b s bt decade Hwf Hb Hres) in Ha. tauto.
  - destruct Hentry as [[] Hst]; auto.
Qed.

Lemma X2_resolved_batch_with_regenerations_witness :
  status_of "1950s" (images after_regenerating_run) = Some Done ∨
  status_of "1950s" (images after_regenerating_run) = Some Error ∨
  (status_of "1950s" (images after_regenerating_run) = Some Pending ∧
   regenerating after_regenerating_run "1950s").
Proof.
  apply (X2_resolved_batch_with_regenerations uploaded regenerating_run after_regenerating_run).
  - exists [ImageLoaded photo]. reflexivity.
  - reflexivity.
  - repeat constructor.
  - vm_compute. reflexivity.
  - vm_compute. reflexivity.
  - unfold DECADES. left.
Defined.

(** In that run the regenerated decade is indeed Pending at the join,
    with three calls pending at one point. *)
Example regenerated_decade_pending_at_join :
  status_of "1950s" (images after_regenerating_run) = Some Pending ∧
  resolved <$> batches after_regenerating_run !! 0 = Some true ∧
  length (inflight (default init
    (run (take 3 regenerating_run) (handleGenerateClick uploaded)))) = 3.
Proof. vm_compute. done. Qed.

(** ** The generating view *)

Lemma step_appState ev s s' :
  match ev with
  | RegenerateDecade _ | CaptionChange _ _ | Settle _ _ | Resume _ _ => True
  | _ => False
  end →
  step ev s = Some s' → appState (app s') = appState (app s).
Proof.
  destruct ev as [result| |d|d cap| |id r|b w|b]; simpl; try done; intros _.
  - intros [= <-]. unfold handleRegenerateDecade.
    destruct (uploadedImage (app s)) as [image|]; [|done].
    destruct (truthy image); [|done].
    by destruct (status_of d (generatedImages (app s))) as [[]|].
  - by intros [= <-].
  - destruct (find_call id (inflight s)) as [c|]; [|done]. intros [= <-].
    unfold resume_call. by destruct (call_cont c).
  - destruct (batches s !! b ≫= _) as [[]|]; try done. intros [= <-].
    by rewrite worker_run_app.
Qed.

Lemma unresolved_step ev s s' b bt :
  step ev s = Some s' → batches s !! b = Some bt → resolved bt = false →
  (∃ bt', batches s' !! b = Some bt' ∧ resolved bt' = false) ∨
  appState (app s') = results_shown.
Proof.
  intros Hstep Hb Hres.
  assert (Hlt : b < length (batches s')).
  { apply step_batches_length in Hstep. apply lookup_lt_Some in Hb. lia. }
  apply lookup_lt_is_Some in Hlt as [bt' Hb'].
  destruct (resolved bt') eqn:Hres'.
  - right. by destruct (resolved_by_join ev s s' b bt bt').
  - left. by exists bt'.
Qed.

Lemma generating_has_batch_step ev s s' :
  generating_has_batch s → step ev s = Some s' → generating_has_batch s'.
Proof.
  intros Hinv Hstep Hgen.
  assert (Hsame : appState (app s') = appState (app s) →
                  ∃ b bt, batches s' !! b = Some bt ∧ resolved bt = false).
  { intros Heq. rewrite Heq in Hgen. destruct (Hinv Hgen) as (b & bt & Hb & Hres).
    destruct (unresolved_step ev s s' b bt Hstep Hb Hres) as [(bt' & Hb' & Hres')|Hshown].
    - by exists b, bt'.
    - rewrite <- Heq, Hshown in Hgen. discriminate. }
  destruct ev as [result| |d|d cap| |id r|b w|b];
    try (apply Hsame; eapply step_appState; [|exact Hstep]; exact I); simpl in Hstep.
  - injection Hstep as <-. simpl in Hgen. discriminate.
  - injection Hstep as <-. destruct (truthy_opt (uploadedImage (app s))) eqn:Hup.
    + unfold truthy_opt in Hup. destruct (uploadedImage (app s)) as [image|] eqn:Himg; [|done].
      rewrite (handleGenerateClick_started s image Himg Hup). simpl.
      eexists (length (batches s)), _. split; [by apply list_lookup_middle|done].
    + rewrite handleGenerateClick_idle in * by done. by apply Hinv.
  - injection Hstep as <-. simpl in Hgen. discriminate.
  - destruct (batches s !! b) as [bt|]; [|done].
    destruct (forallb _ _ && _); [|done]. injection Hstep as <-. simpl in Hgen. discriminate.
Qed.

(** X3.  The interface is never stuck in the generating view: from every
    reachable state that shows it, whatever the outcomes of the pending
    and future calls, settling them and resuming the workers leads to the
    results view with the loading flag off. *)
Theorem X3_generating_view_always_leaves (pick : nat → outcome) s :
  reachable s →
  appState (app s) = generating →
  ∃ tr s', Forall undisturbed tr ∧ Forall (settles_as pick) tr ∧ run tr s = Some s' ∧
    appState (app s') = results_shown ∧ isLoading (app s') = false.
Proof.
  intros Hreach Hgen.
  assert (Hinv : generating_has_batch s).
  { destruct Hreach as [tr Hrun].
    apply (run_ind_all generating_has_batch generating_has_batch_step tr init s); [|done].
    unfold generating_has_batch. simpl. discriminate. }
  destruct (Hinv Hgen) as (b & bt & Hb & Hres).
  destruct (batch_resolves_as pick s b bt (reachable_wf s Hreach) Hb Hres)
    as (tr & s' & Htr & Hpk & Hrun & _ & Hshown & Hload).
  by exists tr, s'.
Qed.

Lemma X3_generating_view_always_leaves_witness :
  ∃ tr s', Forall undisturbed tr ∧
    Forall (settles_as (λ _, Rejected (ErrorObject "quota exceeded"))) tr ∧
    run tr after_mid_run = Some s' ∧
    appState (app s') = results_shown ∧ isLoading (app s') = false.
Proof.
  apply (X3_generating_view_always_leaves _ after_mid_run).
  - exists (ImageLoaded photo :: GenerateClick :: mid_run). vm_compute. reflexivity.
  - vm_compute. reflexivity.
Defined.

(** ** One generation per decade *)

Lemma NoDup_fmap_eq {A B} (f : A → B) (l : list A) x y :
  NoDup (f <$> l) → x ∈ l → y ∈ l → f x = f y → x = y.
Proof.
  intros Hnd [i Hi]%list_elem_of_lookup [j Hj]%list_elem_of_lookup Hf.
  assert (i = j); [|congruence].
  eapply (NoDup_lookup _ _ _ _ Hnd); rewrite list_lookup_fmap.
  - by rewrite Hi.
  - rewrite Hj. simpl. by rewrite Hf.
Qed.

Lemma single_batch_started s image :
  uploadedImage (app s) = Some image → truthy image = true →
  quiescent s → single_batch (length (batches s)) (handleGenerateClick s).
Proof.
  intros Hup Ht Hq. destruct (only_batch_started s image Hup Ht Hq) as [Hown Hfin].
  split; [|done]. intros c Hc. left. by apply Hown.
Qed.

Lemma single_batch_step b ev s s' :
  no_restart ev → step ev s = Some s' → single_batch b s → single_batch b s'.
Proof.
  intros Hev Hstep [Hown Hfin].
  destruct ev as [result| |d|d cap| |id r|b' w|b']; simpl in *; try done.
  - injection Hstep as <-. unfold handleRegenerateDecade.
    destruct (uploadedImage (app s)) as [image|]; [|done].
    destruct (truthy image); [|done].
    destruct (status_of d (generatedImages (app s))) as [[]|]; try done; split; simpl;
      try done; intros c [Hc| ->%list_elem_of_singleton]%elem_of_app; auto.
  - by injection Hstep as <-.
  - destruct (find_call id (inflight s)) as [c|] eqn:Hfind; [|done]. injection Hstep as <-.
    apply find_call_Some in Hfind as [Hc Hid]. pose proof (Hown c Hc) as Hcb.
    unfold resume_call, batch_of in *. destruct (call_cont c) as [b0 w0|].
    + destruct Hcb as [[= ->]|?]; [|done]. split; simpl.
      * intros c' [_ Hc']%list_elem_of_filter. by apply Hown.
      * intros b' bt w st Hne Hb Hw. rewrite list_lookup_alter_ne in Hb by done. by eapply Hfin.
    + split; simpl; [|done]. intros c' [_ Hc']%list_elem_of_filter. by apply Hown.
  - destruct (batches s !! b') as [bt'|] eqn:Hb'; simpl in Hstep; [|done].
    destruct (workers bt' !! w) as [[]|] eqn:Hw; try done. injection Hstep as <-.
    destruct (decide (b' = b)) as [->|Hne].
    2:{ by pose proof (Hfin b' bt' w Ready Hne Hb' Hw). }
    unfold worker_run. rewrite Hb'.
    destruct (shift_next (decadesQueue bt')) as [[decade|] q]; split; simpl.
    + intros c [Hc| ->%list_elem_of_singleton]%elem_of_app; [by apply Hown|by left].
    + intros b' bt w' st Hne Hb Hw'. rewrite !list_lookup_alter_ne in Hb by done. by eapply Hfin.
    + done.
    + intros b' bt w' st Hne Hb Hw'. rewrite !list_lookup_alter_ne in Hb by done. by eapply Hfin.
  - destruct (batches s !! b') as [bt'|] eqn:Hb'; [|done].
    destruct (forallb is_finished (workers bt') && negb (resolved bt')); [|done].
    injection Hstep as <-. split; simpl; [done|].
    intros b0 bt w st Hne Hb Hw. rewrite list_lookup_alter in Hb.
    case_decide; [subst|by eapply Hfin].
    rewrite Hb' in Hb. simpl in Hb. injection Hb as <-. simpl in Hw. by eapply Hfin.
Qed.

Lemma exclusive_started s image :
  uploadedImage (app s) = Some image → truthy image = true →
  quiescent s → exclusive (length (batches s)) (handleGenerateClick s).
Proof.
  intros Hup Ht [Hinf _]. rewrite (handleGenerateClick_started s image Hup Ht).
  unfold exclusive, images. simpl. rewrite Hinf. simpl. split_and!.
  - intros c [->|[->|?%elem_of_nil]%elem_of_cons]%elem_of_cons; done.
  - apply NoDup_ListNoDup. repeat constructor; simpl; intuition discriminate.
  - intros bt decade Hb Hin. rewrite list_lookup_middle in Hb by done.
    injection Hb as <-. simpl in Hin.
    repeat (apply elem_of_cons in Hin as [->|Hin];
            [split; [done|]; intros Hx;
             repeat (apply elem_of_cons in Hx as [[=]|Hx]); by apply elem_of_nil in Hx|]).
    by apply elem_of_nil in Hin.
Qed.

Lemma wf_queue_NoDup s b bt : wf s → batches s !! b = Some bt → NoDup (decadesQueue bt).
Proof.
  intros Hwf Hb. pose proof DECADES_NoDup as Hnd.
  rewrite <- (wf_fifo s Hwf b bt Hb) in Hnd. by apply NoDup_app in Hnd as (_ & _ & ?).
Qed.

Lemma exclusive_step b ev s s' :
  wf s → single_batch b s → no_restart ev → step ev s = Some s' →
  exclusive b s → exclusive b s'.
Proof.
  intros Hwf [Hown Hfin] Hev Hstep (Hpend & Hnd & Hqueue).
  destruct ev as [result| |d|d cap| |id r|b' w|b']; simpl in *; try done.
  - (* regeneration *)
    injection Hstep as <-. unfold handleRegenerateDecade.
    destruct (uploadedImage (app s)) as [image|]; [|done].
    destruct (truthy image); [|done].
    assert (Hgo : status_of d (images s) ≠ Some Pending →
      exclusive b (snd (generateDecadeImage image d Regenerate
                          (with_app (setGeneratedImages (JsObj.set d entry_pending)) s)))).
    { intros Hst.
      assert (Hfree : ∀ c, c ∈ inflight s → call_decade c ≠ d).
      { intros c Hc Heq. apply Hst. rewrite <- Heq. by apply Hpend. }
      unfold exclusive, images, status_of in *. simpl. split_and!.
      - intros c [Hc| ->%list_elem_of_singleton]%elem_of_app.
        + rewrite get_set_ne by (intros Heq; by apply (Hfree c)). by apply Hpend.
        + simpl. by rewrite get_set_eq.
      - rewrite fmap_app. apply NoDup_app. split_and!; [done| |apply NoDup_singleton].
        intros x (c & -> & Hc)%list_elem_of_fmap ?%list_elem_of_singleton. by apply (Hfree c).
      - intros bt decade Hb Hin. destruct (Hqueue bt decade Hb Hin) as [Hp Hnin].
        assert (Hne : d ≠ decade) by (intros ->; by apply Hst).
        split; [by rewrite get_set_ne|].
        rewrite fmap_app. intros [?|?%list_elem_of_singleton]%elem_of_app; [done|].
        simpl in *. congruence. }
    unfold images in Hgo.
    destruct (status_of d (generatedImages (app s))) as [[]|]; try done; by apply Hgo.
  - by injection Hstep as <-.
  - (* a call settles *)
    destruct (find_call id (inflight s)) as [c|] eqn:Hfind; [|done]. injection Hstep as <-.
    apply find_call_Some in Hfind as [Hc Hid].
    set (s0 := {| app := app s; batches := batches s;
                  inflight := remove_call id (inflight s); issued := issued s |}).
    assert (Himg : images (resume_call c r s0) = settled (call_decade c) r (images s)).
    { unfold resume_call, images. by destruct (call_cont c). }
    assert (Hinf : inflight (resume_call c r s0) = remove_call id (inflight s)).
    { unfold resume_call. by destruct (call_cont c). }
    unfold exclusive. rewrite Himg, Hinf. split_and!.
    + intros c' [Hne Hc']%list_elem_of_filter. rewrite status_of_settled.
      rewrite decide_False; [by apply Hpend|].
      intros Heq. apply Hne. rewrite <- Hid. f_equal.
      by apply (NoDup_fmap_eq call_decade (inflight s)).
    + eapply sublist_NoDup; [done|]. apply fmap_sublist, sublist_filter.
    + intros bt decade Hb Hin.
      pose proof (resume_call_batches c r s0 b) as Hq. rewrite Hb in Hq. simpl in Hq.
      destruct (batches s !! b) as [bt0|] eqn:Hb0; [|done]. injection Hq as Hq.
      rewrite Hq in Hin. destruct (Hqueue bt0 decade eq_refl Hin) as [Hp Hnin].
      split.
      * rewrite status_of_settled, decide_False; [done|].
        intros <-. apply Hnin. by apply list_elem_of_fmap_2.
      * intros (c' & -> & [_ Hc']%list_elem_of_filter)%list_elem_of_fmap.
        apply Hnin. by apply list_elem_of_fmap_2.
  - (* a worker resumes *)
    destruct (batches s !! b') as [bt'|] eqn:Hb'; simpl in Hstep; [|done].
    destruct (workers bt' !! w) as [[]|] eqn:Hw; try done. injection Hstep as <-.
    destruct (decide (b' = b)) as [->|Hne].
    2:{ by pose proof (Hfin b' bt' w Ready Hne Hb' Hw). }
    assert (Hblt : b < length (batches s)) by (by eapply lookup_lt_Some).
    pose proof (wf_queue_NoDup s b bt' Hwf Hb') as Hqnd.
    rewrite (worker_run_eq s b w bt' Hb') by (by eapply wf_queue_truthy).
    destruct (decadesQueue bt') as [|d0 q] eqn:Hq; unfold exclusive, images; simpl.
    + split_and!; [done..|]. intros bt decade Hb Hin.
      rewrite list_lookup_insert_eq in Hb by done. injection Hb as <-. simpl in Hin.
      by apply elem_of_nil in Hin.
    + destruct (Hqueue bt' d0 Hb') as [Hp0 Hnin0]; [rewrite Hq; left|].
      apply NoDup_cons in Hqnd as [Hd0 Hqnd]. split_and!.
      * intros c [Hc| ->%list_elem_of_singleton]%elem_of_app; [by apply Hpend|done].
      * rewrite fmap_app. apply NoDup_app. split_and!; [done| |apply NoDup_singleton].
        intros x Hx ->%list_elem_of_singleton. done.
      * intros bt decade Hb Hin.
        rewrite list_lookup_insert_eq in Hb by done. injection Hb as <-. simpl in Hin.
        destruct (Hqueue bt' decade Hb') as [Hp Hnin]; [rewrite Hq; by right|].
        split; [done|]. rewrite fmap_app.
        intros [?|?%list_elem_of_singleton]%elem_of_app; [done|]. simpl in *. congruence.
  - (* the join *)
    destruct (batches s !! b') as [bt'|] eqn:Hb'; [|done].
    destruct (forallb is_finished (workers bt') && negb (resolved bt')); [|done].
    injection Hstep as <-. unfold exclusive, images. simpl. split_and!; [done..|].
    intros bt decade Hb Hin. rewrite list_lookup_alter in Hb. case_decide.
    + subst. rewrite Hb' in Hb. injection Hb as <-. by apply (Hqueue bt').
    + by apply (Hqueue bt).
Qed.

Lemma exclusive_run b tr s s' :
  Forall no_restart tr → run tr s = Some s' →
  wf s ∧ single_batch b s ∧ exclusive b s →
  wf s' ∧ single_batch b s' ∧ exclusive b s'.
Proof.
  intros Hok Hrun Hinv.
  apply (run_ind (λ s, wf s ∧ single_batch b s ∧ exclusive b s) no_restart)
    with (tr := tr) (s := s); [|done..].
  intros ev s1 s2 Hev (Hwf & Hsb & Hex) Hstep. split_and!.
  - by eapply wf_step.
  - by eapply single_batch_step.
  - by eapply exclusive_step.
Qed.

(** X4.  Start a batch when nothing else is active, and let the user
    regenerate decades at will while it runs and afterwards.  At every
    point, no two pending calls of the Generator Client are for the same
    decade, and every decade with a pending call is Pending in the
    store. *)
Theorem X4_one_generation_per_decade s0 tr s :
  reachable s0 → quiescent s0 →
  truthy_opt (uploadedImage (app s0)) = true →
  Forall no_restart tr →
  run tr (handleGenerateClick s0) = Some s →
  NoDup (call_decade <$> inflight s) ∧
  ∀ c, c ∈ inflight s → status_of (call_decade c) (images s) = Some Pending.
Proof.
  intros Hreach Hq Hup Hok Hrun.
  unfold truthy_opt in Hup. destruct (uploadedImage (app s0)) as [image|] eqn:Himg; [|done].
  destruct (exclusive_run (length (batches s0)) tr (handleGenerateClick s0) s Hok Hrun)
    as (_ & _ & Hpend & Hnd & _); [|done].
  split_and!.
  - by apply wf_handleGenerateClick, reachable_wf.
  - by eapply single_batch_started.
  - by eapply exclusive_started.
Qed.

Lemma X4_one_generation_per_decade_witness :
  NoDup (call_decade <$> inflight after_regenerating_run) ∧
  ∀ c, c ∈ inflight after_regenerating_run →
    status_of (call_decade c) (images after_regenerating_run) = Some Pending.
Proof.
  apply (X4_one_generation_per_decade uploaded regenerating_run after_regenerating_run).
  - exists [ImageLoaded photo]. reflexivity.
  - split; [reflexivity|]. intros b bt w st Hb. discriminate Hb.
  - reflexivity.
  - repeat constructor.
  - vm_compute. reflexivity.
Defined.

(** ** Outcomes and entries *)

Lemma at_rest_step b ev s s' decade :
  wf s → single_batch b s → undisturbed ev → step ev s = Some s' →
  at_rest b s decade →
  at_rest b s' decade ∧ JsObj.get decade (images s') = JsObj.get decade (images s).
Proof.
  intros Hwf [Hown Hfin] Hev Hstep [Hfree Hnq].
  destruct ev as [result| |d|d cap| |id r|b' w|b']; simpl in *; try done.
  - by injection Hstep as <-.
  - destruct (find_call id (inflight s)) as [c|] eqn:Hfind; [|done]. injection Hstep as <-.
    apply find_call_Some in Hfind as [Hc Hid].
    set (s0 := {| app := app s; batches := batches s;
                  inflight := remove_call id (inflight s); issued := issued s |}).
    assert (Himg : images (resume_call c r s0) = settled (call_decade c) r (images s)).
    { unfold resume_call, images. by destruct (call_cont c). }
    assert (Hinf : inflight (resume_call c r s0) = remove_call id (inflight s)).
    { unfold resume_call. by destruct (call_cont c). }
    assert (Hne : call_decade c ≠ decade).
    { intros <-. apply Hfree. by apply list_elem_of_fmap_2. }
    split; [split|].
    + rewrite Hinf. intros (c' & -> & [_ Hc']%list_elem_of_filter)%list_elem_of_fmap.
      apply Hfree. by apply list_elem_of_fmap_2.
    + intros bt Hb. pose proof (resume_call_batches c r s0 b) as Hq. rewrite Hb in Hq.
      simpl in Hq. destruct (batches s !! b) as [bt0|] eqn:Hb0; [|done].
      injection Hq as ->. by apply Hnq.
    + rewrite Himg. destruct r; simpl; by rewrite get_set_ne.
  - destruct (batches s !! b') as [bt'|] eqn:Hb'; simpl in Hstep; [|done].
    destruct (workers bt' !! w) as [[]|] eqn:Hw; try done. injection Hstep as <-.
    destruct (decide (b' = b)) as [->|Hne].
    2:{ by pose proof (Hfin b' bt' w Ready Hne Hb' Hw). }
    assert (Hblt : b < length (batches s)) by (by eapply lookup_lt_Some).
    rewrite (worker_run_eq s b w bt' Hb') by (by eapply wf_queue_truthy).
    pose proof (Hnq bt' Hb') as Hnq'.
    destruct (decadesQueue bt') as [|d0 q] eqn:Hq; unfold at_rest, images; simpl.
    + split; [split; [done|]|done]. intros bt Hb.
      rewrite list_lookup_insert_eq in Hb by done. injection Hb as <-. simpl.
      apply not_elem_of_nil.
    + apply not_elem_of_cons in Hnq' as [Hd0 Hq']. split; [split|done].
      * rewrite fmap_app. intros [?|?%list_elem_of_singleton]%elem_of_app; [done|].
        simpl in *. congruence.
      * intros bt Hb. rewrite list_lookup_insert_eq in Hb by done. by injection Hb as <-.
  - destruct (batches s !! b') as [bt'|] eqn:Hb'; [|done].
    destruct (forallb is_finished (workers bt') && negb (resolved bt')); [|done].
    injection Hstep as <-. unfold at_rest, images. simpl. split; [split; [done|]|done].
    intros bt Hb. rewrite list_lookup_alter in Hb. case_decide.
    + subst. rewrite Hb' in Hb. injection Hb as <-. by apply (Hnq bt').
    + by apply Hnq.
Qed.

Lemma undisturbed_no_restart ev : undisturbed ev → no_restart ev.
Proof. by destruct ev. Qed.

Lemma at_rest_run b tr s s' decade :
  Forall undisturbed tr → run tr s = Some s' →
  wf s → single_batch b s → at_rest b s decade →
  JsObj.get decade (images s') = JsObj.get decade (images s).
Proof.
  revert s. induction tr as [|ev tr IH]; intros s Hok Hrun Hwf Hsb Hrest; simpl in Hrun.
  - by injection Hrun as <-.
  - destruct (step ev s) as [s1|] eqn:Hstep; [|done].
    apply Forall_cons in Hok as [Hev Hok].
    destruct (at_rest_step b ev s s1 decade Hwf Hsb Hev Hstep Hrest) as [Hrest1 Hget].
    rewrite <- Hget. apply IH; [done|done|by eapply wf_step| |done].
    eapply single_batch_step; [|done..]. by apply undisturbed_no_restart.
Qed.

Lemma settled_at_rest b s id r c :
  wf s → single_batch b s → exclusive b s →
  find_call id (inflight s) = Some c →
  let s' := resume_call c r {| app := app s; batches := batches s;
                               inflight := remove_call id (inflight s);
                               issued := issued s |} in
  at_rest b s' (call_decade c) ∧
  JsObj.get (call_decade c) (images s') = Some (entry_of r).
Proof.
  intros Hwf Hsb (Hpend & Hnd & Hqueue) Hfind s'.
  apply find_call_Some in Hfind as [Hc Hid].
  assert (Himg : images s' = settled (call_decade c) r (images s)).
  { unfold s', resume_call, images. by destruct (call_cont c). }
  assert (Hinf : inflight s' = remove_call id (inflight s)).
  { unfold s', resume_call. by destruct (call_cont c). }
  split; [split|].
  - rewrite Hinf. intros (c' & Heq & [Hne Hc']%list_elem_of_filter)%list_elem_of_fmap.
    apply Hne. rewrite <- Hid. f_equal. symmetry.
    by apply (NoDup_fmap_eq call_decade (inflight s)).
  - intros bt Hb Hin.
    pose proof (resume_call_batches c r
      {| app := app s; batches := batches s;
         inflight := remove_call id (inflight s); issued := issued s |} b) as Hq.
    fold s' in Hq. rewrite Hb in Hq. simpl in Hq.
    destruct (batches s !! b) as [bt0|] eqn:Hb0; [|done]. injection Hq as Hq.
    rewrite Hq in Hin. destruct (Hqueue bt0 (call_decade c) eq_refl Hin) as [_ Hnin].
    apply Hnin. by apply list_elem_of_fmap_2.
  - rewrite Himg. destruct r; simpl; by rewrite get_set_eq.
Qed.

Lemma settlements_final b tr s s' :
  Forall undisturbed tr → run tr s = Some s' →
  wf s → single_batch b s → exclusive b s →
  ∀ c r, (c, r) ∈ settlements tr s →
    JsObj.get (call_decade c) (images s') = Some (entry_of r).
Proof.
  revert s. induction tr as [|ev tr IH]; intros s Hok Hrun Hwf Hsb Hex c r Hin; simpl in *.
  - by apply elem_of_nil in Hin.
  - destruct (step ev s) as [s1|] eqn:Hstep; [|done].
    apply Forall_cons in Hok as [Hev Hok].
    assert (Hwf1 : wf s1) by (by eapply wf_step).
    assert (Hsb1 : single_batch b s1).
    { eapply single_batch_step; [|done..]. by apply undisturbed_no_restart. }
    assert (Hex1 : exclusive b s1).
    { by apply (exclusive_step b ev s s1 Hwf Hsb (undisturbed_no_restart ev Hev) Hstep). }
    apply elem_of_app in Hin as [Hin|Hin]; [|by eapply IH].
    destruct ev as [result| |d|d cap| |id r0|b' w|b']; try (by apply elem_of_nil in Hin).
    destruct (find_call id (inflight s)) as [c0|] eqn:Hfind; [|by apply elem_of_nil in Hin].
    apply list_elem_of_singleton in Hin. injection Hin as -> ->.
    simpl in Hstep. rewrite Hfind in Hstep. injection Hstep as Hs1.
    destruct (settled_at_rest b s id r0 c0 Hwf Hsb Hex Hfind) as [Hrest Hget].
    rewrite Hs1 in Hrest, Hget.
    rewrite <- Hget. by eapply at_rest_run.
Qed.

(** X5.  Run a batch started when nothing else was active, with no other
    handler interfering.  At every point, each decade whose call has
    settled holds what that call's outcome dictates: Done with the
    returned url when it resolved, Error with the error's message (or the
    fallback message) when it rejected.  A later failure or success of
    another decade does not touch it. *)
Theorem X5_entries_reflect_outcomes s0 tr s :
  reachable s0 → quiescent s0 →
  truthy_opt (uploadedImage (app s0)) = true →
  Forall undisturbed tr →
  run tr (handleGenerateClick s0) = Some s →
  ∀ c r, (c, r) ∈ settlements tr (handleGenerateClick s0) →
    JsObj.get (call_decade c) (images s) = Some (entry_of r).
Proof.
  intros Hreach Hq Hup Hok Hrun.
  unfold truthy_opt in Hup. destruct (uploadedImage (app s0)) as [image|] eqn:Himg; [|done].
  apply (settlements_final (length (batches s0)) tr (handleGenerateClick s0) s Hok Hrun).
  - by apply wf_handleGenerateClick, reachable_wf.
  - by eapply single_batch_started.
  - by eapply exclusive_started.
Qed.

Lemma X5_entries_reflect_outcomes_witness :
  JsObj.get "1960s" (images after_full_run) = Some (entry_error "quota exceeded").
Proof.
  apply (X5_entries_reflect_outcomes uploaded full_run after_full_run
           ltac:(by exists [ImageLoaded photo])
           ltac:(split; [reflexivity|]; intros b bt w st Hb; discriminate Hb)
           eq_refl
           ltac:(repeat constructor)
           ltac:(vm_compute; reflexivity)
           {| call_id := 1; call_decade := "1960s"; call_image := photo;
              call_prompt := prompt "1960s"; call_cont := ProcessDecade 0 1 |}
           (Rejected (ErrorObject "quota exceeded"))).
  apply list_elem_of_In. vm_compute. tauto.
Defined.

(** ** The photo of a batch *)

Lemma alter_source (f : batch → batch) b b' (l : list batch) :
  (∀ bt, source (f bt) = source bt) →
  source <$> alter f b l !! b' = source <$> l !! b'.
Proof.
  intros Hf. rewrite list_lookup_alter. case_decide; [subst|done].
  destruct (l !! b') as [bt|]; simpl; [|done]. by rewrite Hf.
Qed.

Lemma worker_run_source b w s b' : batch_source b' (worker_run b w s) = batch_source b' s.
Proof.
  unfold batch_source, worker_run. destruct (batches s !! b) as [bt|]; [|done].
  destruct (shift_next (decadesQueue bt)) as [[decade|] q]; simpl;
    by rewrite ?alter_source.
Qed.

Lemma step_source ev s s' b image :
  step ev s = Some s' → batch_source b s = Some image → batch_source b s' = Some image.
Proof.
  intros Hstep Hsrc.
  destruct ev as [result| |d|d cap| |id r|b' w|b']; simpl in Hstep.
  - by injection Hstep as <-.
  - injection Hstep as <-. unfold handleGenerateClick.
    destruct (uploadedImage (app s)) as [image'|]; [|done].
    destruct (truthy image'); [|done]. simpl.
    rewrite !worker_run_source. unfold batch_source in *. simpl.
    rewrite lookup_app_l; [done|].
    destruct (batches s !! b) eqn:Hb; [by eapply lookup_lt_Some|done].
  - injection Hstep as <-. unfold handleRegenerateDecade.
    destruct (uploadedImage (app s)) as [image'|]; [|done].
    destruct (truthy image'); [|done].
    by destruct (status_of d (generatedImages (app s))) as [[]|].
  - by injection Hstep as <-.
  - by injection Hstep as <-.
  - destruct (find_call id (inflight s)) as [c|]; [|done]. injection Hstep as <-.
    unfold resume_call, batch_source in *. destruct (call_cont c); simpl; [|done].
    by rewrite alter_source.
  - destruct (batches s !! b' ≫= _) as [[]|]; try done. injection Hstep as <-.
    by rewrite worker_run_source.
  - destruct (batches s !! b') as [bt|]; [|done].
    destruct (forallb _ _ && _); [|done]. injection Hstep as <-.
    unfold join, batch_source in *. simpl. by rewrite alter_source.
Qed.

Lemma worker_run_issued b w s c :
  c ∈ issued (worker_run b w s) →
  c ∈ issued s ∨
  (∃ image, batch_source b s = Some image ∧ call_image c = image ∧
            call_prompt c = prompt (call_decade c) ∧ batch_of c = Some b).
Proof.
  unfold worker_run, batch_source. destruct (batches s !! b) as [bt|] eqn:Hb; [|by left].
  destruct (shift_next (decadesQueue bt)) as [[decade|] q]; simpl; [|by left].
  intros [?|Hc%list_elem_of_singleton]%elem_of_app; [by left|]. subst c. right.
  by exists (source bt).
Qed.

Lemma batch_calls_carry_step ev s s' b image :
  wf s → step ev s = Some s' → batch_calls_carry b image s → batch_calls_carry b image s'.
Proof.
  intros Hwf Hstep [Hsrc Hcalls]. split; [by eapply step_source|].
  assert (Hblt : b < length (batches s)).
  { unfold batch_source in Hsrc. destruct (batches s !! b) eqn:Hb; [|done].
    by eapply lookup_lt_Some. }
  destruct ev as [result| |d|d cap| |id r|b' w|b']; simpl in Hstep.
  - by injection Hstep as <-.
  - injection Hstep as <-.
    destruct (truthy_opt (uploadedImage (app s))) eqn:Hup.
    + unfold truthy_opt in Hup. destruct (uploadedImage (app s)) as [image'|] eqn:Himg; [|done].
      rewrite (handleGenerateClick_started s image' Himg Hup). simpl.
      intros c [Hc|Hc]%elem_of_app Hb; [by apply Hcalls|].
      apply elem_of_cons in Hc as [->|Hc]; [|apply list_elem_of_singleton in Hc as ->];
        unfold batch_of in Hb; simpl in Hb; injection Hb as Hb; lia.
    + by rewrite handleGenerateClick_idle.
  - injection Hstep as <-. unfold handleRegenerateDecade.
    destruct (uploadedImage (app s)) as [image'|]; [|done].
    destruct (truthy image'); [|done].
    destruct (status_of d (generatedImages (app s))) as [[]|]; simpl; try done;
      intros c [Hc|Hc%list_elem_of_singleton]%elem_of_app Hb; first [by apply Hcalls | by subst c].
  - by injection Hstep as <-.
  - by injection Hstep as <-.
  - destruct (find_call id (inflight s)) as [c0|]; [|done]. injection Hstep as <-.
    unfold resume_call. by destruct (call_cont c0).
  - destruct (batches s !! b' ≫= _) as [[]|]; try done. injection Hstep as <-.
    intros c Hc Hb. apply worker_run_issued in Hc as [Hc|(image' & Hsrc' & Himg & Hpr & Hb')];
      [by apply Hcalls|].
    rewrite Hb in Hb'. injection Hb' as ->. rewrite Hsrc in Hsrc'. by injection Hsrc' as <-.
  - destruct (batches s !! b') as [bt|]; [|done].
    destruct (forallb _ _ && _); [|done]. by injection Hstep as <-.
Qed.

Lemma batch_calls_carry_started s image :
  wf s → uploadedImage (app s) = Some image → truthy image = true →
  batch_calls_carry (length (batches s)) image (handleGenerateClick s).
Proof.
  intros Hwf Himg Ht. rewrite (handleGenerateClick_started s image Himg Ht).
  split; [unfold batch_source; simpl; by rewrite list_lookup_middle|]. simpl.
  intros c [Hc|Hc]%elem_of_app Hb.
  - unfold batch_of in Hb. destruct (call_cont c) as [b w|] eqn:Hk; [|done].
    injection Hb as ->. destruct (wf_owner s Hwf c _ w Hc Hk). lia.
  - apply elem_of_cons in Hc as [->|Hc]; [|apply list_elem_of_singleton in Hc as ->]; done.
Qed.

(** X6.  Every call a batch makes, at any point of any execution, is
    given the photo that was uploaded when Generate was clicked and the
    prompt of its decade, also when the user has meanwhile started over
    or uploaded another photo. *)
Theorem X6_batch_calls_carry_its_photo s0 image tr s :
  reachable s0 →
  uploadedImage (app s0) = Some image → truthy image = true →
  run tr (handleGenerateClick s0) = Some s →
  ∀ c, c ∈ issued s → batch_of c = Some (length (batches s0)) →
    call_image c = image ∧ call_prompt c = prompt (call_decade c).
Proof.
  intros Hreach Himg Ht Hrun.
  pose proof (reachable_wf s0 Hreach) as Hwf0.
  assert (Hinv : wf s ∧ batch_calls_carry (length (batches s0)) image s).
  { apply (run_ind_all (λ s, wf s ∧ batch_calls_carry (length (batches s0)) image s))
      with (tr := tr) (s := handleGenerateClick s0); [| |done].
    - intros ev s1 s2 [Hwf1 Hc1] Hstep. split; [by eapply wf_step|].
      by eapply batch_calls_carry_step.
    - split; [by apply wf_handleGenerateClick|by apply batch_calls_carry_started]. }
  apply Hinv.
Qed.

Lemma X6_batch_calls_carry_its_photo_witness :
  uploadedImage (app after_swapped_run) = Some other_photo ∧
  ∀ c, c ∈ issued after_swapped_run → batch_of c = Some 0 →
    call_image c = photo ∧ call_prompt c = prompt (call_decade c).
Proof.
  split; [reflexivity|].
  apply (X6_batch_calls_carry_its_photo uploaded photo swapped_run after_swapped_run).
  - exists [ImageLoaded photo]. reflexivity.
  - reflexivity.
  - reflexivity.
  - vm_compute. reflexivity.
Defined.

(** ** Starting over while a batch runs *)

Lemma undisturbed_uploadedImage ev s s' :
  undisturbed ev → step ev s = Some s' → uploadedImage (app s') = uploadedImage (app s).
Proof.
  destruct ev as [result| |d|d cap| |id r|b w|b]; simpl; try done; intros _.
  - by intros [= <-].
  - destruct (find_call id (inflight s)) as [c|]; [|done]. intros [= <-].
    unfold resume_call. by destruct (call_cont c).
  - destruct (batches s !! b ≫= _) as [[]|]; try done. intros [= <-].
    by rewrite worker_run_app.
  - destruct (batches s !! b) as [bt|]; [|done].
    destruct (forallb _ _ && _); [|done]. by intros [= <-].
Qed.

Lemma undisturbed_run_uploadedImage tr s s' :
  Forall undisturbed tr → run tr s = Some s' →
  uploadedImage (app s') = uploadedImage (app s).
Proof.
  intros Hok Hrun.
  apply (run_ind (λ s1, uploadedImage (app s1) = uploadedImage (app s)) undisturbed)
    with (tr := tr) (s := s); [|done..].
  intros ev s1 s2 Hev <- Hstep. by eapply undisturbed_uploadedImage.
Qed.

(** X7.  Starting over does not stop a batch that is still running: its
    pending calls and its workers are kept, and once its remaining calls
    have settled, whatever their outcomes, the join switches the
    interface to the results view although no photo is uploaded any
    more. *)
Theorem X7_reset_does_not_stop_a_batch (pick : nat → outcome) s b bt :
  reachable s →
  batches s !! b = Some bt → resolved bt = false →
  inflight (handleReset s) = inflight s ∧
  batches (handleReset s) = batches s ∧
  ∃ tr s', Forall undisturbed tr ∧ Forall (settles_as pick) tr ∧
    run (ResetClick :: tr) s = Some s' ∧
    resolved <$> batches s' !! b = Some true ∧
    appState (app s') = results_shown ∧
    uploadedImage (app s') = None.
Proof.
  intros Hreach Hb Hres. split_and!; [done|done|].
  assert (Hwf : wf (handleReset s)).
  { apply (wf_step ResetClick s); [by apply reachable_wf|done]. }
  destruct (batch_resolves_as pick (handleReset s) b bt Hwf Hb Hres)
    as (tr & s' & Htr & Hpk & Hrun & Hdone & Hshown & _).
  exists tr, s'. split_and!; try done.
  by rewrite (undisturbed_run_uploadedImage tr (handleReset s) s').
Qed.

Lemma X7_reset_does_not_stop_a_batch_witness :
  inflight (handleReset after_mid_run) = inflight after_mid_run ∧
  batches (handleReset after_mid_run) = batches after_mid_run ∧
  ∃ tr s', Forall undisturbed tr ∧
    Forall (settles_as (λ id, Resolved "late")) tr ∧
    run (ResetClick :: tr) after_mid_run = Some s' ∧
    resolved <$> batches s' !! 0 = Some true ∧
    appState (app s') = results_shown ∧
    uploadedImage (app s') = None.
Proof.
  apply (X7_reset_does_not_stop_a_batch _ after_mid_run 0
           {| decadesQueue := ["1980s"; "1990s"; "2000s"];
              workers := [Ready; Awaiting 2];
              source := photo; resolved := false |}).
  - exists (ImageLoaded photo :: GenerateClick :: mid_run). vm_compute. reflexivity.
  - vm_compute. reflexivity.
  - reflexivity.
Defined.

(** ** One regeneration, from the click to the outcome *)

Lemma find_call_fresh s c :
  wf s → call_id c = length (issued s) → find_call (call_id c) (inflight s ++ [c]) = Some c.
Proof.
  intros Hwf Hid. unfold find_call.
  pose proof (wf_fresh s Hwf) as Hfresh.
  induction (inflight s) as [|c' l IH]; simpl.
  - by rewrite Nat.eqb_refl.
  - destruct (Nat.eqb_spec (call_id c') (call_id c)) as [Heq|_].
    + specialize (Hfresh c' ltac:(left)). lia.
    + apply IH. intros c0 Hc0. apply Hfresh. by right.
Qed.

Lemma remove_call_fresh s c :
  wf s → call_id c = length (issued s) → remove_call (call_id c) (inflight s ++ [c]) = inflight s.
Proof.
  intros Hwf Hid. unfold remove_call. rewrite filter_app.
  rewrite filter_cons_False by naive_solver. rewrite filter_nil, app_nil_r.
  pose proof (wf_fresh s Hwf) as Hfresh.
  induction (inflight s) as [|c' l IH]; [done|].
  rewrite filter_cons_True.
  - f_equal. apply IH. intros c0 Hc0. apply Hfresh. by right.
  - specialize (Hfresh c' ltac:(left)). lia.
Qed.

(** X8.  Regenerating a decade that is not Pending, with a photo
    uploaded: the click marks that decade alone Pending and makes one
    call with the current photo and the decade's prompt; when that call
    settles, the decade holds the outcome, every other decade holds what
    it held before the click, and captions, batches, view and the other
    pending calls are as they were. *)
Theorem X8_regeneration_round_trip decade r s image :
  wf s →
  uploadedImage (app s) = Some image → truthy image = true →
  status_of decade (images s) ≠ Some Pending →
  let s1 := handleRegenerateDecade decade s in
  JsObj.get decade (images s1) = Some entry_pending ∧
  inflight s1 = inflight s ++ [new_call s image decade Regenerate] ∧
  ∃ s2, step (Settle (length (issued s)) r) s1 = Some s2 ∧
    JsObj.get decade (images s2) = Some (entry_of r) ∧
    (∀ d, d ≠ decade → JsObj.get d (images s1) = JsObj.get d (images s) ∧
                        JsObj.get d (images s2) = JsObj.get d (images s)) ∧
    captions s2 = captions s ∧ appState (app s2) = appState (app s) ∧
    batches s2 = batches s ∧ inflight s2 = inflight s.
Proof.
  intros Hwf Himg Ht Hst s1.
  set (c := new_call s image decade Regenerate).
  assert (Hs1 : s1 =
    {| app := setGeneratedImages (JsObj.set decade entry_pending) (app s);
       batches := batches s; inflight := inflight s ++ [c]; issued := issued s ++ [c] |}).
  { unfold s1, handleRegenerateDecade. rewrite Himg, Ht. unfold images in Hst.
    by destruct (status_of decade (generatedImages (app s))) as [[]|]. }
  rewrite Hs1. unfold images. simpl. split_and!; [by rewrite get_set_eq|done|].
  change (length (issued s)) with (call_id c).
  rewrite (find_call_fresh s c Hwf eq_refl), (remove_call_fresh s c Hwf eq_refl).
  eexists. split; [done|]. unfold resume_call. simpl. split_and!; try done.
  - destruct r; simpl; by rewrite get_set_eq.
  - intros d Hd. split; [by rewrite get_set_ne|].
    destruct r; simpl; by rewrite !get_set_ne.
Qed.

Lemma X8_regeneration_round_trip_witness :
  JsObj.get "1960s" (images (handleRegenerateDecade "1960s" after_full_run)) =
    Some entry_pending ∧
  inflight (handleRegenerateDecade "1960s" after_full_run) =
    inflight after_full_run ++ [new_call after_full_run photo "1960s" Regenerate] ∧
  ∃ s2, step (Settle (length (issued after_full_run)) (Resolved "img-1960s"))
             (handleRegenerateDecade "1960s" after_full_run) = Some s2 ∧
    JsObj.get "1960s" (images s2) = Some (entry_of (Resolved "img-1960s")) ∧
    (∀ d, d ≠ "1960s" →
       JsObj.get d (images (handleRegenerateDecade "1960s" after_full_run)) =
         JsObj.get d (images after_full_run) ∧
       JsObj.get d (images s2) = JsObj.get d (images after_full_run)) ∧
    captions s2 = captions after_full_run ∧
    appState (app s2) = appState (app after_full_run) ∧
    batches s2 = batches after_full_run ∧ inflight s2 = inflight after_full_run.
Proof.
  apply (X8_regeneration_round_trip "1960s" (Resolved "img-1960s") after_full_run photo).
  - apply reachable_wf. exists (ImageLoaded photo :: GenerateClick :: full_run).
    vm_compute. reflexivity.
  - reflexivity.
  - reflexivity.
  - vm_compute. discriminate.
Defined.

(** ** Single images and the album *)

Lemma get_filter_map {V W} (p : V → bool) (f : V → W) (o : list (string * V)) k :
  NoDup (JsObj.keys o) →
  JsObj.get k (map (λ e, (e.1, f e.2)) (List.filter (λ e, p e.2) o)) =
    match JsObj.get k o with
    | Some v => if p v then Some (f v) else None
    | None => None
    end.
Proof.
  unfold JsObj.keys. induction o as [|[k' v'] o IH]; simpl; [done|].
  intros [Hnin Hnd]%NoDup_cons. specialize (IH Hnd).
  destruct (p v') eqn:Hp; simpl.
  - destruct (String.eqb_spec k' k) as [->|Hne]; [by rewrite Hp|done].
  - destruct (String.eqb_spec k' k) as [->|Hne]; [|done]. rewrite Hp, IH.
    destruct (JsObj.get k o) as [v|] eqn:Hget; [|done].
    exfalso. apply Hnin. apply (get_is_Some k o). by rewrite Hget.
Qed.

(** X9.  In every reachable state the album is made of exactly the
    images the cards let the user download one by one: a decade is in
    the album data with a url precisely when its single download saves
    that url, as [past-forward-<decade>.jpg]; for a decade outside the
    album data the single download does nothing. *)
Theorem X9_album_holds_the_single_downloads s decade :
  reachable s →
  handleDownloadIndividualImage decade s =
    match JsObj.get decade (imageData_of (images s)) with
    | Some href => [Download href (individualFileName decade)]
    | None => []
    end.
Proof.
  intros Hreach. pose proof (reachable_keys_NoDup s Hreach) as Hnd.
  rewrite (imageData_of_eq _ Hnd).
  rewrite (get_filter_map usable (λ image, default EmptyString (url image)) _ _ Hnd).
  unfold handleDownloadIndividualImage, images.
  destruct (JsObj.get decade (generatedImages (app s))) as [image|]; [|done].
  by destruct (usable image).
Qed.

Lemma X9_album_holds_the_single_downloads_witness :
  handleDownloadIndividualImage "1970s" after_full_run =
    [Download "img-1970s" "past-forward-1970s.jpg"] ∧
  handleDownloadIndividualImage "1960s" after_full_run = [].
Proof.
  split.
  - apply (X9_album_holds_the_single_downloads after_full_run "1970s").
    exists (ImageLoaded photo :: GenerateClick :: full_run). vm_compute. reflexivity.
  - reflexivity.
Defined.

Ltac effect_cases H :=
  repeat (apply elem_of_cons in H as [H|H]; [try discriminate H|]);
  try (by apply elem_of_nil in H).

(** X10.  The two album handlers start alike and never act without the
    compositor: in every state they begin with the same first effect (the
    same refusal, or the same call of the compositor on the same images
    and captions); the album is downloaded only as what the compositor
    delivered, under the name [past-forward-album.jpg]; it is shared only
    after the compositor delivered and the browser accepted the file. *)
Theorem X10_album_handlers_agree createAlbumPage canShareFile s :
  head (handleDownloadAlbum createAlbumPage s) =
    head (handleShareAlbum createAlbumPage canShareFile s) ∧
  (∀ href fileName, Download href fileName ∈ handleDownloadAlbum createAlbumPage s →
     ∃ imageData, (prepareAlbumData s).2 = Some imageData ∧
       createAlbumPage imageData (captions s) = AlbumReady href ∧
       fileName = "past-forward-album.jpg") ∧
  (∀ fileName title text,
     Share fileName title text ∈ handleShareAlbum createAlbumPage canShareFile s →
     ∃ imageData albumDataUrl, (prepareAlbumData s).2 = Some imageData ∧
       createAlbumPage imageData (captions s) = AlbumReady albumDataUrl ∧
       fileName = shareFileName imageData ∧ canShareFile fileName = true ∧
       DataUrlToFile albumDataUrl fileName ∈ handleShareAlbum createAlbumPage canShareFile s).
Proof.
  unfold handleDownloadAlbum, handleShareAlbum, captions.
  destruct (prepareAlbumData s) as [effs [imageData|]] eqn:Hprep.
  2:{ unfold prepareAlbumData in Hprep. destruct (_ <? _); [|done].
      injection Hprep as <-. split_and!; [done|intros ? ? H; effect_cases H
                                          |intros ? ? ? H; effect_cases H]. }
  assert (effs = []) as ->.
  { unfold prepareAlbumData in Hprep. destruct (_ <? _); [done|]. by injection Hprep as <- _. }
  simpl. split_and!; [done| |].
  - intros href fileName H. exists imageData.
    destruct (createAlbumPage imageData (customCaptions (app s))) as [albumDataUrl|name].
    + apply elem_of_cons in H as [H|H]; [discriminate H|].
      apply list_elem_of_singleton in H. by injection H as -> ->.
    + effect_cases H.
  - intros fileName title text H. exists imageData.
    destruct (createAlbumPage imageData (customCaptions (app s))) as [albumDataUrl|name].
    + exists albumDataUrl. destruct (canShareFile (shareFileName imageData)) eqn:Hcan.
      * apply elem_of_cons in H as [H|H]; [discriminate H|].
        apply elem_of_cons in H as [H|H]; [discriminate H|].
        apply list_elem_of_singleton in H. injection H as -> _ _.
        split_and!; try done. right. left.
      * effect_cases H.
    + destruct (String.eqb name "AbortError"); effect_cases H.
Qed.

(** X11.  Sharing a single image never shows an alert and never
    downloads anything.  It hands a file to the share sheet only for a
    Done entry with a non-empty url, when the share API exists, the file
    was built and the browser accepts it; the file is named
    [past-forward-<decade>.jpg].  A share the user cancels is not
    logged. *)
Theorem X11_single_share_is_quiet navigator_share dataUrlToFile canShareFile share decade s :
  let effs := handleShareIndividualImage navigator_share dataUrlToFile canShareFile share decade s in
  (∀ message, Alert message ∉ effs) ∧
  (∀ href fileName, Download href fileName ∉ effs) ∧
  (∀ fileName title text, Share fileName title text ∈ effs →
     fileName = individualFileName decade ∧ navigator_share = true ∧
     canShareFile fileName = true ∧
     ∃ image dataUrl, JsObj.get decade (images s) = Some image ∧ status image = Done ∧
       url image = Some dataUrl ∧ truthy dataUrl = true ∧
       dataUrlToFile dataUrl fileName = Completed) ∧
  (∀ fileName title text, Share fileName title text ∈ effs →
     share fileName title text = Failed "AbortError" →
     ∀ message, ConsoleError message ∉ effs).
Proof.
  unfold handleShareIndividualImage, images.
  destruct (JsObj.get decade (generatedImages (app s))) as [image|]; simpl.
  2:{ split_and!; intros; first [apply not_elem_of_nil | by apply elem_of_nil in H]. }
  destruct (usable image) eqn:Huse; simpl.
  2:{ split_and!; intros; first [apply not_elem_of_nil | by apply elem_of_nil in H]. }
  destruct navigator_share; simpl.
  2:{ split_and!; intros; first [apply not_elem_of_nil | by apply elem_of_nil in H]. }
  unfold usable in Huse. apply andb_true_iff in Huse as [Hdone Hurl].
  destruct (status image) eqn:Hst; try done.
  destruct (url image) as [dataUrl|] eqn:Hu; [|done]. simpl in *.
  destruct (dataUrlToFile dataUrl (individualFileName decade)) as [|name] eqn:Hfile; simpl.
  - destruct (canShareFile (individualFileName decade)) eqn:Hcan.
    + destruct (share _ _ _) as [|name] eqn:Hshare; simpl;
        [|destruct (String.eqb name "AbortError") eqn:Hname]; split_and!.
      all: try (intros message H; by effect_cases H).
      all: try (intros href fileName H; by effect_cases H).
      all: try (intros fileName title text H;
                apply elem_of_cons in H as [H|H]; [discriminate H|];
                apply elem_of_cons in H as [H|H]; [|by effect_cases H];
                injection H as -> _ _; split_and!; try done; by exists image, dataUrl).
      all: intros fileName title text H Hshare' message H'.
      * by effect_cases H'.
      * by effect_cases H'.
      * apply elem_of_cons in H as [H|H]; [discriminate H|].
        apply elem_of_cons in H as [H|H]; [|by effect_cases H].
        injection H as -> -> ->. rewrite Hshare in Hshare'. injection Hshare' as ->.
        done.
    + split_and!.
      * intros message H. by effect_cases H.
      * intros href fileName H. by effect_cases H.
      * intros fileName title text H. by effect_cases H.
      * intros fileName title text H. by effect_cases H.
  - destruct (String.eqb name "AbortError"); split_and!.
    all: try (intros message H; by effect_cases H).
    all: try (intros href fileName H; by effect_cases H).
    all: intros fileName title text H; by effect_cases H.
Qed.

(** ** Batches started through the interface *)

Lemma along_ind (ok : event → system → Prop) (P : system → Prop) :
  (∀ ev s s', ok ev s → P s → step ev s = Some s' → P s') →
  ∀ tr s s', along ok tr s → P s → run tr s = Some s' → P s'.
Proof.
  intros Hstep tr. induction tr as [|ev tr IH]; simpl; intros s s' Hok Hs.
  - by intros [= <-].
  - destruct (step ev s) as [s1|] eqn:Hev; [|done]. destruct Hok as [Hok Htr].
    apply IH; [done|]. by eapply Hstep.
Qed.

Lemma alter_resolved (f : batch → batch) b b' (l : list batch) :
  (∀ bt, resolved (f bt) = resolved bt) →
  resolved <$> alter f b l !! b' = resolved <$> l !! b'.
Proof.
  intros Hf. rewrite list_lookup_alter. case_decide; [subst|done].
  destruct (l !! b') as [bt|]; simpl; [|done]. by rewrite Hf.
Qed.

Lemma worker_run_resolved b w s b' :
  resolved <$> batches (worker_run b w s) !! b' = resolved <$> batches s !! b'.
Proof.
  unfold worker_run. destruct (batches s !! b) as [bt|]; [|done].
  destruct (shift_next (decadesQueue bt)) as [[decade|] q]; simpl;
    by rewrite ?alter_resolved.
Qed.

(** Regenerating, editing a caption, a call settling and a worker
    resuming neither add a batch nor resolve one. *)
Lemma quiet_step_resolved ev s s' b :
  match ev with
  | RegenerateDecade _ | CaptionChange _ _ | Settle _ _ | Resume _ _ => True
  | _ => False
  end →
  step ev s = Some s' →
  length (batches s') = length (batches s) ∧
  resolved <$> batches s' !! b = resolved <$> batches s !! b.
Proof.
  destruct ev as [result| |d|d cap| |id r|b' w|b']; simpl; try done; intros _.
  - intros [= <-]. unfold handleRegenerateDecade.
    destruct (uploadedImage (app s)) as [image|]; [|done].
    destruct (truthy image); [|done].
    by destruct (status_of d (generatedImages (app s))) as [[]|].
  - by intros [= <-].
  - destruct (find_call id (inflight s)) as [c|]; [|done]. intros [= <-].
    unfold resume_call. destruct (call_cont c); simpl; [|done].
    by rewrite length_alter, alter_resolved.
  - destruct (batches s !! b' ≫= _) as [[]|]; try done. intros [= <-].
    by rewrite worker_run_length, worker_run_resolved.
Qed.

Lemma all_resolved s :
  one_batch_at_a_time s → appState (app s) ≠ generating →
  ∀ b bt, batches s !! b = Some bt → resolved bt = true.
Proof.
  intros Hinv Hview b bt Hb. destruct (resolved bt) eqn:Hres; [done|].
  by destruct (Hinv b bt Hb Hres).
Qed.

Lemma one_batch_at_a_time_step ev s s' :
  offered ev s ∧ read_in_time ev s →
  one_batch_at_a_time s → step ev s = Some s' → one_batch_at_a_time s'.
Proof.
  intros [Hoff Hread] Hinv Hstep.
  assert (Hquiet : appState (app s') = appState (app s) →
    (∀ b, length (batches s') = length (batches s) ∧
          resolved <$> batches s' !! b = resolved <$> batches s !! b) →
    one_batch_at_a_time s').
  { intros Hview Hsame b bt' Hb' Hres'. destruct (Hsame b) as [Hlen Hres].
    rewrite Hb' in Hres. simpl in Hres. rewrite Hview, Hlen.
    destruct (batches s !! b) as [bt|] eqn:Hb; [|done]. injection Hres as Hres.
    apply (Hinv b bt Hb). congruence. }
  assert (Hnone : appState (app s) ≠ generating → batches s' = batches s →
                  one_batch_at_a_time s').
  { intros Hview Heq b bt' Hb' Hres'. rewrite Heq in Hb'.
    by rewrite (all_resolved s Hinv Hview b bt' Hb') in Hres'. }
  destruct ev as [result| |d|d cap| |id r|b' w|b'];
    try (apply Hquiet; [eapply step_appState; [|exact Hstep]; exact I
                       |intros b0; eapply quiet_step_resolved; [|exact Hstep]; exact I]);
    simpl in *.
  - injection Hstep as <-. apply Hnone; [|done]. destruct Hread as [-> | ->]; done.
  - injection Hstep as <-. destruct Hoff as [Hview Hup].
    unfold truthy_opt in Hup. destruct (uploadedImage (app s)) as [image|] eqn:Himg; [|done].
    rewrite (handleGenerateClick_started s image Himg Hup).
    intros b bt' Hb' Hres'. simpl in *. split; [done|].
    rewrite length_app. simpl.
    apply lookup_app_Some in Hb' as [Hb'|[Hge Hb']].
    + assert (appState (app s) ≠ generating) as Hng by (by rewrite Hview).
      by rewrite (all_resolved s Hinv Hng b bt' Hb') in Hres'.
    + apply list_lookup_singleton_Some in Hb' as [Hb0 _]. lia.
  - injection Hstep as <-. apply Hnone; [|done]. destruct Hoff as [[-> _] | ->]; done.
  - destruct (batches s !! b') as [bt|] eqn:Hb; [|done].
    destruct (forallb is_finished (workers bt) && negb (resolved bt)) eqn:Hguard; [|done].
    injection Hstep as <-. apply andb_true_iff in Hguard as [_ Hres%negb_true_iff].
    destruct (Hinv b' bt Hb Hres) as [_ Hlast].
    intros b bt' Hb' Hres'. unfold join in Hb'. simpl in Hb'.
    rewrite list_lookup_alter in Hb'. case_decide as Hbb.
    + subst b'. rewrite Hb in Hb'. injection Hb' as <-. done.
    + destruct (Hinv b bt' Hb' Hres') as [_ Hlast']. lia.
Qed.

(** X12.  Used through its buttons, with every chosen file read before
    Generate is clicked, the component never runs two batches at once:
    in every state reached, a batch that has not resolved is the newest
    one and the generating view is shown; the generating view is shown
    only while the newest batch has not resolved; and outside the
    generating view the only calls still pending are regenerations. *)
Theorem X12_batches_never_overlap tr s :
  along (λ ev s, offered ev s ∧ read_in_time ev s) tr init →
  run tr init = Some s →
  one_batch_at_a_time s ∧
  (appState (app s) = generating ↔
     ∃ bt, last (batches s) = Some bt ∧ resolved bt = false) ∧
  (appState (app s) ≠ generating → ∀ c, c ∈ inflight s → call_cont c = Regenerate).
Proof.
  intros Hok Hrun.
  assert (Hone : one_batch_at_a_time s).
  { apply (along_ind _ one_batch_at_a_time one_batch_at_a_time_step tr init s); [done| |done].
    intros b bt Hb. simpl in Hb. by rewrite lookup_nil in Hb. }
  assert (Hgen : generating_has_batch s).
  { apply (run_ind_all generating_has_batch generating_has_batch_step tr init s); [|done].
    unfold generating_has_batch. simpl. discriminate. }
  assert (Hwf : wf s) by (by apply reachable_wf; exists tr).
  split_and!; [done| |].
  - split.
    + intros Hview. destruct (Hgen Hview) as (b & bt & Hb & Hres).
      destruct (Hone b bt Hb Hres) as [_ Hlast]. exists bt. split; [|done].
      rewrite last_lookup, <- Hlast. done.
    + intros (bt & Hlast & Hres). rewrite last_lookup in Hlast.
      by destruct (Hone _ bt Hlast Hres).
  - intros Hview c Hc. destruct (call_cont c) as [b w|] eqn:Hk; [|done].
    destruct (wf_await s Hwf c b w Hc Hk) as (bt & Hb & Hw).
    pose proof (all_resolved s Hone Hview b bt Hb) as Hres.
    assert (Hlt : w < concurrencyLimit).
    { rewrite <- (wf_pool s Hwf b bt Hb). by eapply lookup_lt_Some. }
    rewrite (wf_resolved s Hwf b bt w Hb Hres Hlt) in Hw. discriminate.
Qed.

Lemma X12_batches_never_overlap_witness :
  one_batch_at_a_time after_session_run ∧
  (appState (app after_session_run) = generating ↔
     ∃ bt, last (batches after_session_run) = Some bt ∧ resolved bt = false) ∧
  (appState (app after_session_run) ≠ generating →
   ∀ c, c ∈ inflight after_session_run → call_cont c = Regenerate).
Proof.
  apply (X12_batches_never_overlap session_run after_session_run).
  - vm_compute. repeat split; auto; repeat constructor.
  - vm_compute. reflexivity.
Defined.

Lemma offered_catalog_event ev s : offered ev s → catalog_event ev.
Proof. destruct ev; simpl; tauto. Qed.

Lemma album_in_catalog_order s imageData :
  JsObj.keys (images s) = DECADES →
  (prepareAlbumData s).2 = Some imageData →
  JsObj.keys imageData = DECADES ∧ shareFileName imageData = album_file_name.
Proof.
  intros Hkeys. unfold prepareAlbumData. fold (images s).
  assert (Hnd : NoDup (JsObj.keys (images s))) by (rewrite Hkeys; apply DECADES_NoDup).
  destruct (Nat.ltb_spec (length (JsObj.keys (imageData_of (images s)))) (length DECADES))
    as [|Hle]; simpl; [done|].
  intros [= <-]. rewrite imageData_of_keys in Hle by done.
  assert (Hall : List.filter (λ e, usable e.2) (images s) = images s).
  { apply filter_all. unfold JsObj.keys in Hle. rewrite length_map in Hle.
    rewrite <- Hkeys in Hle. unfold JsObj.keys in Hle. by rewrite length_map in Hle. }
  assert (Hk : JsObj.keys (imageData_of (images s)) = DECADES).
  { rewrite imageData_of_keys by done. by rewrite Hall. }
  split; [done|]. unfold shareFileName. rewrite Hk. reflexivity.
Qed.

Lemma cards_have_entries_step ev s s' :
  offered ev s ∧ read_in_time ev s →
  catalog_calls s → one_batch_at_a_time s →
  (appState (app s) = generating ∨ appState (app s) = results_shown →
   JsObj.keys (images s) = DECADES) →
  step ev s = Some s' →
  appState (app s') = generating ∨ appState (app s') = results_shown →
  JsObj.keys (images s') = DECADES.
Proof.
  intros [Hoff Hread] Hcat Hone Hkeys Hstep Hview.
  assert (Hquiet : appState (app s') = appState (app s) → keeps_store ev →
                   JsObj.keys (images s') = DECADES).
  { intros Heq Hkeep. rewrite Heq in Hview.
    eapply catalog_keys_step; [done|by eapply offered_catalog_event|done|done|by apply Hkeys]. }
  destruct ev as [result| |d|d cap| |id r|b w|b];
    try (apply Hquiet; [eapply step_appState; [|exact Hstep]; exact I|exact I]);
    simpl in *.
  - injection Hstep as <-. simpl in Hview. by destruct Hview.
  - injection Hstep as <-. destruct Hoff as [_ Hup].
    by rewrite handleGenerateClick_images.
  - injection Hstep as <-. simpl in Hview. by destruct Hview.
  - destruct (batches s !! b) as [bt|] eqn:Hb; [|done].
    destruct (forallb is_finished (workers bt) && negb (resolved bt)) eqn:Hguard; [|done].
    injection Hstep as <-. apply andb_true_iff in Hguard as [_ Hres%negb_true_iff].
    destruct (Hone b bt Hb Hres) as [Hgen _]. unfold images. simpl. apply Hkeys. by left.
Qed.

(** X13.  Used through its buttons, with every chosen file read before
    Generate is clicked: whenever the cards are on screen (generating or
    results view), the store holds exactly one entry per decade of the
    catalog, in catalog order.  So no card ever falls back to the Pending
    shown for a missing entry, and an album that is accepted lists the
    decades in catalog order and is shared as
    [past-forward-album-1950s-2000s.jpg]. *)
Theorem X13_cards_always_have_entries tr s :
  along (λ ev s, offered ev s ∧ read_in_time ev s) tr init →
  run tr init = Some s →
  appState (app s) = generating ∨ appState (app s) = results_shown →
  JsObj.keys (images s) = DECADES ∧
  (∀ decade, decade ∈ DECADES → status_of decade (images s) = Some (cardStatus decade s)) ∧
  (∀ imageData, (prepareAlbumData s).2 = Some imageData →
     JsObj.keys imageData = DECADES ∧ shareFileName imageData = album_file_name).
Proof.
  intros Hok Hrun Hview.
  assert (Hinv : wf s ∧ catalog_calls s ∧ one_batch_at_a_time s ∧
                 (appState (app s) = generating ∨ appState (app s) = results_shown →
                  JsObj.keys (images s) = DECADES)).
  { apply (along_ind (λ ev s, offered ev s ∧ read_in_time ev s)
             (λ s, wf s ∧ catalog_calls s ∧ one_batch_at_a_time s ∧
                   (appState (app s) = generating ∨ appState (app s) = results_shown →
                    JsObj.keys (images s) = DECADES)))
      with (tr := tr) (s := init); [|done| |done].
    - intros ev s1 s2 Hev (Hwf & Hcat & Hone & Hkeys) Hstep. split_and!.
      + by eapply wf_step.
      + eapply catalog_calls_step; [done| |done|done]. eapply offered_catalog_event, Hev.
      + by eapply one_batch_at_a_time_step.
      + by eapply cards_have_entries_step.
    - split_and!.
      + apply wf_init.
      + intros c []%elem_of_nil.
      + intros b bt Hb. simpl in Hb. by rewrite lookup_nil in Hb.
      + simpl. by intros [|]. }
  destruct Hinv as (_ & _ & _ & Hkeys). specialize (Hkeys Hview).
  split_and!; [done| |].
  - intros decade Hin. unfold cardStatus. fold (images s).
    rewrite <- Hkeys in Hin. apply get_is_Some in Hin as [e He].
    unfold status_of. by rewrite He.
  - intros imageData. by apply album_in_catalog_order.
Qed.

Lemma X13_cards_always_have_entries_witness :
  JsObj.keys (images after_session_run) = DECADES ∧
  (∀ decade, decade ∈ DECADES →
     status_of decade (images after_session_run) = Some (cardStatus decade after_session_run)) ∧
  (∀ imageData, (prepareAlbumData after_session_run).2 = Some imageData →
     JsObj.keys imageData = DECADES ∧ shareFileName imageData = album_file_name).
Proof.
  apply (X13_cards_always_have_entries session_run after_session_run).
  - vm_compute. repeat split; auto; repeat constructor.
  - vm_compute. reflexivity.
  - left. reflexivity.
Defined.

(** A regeneration that is still pending when the user starts over is
    not tied to the photo it was made for: in the session below it
    settles into the store of the next batch, whose own call for the
    same decade is still pending. *)
Example stale_regeneration_lands_in_next_batch :
  ∃ s', run [Settle 6 (Resolved "img-1960s-of-the-first-photo")] after_session_run = Some s' ∧
    uploadedImage (app s') = Some other_photo ∧
    JsObj.get "1960s" (images s') = Some (entry_done "img-1960s-of-the-first-photo") ∧
    ∃ c, c ∈ inflight s' ∧ call_decade c = "1960s" ∧ call_image c = other_photo.
Proof.
  eexists. split; [vm_compute; reflexivity|]. split_and!; [reflexivity..|].
  eexists. split; [right; left|]. done.
Qed.

(** ** Prompts *)

Lemma string_length_append (a b : string) :
  String.length (a +:+ b) = String.length a + String.length b.
Proof.
  induction a as [|c a IH]; [done|].
  change (S (String.length (a +:+ b)) = S (String.length a) + String.length b).
  by rewrite IH.
Qed.

Lemma string_append_inj_r (a b q : string) : a +:+ q = b +:+ q → a = b.
Proof.
  revert b. induction a as [|c a IH]; intros [|c' b] Heq.
  - done.
  - apply (f_equal String.length) in Heq. rewrite !string_length_append in Heq.
    simpl in Heq. lia.
  - apply (f_equal String.length) in Heq. rewrite !string_length_append in Heq.
    simpl in Heq. lia.
  - change (String c (a +:+ q) = String c' (b +:+ q)) in Heq.
    injection Heq as -> Heq. f_equal. by apply IH.
Qed.

(** X14.  Different decades are never given the same prompt: the decade
    a call was made for can be read off its prompt. *)
Theorem X14_prompt_tells_the_decade d1 d2 : prompt d1 = prompt d2 → d1 = d2.
Proof.
  unfold prompt. intros Heq. apply String.app_inj in Heq.
  by apply string_append_inj_r in Heq.
Qed.

Lemma X14_prompt_tells_the_decade_witness : "1980s" = "1980s".
Proof. apply (X14_prompt_tells_the_decade "1980s" "1980s"). reflexivity. Defined.

(** ** The desktop layout *)

Lemma indexOf_from_absent i x l : x ∉ l → Layout.indexOf_from i x l = (-1)%Z.
Proof.
  revert i. induction l as [|y l IH]; intros i Hnin; simpl; [done|].
  apply not_elem_of_cons in Hnin as [Hne Hnin].
  destruct (String.eqb_spec y x) as [->|_]; [done|]. by apply IH.
Qed.

Lemma cardRotate_is_Some decade : is_Some (Layout.cardRotate decade) ↔ decade ∈ DECADES.
Proof.
  split.
  - intros Hsome. destruct (decide (decade ∈ DECADES)) as [|Hnin]; [done|].
    unfold Layout.cardRotate, Layout.indexOf in Hsome.
    rewrite (indexOf_from_absent _ _ _ Hnin) in Hsome. by destruct Hsome.
  - unfold DECADES. intros Hin.
    repeat (apply elem_of_cons in Hin as [->|Hin]; [by eexists|]).
    by apply elem_of_nil in Hin.
Qed.

(** X15.  The desktop layout renders for an ordering of the cards exactly
    when every decade in it belongs to the catalog: each decade of the
    catalog has a pre-defined position, and a decade outside it makes
    the lookup of its position fail.  The cards come out in the order
    given, each with the rotation of its decade. *)
Theorem X15_desktop_cards_render orderedDecades :
  (is_Some (Layout.desktopCards orderedDecades) ↔
     ∀ decade, decade ∈ orderedDecades → decade ∈ DECADES) ∧
  ∀ cards, Layout.desktopCards orderedDecades = Some cards →
    cards.*1 = orderedDecades ∧
    ∀ decade r, (decade, r) ∈ cards → Layout.cardRotate decade = Some r.
Proof.
  split.
  - unfold Layout.desktopCards. rewrite mapM_is_Some, Forall_forall.
    split; intros H decade Hin.
    + apply cardRotate_is_Some. specialize (H decade Hin). simpl in H.
      by apply fmap_is_Some in H.
    + simpl. apply fmap_is_Some. apply cardRotate_is_Some. by apply H.
  - unfold Layout.desktopCards. intros cards Hcards. apply mapM_Some in Hcards.
    induction Hcards as [|decade [d r] l cards' Hx _ IH]; simpl.
    + split; [done|]. by intros ? ? ?%elem_of_nil.
    + destruct (Layout.cardRotate decade) as [r'|] eqn:Hrot; [|done].
      simpl in Hx. injection Hx as <- <-. destruct IH as [IH1 IH2]. split; [by f_equal|].
      intros d0 r0 [[= -> ->]|Hin]%elem_of_cons; [done|by apply IH2].
Qed.

(** ** Captions and the next photo *)

Lemma captions_cleared_step ev s s' :
  offered ev s ∧ read_in_time ev s →
  (appState (app s) = idle ∨ appState (app s) = image_uploaded → captions s = []) →
  step ev s = Some s' →
  appState (app s') = idle ∨ appState (app s') = image_uploaded → captions s' = [].
Proof.
  intros [Hoff Hread] Hinv Hstep Hview.
  assert (Hquiet : appState (app s') = appState (app s) → keeps_captions ev →
                   captions s' = []).
  { intros Heq Hkeep. rewrite Heq in Hview.
    rewrite (step_captions ev s s' Hkeep Hstep). by apply Hinv. }
  destruct ev as [result| |d|d cap| |id r|b w|b];
    try (apply Hquiet; [eapply step_appState; [|exact Hstep]; exact I|exact I]);
    simpl in *.
  - injection Hstep as <-. by apply Hinv.
  - injection Hstep as <-. destruct Hoff as [_ Hup].
    unfold truthy_opt in Hup. destruct (uploadedImage (app s)) as [image|] eqn:Himg; [|done].
    rewrite (handleGenerateClick_started s image Himg Hup) in Hview. simpl in Hview.
    by destruct Hview.
  - injection Hstep as <-. simpl in Hview. destruct Hoff as [[Hgen|Hres] _].
    + rewrite Hgen in Hview. by destruct Hview.
    + rewrite Hres in Hview. by destruct Hview.
  - by injection Hstep as <-.
  - destruct (batches s !! b) as [bt|]; [|done].
    destruct (forallb _ _ && _); [|done]. injection Hstep as <-. simpl in Hview.
    by destruct Hview.
Qed.

(** X16.  Used through its buttons, with every chosen file read before
    Generate is clicked, captions never carry over from one photo to the
    next: whenever the upload view or the photo preview is shown there
    are no caption overrides, so every batch starts without any. *)
Theorem X16_captions_do_not_carry_over tr s :
  along (λ ev s, offered ev s ∧ read_in_time ev s) tr init →
  run tr init = Some s →
  (appState (app s) = idle ∨ appState (app s) = image_uploaded → captions s = []) ∧
  (offered GenerateClick s → captions (handleGenerateClick s) = []).
Proof.
  intros Hok Hrun.
  assert (Hinv : appState (app s) = idle ∨ appState (app s) = image_uploaded → captions s = []).
  { apply (along_ind (λ ev s, offered ev s ∧ read_in_time ev s)
             (λ s, appState (app s) = idle ∨ appState (app s) = image_uploaded →
                   captions s = []) captions_cleared_step tr init s); done. }
  split; [done|]. intros [Hview Hup].
  rewrite (step_captions GenerateClick s (handleGenerateClick s) I eq_refl).
  apply Hinv. by right.
Qed.

Lemma X16_captions_do_not_carry_over_witness :
  (appState (app (handleReset after_groovy_run)) = idle ∨
   appState (app (handleReset after_groovy_run)) = image_uploaded →
   captions (handleReset after_groovy_run) = []) ∧
  (offered GenerateClick (handleReset after_groovy_run) →
   captions (handleGenerateClick (handleReset after_groovy_run)) = []).
Proof.
  apply (X16_captions_do_not_carry_over
           (ImageLoaded photo :: GenerateClick :: full_run ++
            CaptionChange "1970s" "Groovy Me" :: groovy_run ++ [ResetClick])).
  - vm_compute. repeat split; auto; repeat constructor.
  - vm_compute. reflexivity.
Defined.

(** ** The batch run with regenerations *)

Lemma resolved_batch_drained s b bt :
  wf s → batches s !! b = Some bt → resolved bt = true →
  decadesQueue bt = [] ∧ inflight_of b s = [].
Proof.
  intros Hwf Hb Hres.
  assert (Hfin : ∀ w, w < concurrencyLimit → workers bt !! w = Some Finished).
  { intros w Hw. by eapply wf_resolved. }
  split.
  - apply (wf_drained s Hwf b bt 0 Hb). apply Hfin. unfold concurrencyLimit. lia.
  - apply elem_of_nil_inv. intros c [Hown Hc]%list_elem_of_filter.
    unfold batch_of in Hown. destruct (call_cont c) as [b' w|] eqn:Hk; [|done].
    injection Hown as ->.
    destruct (wf_await s Hwf c b w Hc Hk) as (bt' & Hb' & Hw).
    rewrite Hb in Hb'. injection Hb' as <-.
    rewrite Hfin in Hw; [done|].
    rewrite <- (wf_pool s Hwf b bt Hb). by eapply lookup_lt_Some.
Qed.

Lemma regenerating_regenerations s decade :
  regenerating s decade → regenerations s ≠ [].
Proof.
  intros (c & Hc & Hk & _) Hnone.
  assert (Hin : c ∈ regenerations s).
  { apply list_elem_of_filter. split; [|done]. unfold batch_of. by rewrite Hk. }
  rewrite Hnone in Hin. by apply elem_of_nil in Hin.
Qed.

(** C1, as stated, fails.  In the first run below the batch has
    resolved and the results view is shown, yet the 1950s, regenerated while the batch was running, are
    Pending.  In the second a file read ends while the batch runs: the
    batch resolves, and the 1950s, which had settled before, have no
    entry at all. *)
Lemma C1_regenerated_decade_pending_after_join :
  (along offered (ImageLoaded photo :: GenerateClick :: regenerating_run) init ∧
   run (ImageLoaded photo :: GenerateClick :: regenerating_run) init =
     Some after_regenerating_run ∧
   resolved <$> batches after_regenerating_run !! 0 = Some true ∧
   appState (app after_regenerating_run) = results_shown ∧
   JsObj.get "1950s" (images after_regenerating_run) = Some entry_pending) ∧
  (along offered (ImageLoaded photo :: GenerateClick :: interrupted_run) init ∧
   run (ImageLoaded photo :: GenerateClick :: interrupted_run) init =
     Some after_interrupted_run ∧
   resolved <$> batches after_interrupted_run !! 0 = Some true ∧
   appState (app after_interrupted_run) = results_shown ∧
   JsObj.get "1950s" (images after_interrupted_run) = None).
Proof. vm_compute. repeat split; auto; repeat constructor. Qed.

(** C1, amended.  Take any reachable state with a photo uploaded and
    start a batch there.  Let its calls settle, with any outcomes, and
    its workers resume, in any order, while the user may regenerate
    decades and edit captions but does not discard or re-initialise the
    store (no reset, no new upload, no second Generate).  Once the join
    over the workers of that batch has resolved, its queue is empty,
    none of its own calls is pending, and every decade of the catalog
    has an entry in the store whose status is Done or Error, or else
    Pending with a regeneration call for that decade still pending.  So
    no decade is left Pending when no regeneration is pending, in
    particular when the user has regenerated nothing. *)
Theorem C1_batch_leaves_pending_only_regenerations s0 tr s :
  reachable s0 →
  truthy_opt (uploadedImage (app s0)) = true →
  Forall no_restart tr →
  run tr (handleGenerateClick s0) = Some s →
  resolved <$> batches s !! length (batches s0) = Some true →
  decadesQueue <$> batches s !! length (batches s0) = Some [] ∧
  inflight_of (length (batches s0)) s = [] ∧
  (∀ decade, decade ∈ DECADES →
     ∃ e, JsObj.get decade (images s) = Some e ∧
       (status e = Done ∨ status e = Error ∨
        (status e = Pending ∧ regenerating s decade))) ∧
  (regenerations s = [] →
   ∀ decade, decade ∈ DECADES →
     ∃ e, JsObj.get decade (images s) = Some e ∧ (status e = Done ∨ status e = Error)) ∧
  (Forall undisturbed tr →
   ∀ decade, decade ∈ DECADES →
     ∃ e, JsObj.get decade (images s) = Some e ∧ (status e = Done ∨ status e = Error)).
Proof.
  intros Hreach Hup Hok Hrun Hres.
  assert (Hwf : wf s).
  { eapply wf_run; [|done]. by apply wf_handleGenerateClick, reachable_wf. }
  assert (Hentries : ∀ decade, decade ∈ DECADES →
     ∃ e, JsObj.get decade (images s) = Some e ∧
       (status e = Done ∨ status e = Error ∨
        (status e = Pending ∧ regenerating s decade))).
  { intros decade Hd.
    assert (Hin : decade ∈ JsObj.keys (images s)).
    { apply (run_ind (λ s, decade ∈ JsObj.keys (images s)) no_restart)
        with (tr := tr) (s := handleGenerateClick s0); [|done| |done].
      - intros ev s1 s2 Hev Hin Hstep. by eapply step_keeps_key.
      - by rewrite handleGenerateClick_images. }
    apply get_is_Some in Hin as [e He]. exists e. split; [done|].
    pose proof (batch_with_regenerations s0 tr s Hreach Hup Hok Hrun Hres decade Hd) as Hst.
    unfold status_of in Hst. rewrite He in Hst. simpl in Hst.
    destruct Hst as [[= ->]|[[= ->]|Hregen]]; [by left|by right; left|].
    destruct (status e); auto. }
  destruct (batches s !! length (batches s0)) as [bt|] eqn:Hb; [|done].
  injection Hres as Hres.
  destruct (resolved_batch_drained s _ bt Hwf Hb Hres) as [Hqueue Hown].
  split_and!; [simpl; by rewrite Hqueue|done|done| |].
  - intros Hnone decade Hd. destruct (Hentries decade Hd) as (e & He & Hst).
    exists e. split; [done|].
    destruct Hst as [?|[?|[_ Hregen]]]; [by left|by right|].
    by destruct (regenerating_regenerations s decade Hregen).
  - intros Hund.
    destruct (undisturbed_batch_leaves_none_pending s0 tr s Hreach Hup Hund Hrun)
      as (_ & _ & Hnone); [|done].
    rewrite Hb. simpl. by rewrite Hres.
Qed.

Lemma C1_batch_leaves_pending_only_regenerations_witness :
  decadesQueue <$> batches after_regenerating_run !! 0 = Some [] ∧
  inflight_of 0 after_regenerating_run = [] ∧
  ∀ decade, decade ∈ DECADES →
    ∃ e, JsObj.get decade (images after_regenerating_run) = Some e ∧
      (status e = Done ∨ status e = Error ∨
       (status e = Pending ∧ regenerating after_regenerating_run decade)).
Proof.
  destruct (C1_batch_leaves_pending_only_regenerations
              uploaded regenerating_run after_regenerating_run)
    as (Hqueue & Hown & Hentries & _).
  - exists [ImageLoaded photo]. reflexivity.
  - reflexivity.
  - repeat constructor.
  - vm_compute. reflexivity.
  - vm_compute. reflexivity.
  - split_and!; [exact Hqueue|exact Hown|exact Hentries].
Defined.

(** ** The pool's bound and the regenerations *)

Lemma length_by_owner b (l : list call) :
  (∀ c, c ∈ l → batch_of c = Some b ∨ call_cont c = Regenerate) →
  length l =
    length (filter (λ c, batch_of c = Some b) l) + length (filter (λ c, batch_of c = None) l).
Proof.
  induction l as [|c l IH]; intros Hown; [done|].
  assert (Hl : ∀ c', c' ∈ l → batch_of c' = Some b ∨ call_cont c' = Regenerate).
  { intros c' Hc'. apply Hown. by right. }
  specialize (IH Hl).
  destruct (Hown c ltac:(left)) as [Hb|Hk].
  - rewrite filter_cons_True by done. rewrite filter_cons_False by (rewrite Hb; done).
    simpl. lia.
  - assert (Hnone : batch_of c = None) by (unfold batch_of; by rewrite Hk).
    rewrite filter_cons_False by (rewrite Hnone; done). rewrite filter_cons_True by done.
    simpl. lia.
Qed.

(** C2, as stated, fails.  After the first call of the batch has
    settled and its worker has taken the next decade, one regeneration brings the number of pending
    calls to three, for three decades that are all Pending, while the
    generating view is shown. *)
Lemma C2_three_calls_in_flight :
  along offered (ImageLoaded photo :: GenerateClick :: crowded_run) init ∧
  run (ImageLoaded photo :: GenerateClick :: crowded_run) init = Some after_crowded_run ∧
  appState (app after_crowded_run) = generating ∧
  call_decade <$> inflight after_crowded_run = ["1960s"; "1970s"; "1950s"] ∧
  (status_of "1960s" (images after_crowded_run) = Some Pending ∧
   status_of "1970s" (images after_crowded_run) = Some Pending ∧
   status_of "1950s" (images after_crowded_run) = Some Pending) ∧
  concurrencyLimit < length (inflight after_crowded_run).
Proof. vm_compute. repeat split; auto; repeat constructor. Qed.

(** C2, amended.  With the pool of [concurrencyLimit] = 2 workers, a
    batch never has more than 2 of its own calls of the Generator Client
    pending, at any point of any execution, whatever else happens
    meanwhile.  Regenerations are made outside the pool and are not held
    back by it: when the batch starts from a state where nothing else is
    active and the store is not discarded or re-initialised while it
    runs, the pending calls are those of the pool and one for each
    regeneration under way, so at most 2 plus the number of pending
    regenerations; they are for different decades, hence never more than
    the catalog has when the cards regenerate catalog decades.  When the
    user regenerates nothing, at most 2 calls are pending in all. *)
Theorem C2_pool_bounds_its_own_calls s0 tr s :
  reachable s0 →
  truthy_opt (uploadedImage (app s0)) = true →
  run tr (handleGenerateClick s0) = Some s →
  concurrencyLimit = 2 ∧
  length (inflight_of (length (batches s0)) s) ≤ concurrencyLimit ∧
  (quiescent s0 → Forall no_restart tr →
     length (inflight s) =
       length (inflight_of (length (batches s0)) s) + length (regenerations s) ∧
     length (inflight s) ≤ concurrencyLimit + length (regenerations s) ∧
     NoDup (call_decade <$> inflight s) ∧
     (Forall catalog_event tr → length (inflight s) ≤ length DECADES)) ∧
  (quiescent s0 → Forall undisturbed tr → length (inflight s) ≤ concurrencyLimit).
Proof.
  intros Hreach Hup Hrun.
  destruct (pool_bounds_pending_calls s0 tr s Hreach Hup Hrun) as (HK & Hpool & Hquiet).
  split_and!; [done|done| |done].
  intros Hq Hok.
  pose proof (reachable_wf s0 Hreach) as Hwf0.
  pose proof Hup as Hup'. unfold truthy_opt in Hup'.
  destruct (uploadedImage (app s0)) as [image|] eqn:Himg; [|done].
  destruct (exclusive_run (length (batches s0)) tr (handleGenerateClick s0) s Hok Hrun)
    as (Hwf & [Hown _] & _ & Hnd & _).
  { split_and!.
    - by apply wf_handleGenerateClick.
    - by eapply single_batch_started.
    - by eapply exclusive_started. }
  assert (Hlen : length (inflight s) =
    length (inflight_of (length (batches s0)) s) + length (regenerations s)).
  { by apply length_by_owner. }
  split_and!; [done|lia|done|].
  intros Hcat.
  assert (Hcalls : wf s ∧ catalog_calls s).
  { apply (run_ind (λ s, wf s ∧ catalog_calls s) catalog_event)
      with (tr := tr) (s := handleGenerateClick s0); [|done| |done].
    - intros ev s1 s2 Hev [Hwf1 H1] Hstep. split; [by eapply wf_step|].
      by eapply catalog_calls_step.
    - split; [by apply wf_handleGenerateClick|].
      apply (catalog_calls_step GenerateClick s0); [done|done|done|].
      intros c Hc. destruct Hq as [Hnone _]. rewrite Hnone in Hc.
      by apply elem_of_nil in Hc. }
  destruct Hcalls as [_ Hcalls].
  rewrite <- (length_fmap call_decade (inflight s)).
  apply submseteq_length, NoDup_submseteq; [done|].
  intros decade (c & -> & Hc)%list_elem_of_fmap. by apply Hcalls.
Qed.

Lemma C2_pool_bounds_its_own_calls_witness :
  length (inflight_of 0 after_crowded_run) ≤ concurrencyLimit ∧
  length (inflight after_crowded_run) =
    length (inflight_of 0 after_crowded_run) + length (regenerations after_crowded_run) ∧
  length (inflight after_crowded_run) ≤ length DECADES.
Proof.
  destruct (C2_pool_bounds_its_own_calls uploaded crowded_run after_crowded_run)
    as (_ & Hpool & Hall & _).
  - exists [ImageLoaded photo]. reflexivity.
  - reflexivity.
  - vm_compute. reflexivity.
  - destruct Hall as (Hlen & _ & _ & Hcat).
    + split; [reflexivity|]. intros b bt w st Hb. discriminate Hb.
    + repeat constructor.
    + split_and!; [exact Hpool|exact Hlen|]. apply Hcat.
      repeat constructor.
Defined.
